(** * A shallow embedding of the Vue 2 reactivity core

    Sources embedded here:
    - [core/observer/dep.js]      : [Dep], [pushTarget], [popTarget];
    - [core/observer/watcher.js]  : [Watcher];
    - [core/observer/index.js]    : [Observer], [observe], [defineReactive],
                                    [set], [del], [dependArray];
    - [core/instance/state.js]    : [proxy], [getData], [computedGetter] and
                                    [$watch].

    JavaScript objects live in explicit heaps (finite maps from references to
    records); a reference to a Dep or to a Watcher is its [id], which both
    constructors draw from a module-level counter.  JavaScript functions
    that the library receives from its callers (watcher getters and
    callbacks, pre-existing accessors, custom setter hooks) are scripts of
    type [prog]; running them is the job of [exec].  A script can start
    arbitrarily deep chains of calls (a write notifies a synchronous
    watcher, whose callback writes again, ...), so the interpreter is indexed
    by a bound on the depth of script calls.

    The heap holds plain objects, arrays, Vue instances and VNodes.  Of the
    properties of an object it holds the ordinary ones as slots, and
    [__ob__] and [_isVue] as fields of the record; what an object inherits
    is known by its class.  Reads and writes follow the program on the
    ordinary keys ([ordinary_key]), those that Vue does not keep for itself
    and that no prototype defines; a statement that depends on this takes
    the key to be ordinary. *)

From Stdlib Require Import Floats.SpecFloat.
From stdpp Require Import gmap strings list fin_maps sorting.

#[local] Set Warnings "-clear-no-such-hyp".

Open Scope string_scope.
Open Scope list_scope.

(** ** Values *)

(** JavaScript values.  Numbers are IEEE-754 doubles, given by their
    specification type; objects (plain objects, arrays, Vue instances, VNodes)
    are heap references. *)
Inductive jsval : Type :=
| VUndef
| VNull
| VBool (b : bool)
| VNum (x : spec_float)
| VStr (s : string)
| VObj (r : nat).

(** [a === b].  On numbers this is IEEE equality: NaN differs from itself and
    the two zeros are equal. *)
Definition strict_eq (a b : jsval) : bool :=
  match a, b with
  | VUndef, VUndef => true
  | VNull, VNull => true
  | VBool x, VBool y => Bool.eqb x y
  | VNum x, VNum y => SFeqb x y
  | VStr x, VStr y => String.eqb x y
  | VObj x, VObj y => Nat.eqb x y
  | _, _ => false
  end.

Definition NaN : jsval := VNum S754_nan.

(** The test of the reactive setter:
    [newVal === value || (newVal !== newVal && value !== value)]. *)
Definition same_value (newVal value : jsval) : bool :=
  strict_eq newVal value
  || (negb (strict_eq newVal newVal) && negb (strict_eq value value)).

(** [isObject] of shared/util: [obj !== null && typeof obj === 'object']. *)
Definition isObject (v : jsval) : bool :=
  match v with VObj _ => true | _ => false end.

(** [isUndef] and [isPrimitive] of shared/util. *)
Definition isUndef (v : jsval) : bool :=
  match v with VUndef | VNull => true | _ => false end.

Definition isPrimitive (v : jsval) : bool :=
  match v with VStr _ | VNum _ | VBool _ => true | _ => false end.

(** *** The text of a value

    A template literal applies [ToString] to what it splices in.  On a
    number this is [Number::toString] (ECMAScript 6.1.6.1.20): the shortest
    decimal numeral that reads back as the same double, the one closest to
    it when there are several. *)

Definition digit (d : Z) : string :=
  match d with
  | 0 => "0" | 1 => "1" | 2 => "2" | 3 => "3" | 4 => "4"
  | 5 => "5" | 6 => "6" | 7 => "7" | 8 => "8" | _ => "9"
  end%Z.

Fixpoint decimal_go (fuel : nat) (n : Z) (acc : string) : string :=
  match fuel with
  | O => acc
  | S fuel' =>
      let acc' := digit (n mod 10) +:+ acc in
      if (n <? 10)%Z then acc' else decimal_go fuel' (n / 10) acc'
  end.

(** The decimal numeral of a natural number. *)
Definition decimal (n : Z) : string :=
  decimal_go (S (Z.to_nat (Z.log2 n))) n EmptyString.

Fixpoint zeros (n : nat) : string :=
  match n with O => EmptyString | S n' => "0" +:+ zeros n' end.

(** [a * 2^b * 10^c], compared exactly. *)
Definition cmp_scaled (x y : Z * Z * Z) : comparison :=
  let '(a1, b1, c1) := x in
  let '(a2, b2, c2) := y in
  let bm := Z.min b1 b2 in
  let cm := Z.min c1 c2 in
  (a1 * 2 ^ (b1 - bm) * 10 ^ (c1 - cm) ?= a2 * 2 ^ (b2 - bm) * 10 ^ (c2 - cm))%Z.

(** The double [m * 2^e] in the form [M * 2^E] with a mantissa of 53 bits,
    or with [E = -1074] for a subnormal. *)
Definition canonical (m e : Z) : Z * Z :=
  let E := Z.max (Z.log2 m + 1 + e - 53) (-1074) in
  ((if (E <=? e)%Z then m * 2 ^ (e - E) else m / 2 ^ (E - e))%Z, E).

(** Does the real [v] round to the double [M * 2^E]?  It does between the
    midpoints to the neighbouring doubles, and at a midpoint when [M] is
    even. *)
Definition rounds_to (M E : Z) (v : Z * Z * Z) : bool :=
  let lo := if ((M =? 2 ^ 52) && (-1074 <? E))%Z
            then (4 * M - 1, E - 2, 0)%Z
            else (2 * M - 1, E - 1, 0)%Z in
  let hi := (2 * M + 1, E - 1, 0)%Z in
  match cmp_scaled lo v, cmp_scaled v hi with
  | Lt, Lt => true
  | Eq, _ | _, Eq => Z.even M
  | _, _ => false
  end.

(** The least [n] from [n0] on with [M * 2^E < 10^n]. *)
Fixpoint magnitude (fuel : nat) (M E n : Z) : Z :=
  match fuel with
  | O => n
  | S fuel' =>
      match cmp_scaled (M, E, 0%Z) (1%Z, 0%Z, n) with
      | Lt => n
      | _ => magnitude fuel' M E (n + 1)%Z
      end
  end.

(** The digits [s] and the exponent [n] of [Number::toString]: for [k = 1,
    2, ...] the numerals [s * 10^(n - k)] with [k] digits next to the
    double, below and above. *)
Fixpoint shortest (fuel : nat) (M E n k : Z) : Z * Z :=
  let below := (M * 2 ^ Z.max E 0 * 10 ^ Z.max (k - n) 0
                / (2 ^ Z.max (- E) 0 * 10 ^ Z.max (n - k) 0))%Z in
  let above := (below + 1)%Z in
  match fuel with
  | O => (below, k)
  | S fuel' =>
      let ok_below := rounds_to M E (below, 0%Z, (n - k)%Z) in
      let ok_above := rounds_to M E (above, 0%Z, (n - k)%Z) in
      let nearer_below :=
        match cmp_scaled (2 * M, E, 0)%Z (2 * below + 1, 0, n - k)%Z with
        | Lt => true
        | Eq => Z.even below
        | Gt => false
        end in
      if ok_below && (negb ok_above || nearer_below) then (below, k)
      else if ok_above then (above, k)
      else shortest fuel' M E n (k + 1)%Z
  end.

Definition positive_number_text (m e : Z) : string :=
  let '(M, E) := canonical m e in
  let n0 := magnitude 8 M E ((Z.log2 M + E) * 30103 / 100000 - 2)%Z in
  let '(s0, k0) := shortest 17 M E n0 1%Z in
  (* the numeral above a run of nines is a power of ten *)
  let '(s, k, n) := if (s0 =? 10 ^ k0)%Z then (1, 1, n0 + 1)%Z else (s0, k0, n0) in
  let ds := decimal s in
  if ((k <=? n) && (n <=? 21))%Z then ds +:+ zeros (Z.to_nat (n - k))
  else if ((0 <? n) && (n <=? 21))%Z then
    String.substring 0 (Z.to_nat n) ds +:+ "."
    +:+ String.substring (Z.to_nat n) (Z.to_nat (k - n)) ds
  else if ((-6 <? n) && (n <=? 0))%Z then
    "0." +:+ zeros (Z.to_nat (- n)) +:+ ds
  else
    let e10 := (n - 1)%Z in
    let exponent := (if (e10 <? 0)%Z then "-" else "+") +:+ decimal (Z.abs e10) in
    if (k =? 1)%Z then ds +:+ "e" +:+ exponent
    else String.substring 0 1 ds +:+ "."
         +:+ String.substring 1 (Z.to_nat (k - 1)) ds +:+ "e" +:+ exponent.

(** [Number::toString (x)] *)
Definition number_text (x : spec_float) : string :=
  match x with
  | S754_nan => "NaN"
  | S754_zero _ => "0"
  | S754_infinity false => "Infinity"
  | S754_infinity true => "-Infinity"
  | S754_finite sign m e =>
      (if sign then "-" else EmptyString)
      +:+ positive_number_text (Z.pos m) e
  end.

(** [ToString] of a value that is not an object, as a template literal
    applies it.  An object gives what its [toString] returns (for a plain
    object the text below), which the record does not hold; [set] and [del]
    splice in [undefined], [null] and primitive values only. *)
Definition to_text (v : jsval) : string :=
  match v with
  | VUndef => "undefined"
  | VNull => "null"
  | VBool true => "true"
  | VBool false => "false"
  | VNum x => number_text x
  | VStr str => str
  | VObj _ => "[object Object]"
  end.

(** Property keys: names and array indices. *)
Inductive key : Type :=
| KStr (s : string)
| KIdx (n : nat).

#[global] Instance key_eq_dec : EqDecision key.
Proof. solve_decision. Defined.

(** [isValidArrayIndex] of shared/util. *)
Definition isValidArrayIndex (k : key) : bool :=
  match k with KIdx _ => true | KStr _ => false end.

(** ** Scripts *)

(** The [options] argument of the Watcher constructor. *)
Record WatcherOptions : Type := mkOptions {
  opt_deep : bool;
  opt_user : bool;
  opt_lazy : bool;
  opt_sync : bool
}.

(** The body of a JavaScript function handed to the library, as the tree of
    the calls it makes into the library; the continuation of a call receives
    its result. *)
#[warnings="-register-all"]
Inductive prog : Type :=
| Ret (v : jsval)                                   (* return v *)
| Throw (e : jsval)                                 (* throw e *)
| Warn (msg : string) (k : prog)                    (* warn(msg) *)
| GetProp (o : nat) (name : key) (k : jsval -> prog)          (* o[name] *)
| SetProp (o : nat) (name : key) (v : jsval) (k : prog)       (* o[name] = v *)
| ReactiveGetter (p : nat) (k : jsval -> prog)      (* the getter closure p *)
| ReactiveSetter (p : nat) (v : jsval) (k : prog)   (* the setter closure p *)
| VueSet (target : jsval) (name : key) (v : jsval) (k : prog) (* set(target, name, v) *)
| Observe (v : jsval) (asRootData : bool) (k : prog)          (* observe(v, asRootData) *)
| DefineReactive (o : nat) (name : key) (v : option jsval)
    (customSetter : option prog) (shallow : bool) (k : prog)
| NewWatcher (vm : nat) (src : string) (getter : prog)
    (cb : jsval -> jsval -> prog) (options : option WatcherOptions)
    (isRenderWatcher : bool) (k : nat -> prog)     (* new Watcher(...) *)
| ComputedGetter (w : nat) (k : jsval -> prog)     (* the computedGetter of w *)
| Run (w : nat) (k : prog)                          (* w.run() *)
| Teardown (w : nat) (k : prog)                     (* w.teardown() *)
| Untracked (body : prog) (k : jsval -> prog).
    (* pushTarget(); try { body } finally { popTarget() } *)

(** ** Heap records *)

(** [class Dep]: [id] is the key of the record in [Dep_heap]. *)
Record Dep : Type := mkDep {
  subs : list nat                (* subs: Array<Watcher> *)
}.

(** [class Watcher]: [id] is the key of the record in [Watcher_heap].  The
    option [before] is only read by the scheduler and is left out. *)
Record Watcher : Type := mkWatcher {
  vm : nat;
  expression : string;
  cb : jsval -> jsval -> prog;
  deep : bool;
  user : bool;
  lazy : bool;
  sync : bool;
  dirty : bool;
  active : bool;
  deps : list nat;               (* deps: Array<Dep> *)
  newDeps : list nat;
  depIds : gset nat;             (* depIds: SimpleSet *)
  newDepIds : gset nat;
  getter : prog;
  value : jsval
}.

(** What [Array.isArray], [isPlainObject] and [instanceof VNode] tell
    apart. *)
Inductive oclass : Type := CArray | CPlain | CVNode | COther.

#[global] Instance oclass_eq_dec : EqDecision oclass.
Proof. solve_decision. Defined.

(** An own property: a data property or an accessor pair.  All data
    properties are writable. *)
Inductive slot : Type :=
| Data (v : jsval) (enumerable configurable : bool)
| Accessor (get : option prog) (set : option (jsval -> prog))
    (enumerable configurable : bool).

(** An object.  [o_ob] is the own, non-enumerable property [__ob__] when it
    holds an Observer, [o_isVue] the own property [_isVue]; [o_items] are the
    elements of an array.  The other own properties are the slots.  A plain
    object inherits from [Object.prototype], an array from [Array.prototype]
    and a Vue instance from [Vue.prototype]. *)
Record Obj : Type := mkObj {
  o_class : oclass;
  o_extensible : bool;
  o_isVue : bool;
  o_ob : option nat;
  o_props : list (key * slot);
  o_items : list jsval
}.

(** [class Observer]. *)
Record Observer : Type := mkObserver {
  ob_value : nat;
  ob_dep : nat;
  vmCount : nat
}.

(** The variables closed over by the accessor pair that one call of
    [defineReactive] installs. *)
Record Closure : Type := mkClosure {
  c_obj : nat;
  c_key : key;
  c_dep : nat;
  c_val : jsval;
  c_childOb : option nat;
  c_getter : option prog;
  c_setter : option (jsval -> prog);
  c_customSetter : option prog;
  c_shallow : bool
}.

(** The fields of a component instance that the Watcher reads and writes. *)
Record Vm : Type := mkVm {
  _watcher : option nat;
  _watchers : list nat;
  _isBeingDestroyed : bool
}.

(** The scheduler's module state. *)
Record Scheduler : Type := mkScheduler {
  queue : list nat;
  has : gset nat;
  waiting : bool;
  flushing : bool;
  index : nat
}.

(** Ghost log of calls, written by the model and never read by it. *)
Inductive event : Type :=
| EGet (w : nat)                       (* Watcher.get entered *)
| EDepend (d : nat) (t : option nat)   (* Dep.depend entered, with Dep.target *)
| ENotify (d : nat)                    (* Dep.notify entered *)
| EUpdate (w : nat).                   (* Watcher.update entered *)

#[global] Instance event_eq_dec : EqDecision event.
Proof. solve_decision. Defined.

(** The build and configuration the library runs under. *)
Record env : Type := mkEnv {
  production : bool;        (* process.env.NODE_ENV === 'production' *)
  async : bool;             (* config.async *)
  serverRendering : bool    (* isServerRendering() *)
}.

(** ** The state *)

Record state : Type := mkState {
  Dep_uid : nat;                          (* dep.js: let uid = 0 *)
  Dep_heap : gmap nat Dep;
  Dep_target : option nat;                (* static target: ?Watcher *)
  targetStack : list (option nat);        (* top of the stack last *)
  Watcher_uid : nat;                      (* watcher.js: let uid = 0 *)
  Watcher_heap : gmap nat Watcher;
  shouldObserve : bool;
  next_ref : nat;                         (* next fresh object reference *)
  Obj_heap : gmap nat Obj;
  Observer_heap : gmap nat Observer;
  Closure_heap : gmap nat Closure;
  Vm_heap : gmap nat Vm;
  sched : Scheduler;
  warnings : list string;
  errors : list (jsval * string);
  trace : list event
}.

Definition upd_Dep_uid (f : nat -> nat) (s : state) : state :=
  mkState (f (Dep_uid s)) (Dep_heap s) (Dep_target s) (targetStack s) (Watcher_uid s) (Watcher_heap s) (shouldObserve s) (next_ref s) (Obj_heap s) (Observer_heap s) (Closure_heap s) (Vm_heap s) (sched s) (warnings s) (errors s) (trace s).

Definition upd_Dep_heap (f : gmap nat Dep -> gmap nat Dep) (s : state) : state :=
  mkState (Dep_uid s) (f (Dep_heap s)) (Dep_target s) (targetStack s) (Watcher_uid s) (Watcher_heap s) (shouldObserve s) (next_ref s) (Obj_heap s) (Observer_heap s) (Closure_heap s) (Vm_heap s) (sched s) (warnings s) (errors s) (trace s).

Definition upd_Dep_target (f : option nat -> option nat) (s : state) : state :=
  mkState (Dep_uid s) (Dep_heap s) (f (Dep_target s)) (targetStack s) (Watcher_uid s) (Watcher_heap s) (shouldObserve s) (next_ref s) (Obj_heap s) (Observer_heap s) (Closure_heap s) (Vm_heap s) (sched s) (warnings s) (errors s) (trace s).

Definition upd_targetStack (f : list (option nat) -> list (option nat)) (s : state) : state :=
  mkState (Dep_uid s) (Dep_heap s) (Dep_target s) (f (targetStack s)) (Watcher_uid s) (Watcher_heap s) (shouldObserve s) (next_ref s) (Obj_heap s) (Observer_heap s) (Closure_heap s) (Vm_heap s) (sched s) (warnings s) (errors s) (trace s).

Definition upd_Watcher_uid (f : nat -> nat) (s : state) : state :=
  mkState (Dep_uid s) (Dep_heap s) (Dep_target s) (targetStack s) (f (Watcher_uid s)) (Watcher_heap s) (shouldObserve s) (next_ref s) (Obj_heap s) (Observer_heap s) (Closure_heap s) (Vm_heap s) (sched s) (warnings s) (errors s) (trace s).

Definition upd_Watcher_heap (f : gmap nat Watcher -> gmap nat Watcher) (s : state) : state :=
  mkState (Dep_uid s) (Dep_heap s) (Dep_target s) (targetStack s) (Watcher_uid s) (f (Watcher_heap s)) (shouldObserve s) (next_ref s) (Obj_heap s) (Observer_heap s) (Closure_heap s) (Vm_heap s) (sched s) (warnings s) (errors s) (trace s).

Definition upd_shouldObserve (f : bool -> bool) (s : state) : state :=
  mkState (Dep_uid s) (Dep_heap s) (Dep_target s) (targetStack s) (Watcher_uid s) (Watcher_heap s) (f (shouldObserve s)) (next_ref s) (Obj_heap s) (Observer_heap s) (Closure_heap s) (Vm_heap s) (sched s) (warnings s) (errors s) (trace s).

Definition upd_next_ref (f : nat -> nat) (s : state) : state :=
  mkState (Dep_uid s) (Dep_heap s) (Dep_target s) (targetStack s) (Watcher_uid s) (Watcher_heap s) (shouldObserve s) (f (next_ref s)) (Obj_heap s) (Observer_heap s) (Closure_heap s) (Vm_heap s) (sched s) (warnings s) (errors s) (trace s).

Definition upd_Obj_heap (f : gmap nat Obj -> gmap nat Obj) (s : state) : state :=
  mkState (Dep_uid s) (Dep_heap s) (Dep_target s) (targetStack s) (Watcher_uid s) (Watcher_heap s) (shouldObserve s) (next_ref s) (f (Obj_heap s)) (Observer_heap s) (Closure_heap s) (Vm_heap s) (sched s) (warnings s) (errors s) (trace s).

Definition upd_Observer_heap (f : gmap nat Observer -> gmap nat Observer) (s : state) : state :=
  mkState (Dep_uid s) (Dep_heap s) (Dep_target s) (targetStack s) (Watcher_uid s) (Watcher_heap s) (shouldObserve s) (next_ref s) (Obj_heap s) (f (Observer_heap s)) (Closure_heap s) (Vm_heap s) (sched s) (warnings s) (errors s) (trace s).

Definition upd_Closure_heap (f : gmap nat Closure -> gmap nat Closure) (s : state) : state :=
  mkState (Dep_uid s) (Dep_heap s) (Dep_target s) (targetStack s) (Watcher_uid s) (Watcher_heap s) (shouldObserve s) (next_ref s) (Obj_heap s) (Observer_heap s) (f (Closure_heap s)) (Vm_heap s) (sched s) (warnings s) (errors s) (trace s).

Definition upd_Vm_heap (f : gmap nat Vm -> gmap nat Vm) (s : state) : state :=
  mkState (Dep_uid s) (Dep_heap s) (Dep_target s) (targetStack s) (Watcher_uid s) (Watcher_heap s) (shouldObserve s) (next_ref s) (Obj_heap s) (Observer_heap s) (Closure_heap s) (f (Vm_heap s)) (sched s) (warnings s) (errors s) (trace s).

Definition upd_sched (f : Scheduler -> Scheduler) (s : state) : state :=
  mkState (Dep_uid s) (Dep_heap s) (Dep_target s) (targetStack s) (Watcher_uid s) (Watcher_heap s) (shouldObserve s) (next_ref s) (Obj_heap s) (Observer_heap s) (Closure_heap s) (Vm_heap s) (f (sched s)) (warnings s) (errors s) (trace s).

Definition upd_warnings (f : list string -> list string) (s : state) : state :=
  mkState (Dep_uid s) (Dep_heap s) (Dep_target s) (targetStack s) (Watcher_uid s) (Watcher_heap s) (shouldObserve s) (next_ref s) (Obj_heap s) (Observer_heap s) (Closure_heap s) (Vm_heap s) (sched s) (f (warnings s)) (errors s) (trace s).

Definition upd_errors (f : list (jsval * string) -> list (jsval * string)) (s : state) : state :=
  mkState (Dep_uid s) (Dep_heap s) (Dep_target s) (targetStack s) (Watcher_uid s) (Watcher_heap s) (shouldObserve s) (next_ref s) (Obj_heap s) (Observer_heap s) (Closure_heap s) (Vm_heap s) (sched s) (warnings s) (f (errors s)) (trace s).

Definition upd_trace (f : list event -> list event) (s : state) : state :=
  mkState (Dep_uid s) (Dep_heap s) (Dep_target s) (targetStack s) (Watcher_uid s) (Watcher_heap s) (shouldObserve s) (next_ref s) (Obj_heap s) (Observer_heap s) (Closure_heap s) (Vm_heap s) (sched s) (warnings s) (errors s) (f (trace s)).


(** Lookups in the heaps, by reference. *)
Definition the_Dep (s : state) (d : nat) : Dep :=
  default (mkDep []) (Dep_heap s !! d).

(** ** The monad of library code

    A computation runs in a state and either exceeds the call-depth bound
    ([None]) or ends, normally or by a thrown exception, in a new state. *)
Inductive res (A : Type) : Type :=
| Val (a : A)
| Exn (e : jsval).
Arguments Val {A} a.
Arguments Exn {A} e.

Definition M (A : Type) : Type := state -> option (res A * state).

Definition ret {A} (a : A) : M A := fun s => Some (Val a, s).

Definition throw {A} (e : jsval) : M A := fun s => Some (Exn e, s).

Definition bind {A B} (m : M A) (f : A -> M B) : M B :=
  fun s =>
    match m s with
    | None => None
    | Some (Val a, s') => f a s'
    | Some (Exn e, s') => Some (Exn e, s')
    end.

(** Run [m] and hand over how it ended: the common part of [try/catch] and
    [try/finally]. *)
Definition attempt {A} (m : M A) : M (res A) :=
  fun s =>
    match m s with
    | None => None
    | Some (r, s') => Some (Val r, s')
    end.

Definition modify (f : state -> state) : M unit := fun s => Some (Val tt, f s).

Definition gets {A} (f : state -> A) : M A := fun s => Some (Val (f s), s).

Notation "x <~ m ;; k" := (bind m (fun x => k))
  (at level 100, m at next level, right associativity).
Notation "m ;;; k" := (bind m (fun _ => k))
  (at level 100, right associativity).

(** [try { m } catch (e) { h e }] *)
Definition catch {A} (m : M A) (h : jsval -> M A) : M A :=
  r <~ attempt m ;;
  match r with
  | Val a => ret a
  | Exn e => h e
  end.

(** Resume the completion [r] of a [try] block after its [finally] block. *)
Definition resume {A} (r : res A) : M A :=
  match r with
  | Val a => ret a
  | Exn e => throw e
  end.

(** [for (...) body(x)] over the elements of an array. *)
Fixpoint for_each {A} (body : A -> M unit) (l : list A) : M unit :=
  match l with
  | [] => ret tt
  | x :: l' => body x ;;; for_each body l'
  end.

Definition when (b : bool) (m : M unit) : M unit := if b then m else ret tt.

Definition log (e : event) : state -> state := upd_trace (fun t => t ++ [e]).

(** ** Missing helpers, modelled from the specification *)

(** Modelled from the spec: [remove] of shared/util is not among the
    sources.  Unsubscribing (spec 4.3) removes the item from the array; an
    array holds an item once (spec 3), so it is the first occurrence that
    is spliced out. *)
Fixpoint remove (arr : list nat) (item : nat) : list nat :=
  match arr with
  | [] => []
  | x :: arr' => if decide (x = item) then arr' else x :: remove arr' item
  end.

(** Modelled from the spec: [handleError] of util/error is not among the
    sources.  The error channel accepts [(error, contextLabel)] (spec 6). *)
Definition handleError (e : jsval) (vm_ : nat) (label : string) : state -> state :=
  upd_errors (fun l => l ++ [(e, label)]).

(** Modelled from the spec: [warn] of util/debug is not among the sources.
    A usage warning is reported and is not fatal (spec 7). *)
Definition warn (msg : string) : state -> state :=
  upd_warnings (fun l => l ++ [msg]).

(** Modelled from the spec: [queueWatcher] of observer/scheduler is not among
    the sources.  Spec 4.4: no-op if the id is already pending; if no flush
    is in progress, append and schedule one flush; if a flush is in progress
    and the id is ahead of the cursor, insert at the sorted position in the
    unflushed segment; if the cursor has passed the id, append. *)
Fixpoint insert_sorted (w : nat) (l : list nat) : list nat :=
  match l with
  | [] => [w]
  | x :: l' => if decide (w < x) then w :: x :: l' else x :: insert_sorted w l'
  end.

Definition queueWatcher (w : nat) (s : state) : state :=
  let q := sched s in
  if decide (w ∈ has q) then s
  else
    let queue' :=
      if flushing q then
        match queue q !! index q with
        | Some cur =>
            if decide (cur < w)
            then take (S (index q)) (queue q)
                 ++ insert_sorted w (drop (S (index q)) (queue q))
            else queue q ++ [w]
        | None => queue q ++ [w]
        end
      else queue q ++ [w] in
    upd_sched (fun _ => mkScheduler queue' ({[w]} ∪ has q) true (flushing q) (index q)) s.

(** Modelled from the spec: [traverse] of observer/traverse is not among
    the sources.  Spec 4.3 gives it one effect: it forces dependency
    registration on what the produced value contains.  Which Deps a value
    reaches is left open: it is the parameter [traverse] of the sections
    below, and [Watcher_get] registers on each of them. *)
Definition traverse_t : Type := state -> jsval -> list nat.

(** ** dep.js *)

(** [addSub (sub) { this.subs.push(sub) }] *)
Definition Dep_addSub (d sub : nat) : state -> state :=
  upd_Dep_heap (alter (fun D => mkDep (subs D ++ [sub])) d).

(** [removeSub (sub) { remove(this.subs, sub) }] *)
Definition Dep_removeSub (d sub : nat) : state -> state :=
  upd_Dep_heap (alter (fun D => mkDep (remove (subs D) sub)) d).

(** [new Dep()]: [this.id = uid++; this.subs = []]. *)
Definition new_Dep (s : state) : nat * state :=
  let id := Dep_uid s in
  (id, upd_Dep_uid S (upd_Dep_heap (insert id (mkDep [])) s)).

Definition alloc_Dep : M nat :=
  fun s => Some (Val (new_Dep s).1, (new_Dep s).2).

(** [pushTarget (target: ?Watcher)] *)
Definition pushTarget (target : option nat) (s : state) : state :=
  upd_Dep_target (fun _ => target) (upd_targetStack (fun st => st ++ [target]) s).

(** [popTarget ()]: [targetStack.pop(); Dep.target =
    targetStack[targetStack.length - 1]].  Reading past the ends of an array
    gives [undefined], which the type [?Watcher] of [Dep.target] does not
    tell from [null]: both are [None]. *)
Definition popTarget (s : state) : state :=
  let s' := upd_targetStack (fun st => removelast st) s in
  upd_Dep_target (fun _ => List.last (targetStack s') None) s'.

(** ** watcher.js, the part that runs no script *)

Definition W_set_collect (W : Watcher) (deps_ newDeps_ : list nat)
    (depIds_ newDepIds_ : gset nat) : Watcher :=
  mkWatcher (vm W) (expression W) (cb W) (deep W) (user W) (lazy W) (sync W)
    (dirty W) (active W) deps_ newDeps_ depIds_ newDepIds_ (getter W) (value W).

Definition W_set_dirty (b : bool) (W : Watcher) : Watcher :=
  mkWatcher (vm W) (expression W) (cb W) (deep W) (user W) (lazy W) (sync W)
    b (active W) (deps W) (newDeps W) (depIds W) (newDepIds W) (getter W) (value W).

Definition W_set_active (b : bool) (W : Watcher) : Watcher :=
  mkWatcher (vm W) (expression W) (cb W) (deep W) (user W) (lazy W) (sync W)
    (dirty W) b (deps W) (newDeps W) (depIds W) (newDepIds W) (getter W) (value W).

Definition W_set_value (v : jsval) (W : Watcher) : Watcher :=
  mkWatcher (vm W) (expression W) (cb W) (deep W) (user W) (lazy W) (sync W)
    (dirty W) (active W) (deps W) (newDeps W) (depIds W) (newDepIds W) (getter W) v.

(** [addDep (dep)] *)
Definition Watcher_addDep (w d : nat) (s : state) : state :=
  match Watcher_heap s !! w with
  | None => s
  | Some W =>
      if decide (d ∈ newDepIds W) then s
      else
        let W' := W_set_collect W (deps W) (newDeps W ++ [d])
                    (depIds W) ({[d]} ∪ newDepIds W) in
        let s' := upd_Watcher_heap (insert w W') s in
        if decide (d ∈ depIds W) then s' else Dep_addSub d w s'
  end.

(** [Dep.depend ()] *)
Definition Dep_depend (d : nat) (s : state) : state :=
  let s' := log (EDepend d (Dep_target s)) s in
  match Dep_target s' with
  | Some w => Watcher_addDep w d s'
  | None => s'
  end.

(** [cleanupDeps ()]: the loop runs down from the last index. *)
Definition cleanupDeps (w : nat) (s : state) : state :=
  match Watcher_heap s !! w with
  | None => s
  | Some W =>
      let s' :=
        foldl (fun s0 d => if decide (d ∈ newDepIds W) then s0
                           else Dep_removeSub d w s0)
              s (reverse (deps W)) in
      upd_Watcher_heap
        (insert w (W_set_collect W (newDeps W) [] (newDepIds W) ∅)) s'
  end.

(** [teardown ()] *)
Definition teardown (w : nat) (s : state) : state :=
  match Watcher_heap s !! w with
  | None => s
  | Some W =>
      if active W then
        let s1 :=
          match Vm_heap s !! vm W with
          | Some V =>
              if _isBeingDestroyed V then s
              else upd_Vm_heap
                     (insert (vm W)
                        (mkVm (_watcher V) (remove (_watchers V) w)
                           (_isBeingDestroyed V))) s
          | None => s
          end in
        let s2 := foldl (fun s0 d => Dep_removeSub d w s0) s1 (reverse (deps W)) in
        upd_Watcher_heap (alter (W_set_active false) w) s2
      else s
  end.

(** The state after the constructor of Watcher has run down to
    [this.id = ++uid] and filled in the fields of [this]. *)
Definition constructed (id vm_ : nat) (W : Watcher) (isRenderWatcher : bool)
    (s : state) : state :=
  upd_Watcher_uid (fun _ => id)
    (upd_Watcher_heap (insert id W)
       (upd_Vm_heap
          (alter (fun V =>
                    mkVm (if isRenderWatcher then Some id else _watcher V)
                      (_watchers V ++ [id]) (_isBeingDestroyed V)) vm_) s)).

Definition construct (vm_ : nat) (W : Watcher) (isRenderWatcher : bool) : M nat :=
  fun s =>
    let id := S (Watcher_uid s) in
    Some (Val id, constructed id vm_ W isRenderWatcher s).

(** ** Objects *)

Fixpoint get_slot (ps : list (key * slot)) (name : key) : option slot :=
  match ps with
  | [] => None
  | (k, sl) :: ps' => if decide (k = name) then Some sl else get_slot ps' name
  end.

(** Redefine the property in place, or add it after the others. *)
Fixpoint put_slot (ps : list (key * slot)) (name : key) (sl : slot)
    : list (key * slot) :=
  match ps with
  | [] => [(name, sl)]
  | (k, sl0) :: ps' =>
      if decide (k = name) then (k, sl) :: ps'
      else (k, sl0) :: put_slot ps' name sl
  end.

Definition slot_enumerable (sl : slot) : bool :=
  match sl with Data _ e _ => e | Accessor _ _ e _ => e end.

Definition slot_configurable (sl : slot) : bool :=
  match sl with Data _ _ c => c | Accessor _ _ _ c => c end.

Definition slot_get (sl : slot) : option prog :=
  match sl with Data _ _ _ => None | Accessor g _ _ _ => g end.

Definition slot_set (sl : slot) : option (jsval -> prog) :=
  match sl with Data _ _ _ => None | Accessor _ st _ _ => st end.

(** [Object.keys(obj)] *)
Definition Object_keys (obj : Obj) : list key :=
  (filter (fun ks => slot_enumerable ks.2 = true) (o_props obj)).*1.

Definition isArray (obj : Obj) : bool := bool_decide (o_class obj = CArray).

(** The names every object inherits from [Object.prototype]. *)
Definition Object_prototype_keys : list string :=
  ["constructor"; "hasOwnProperty"; "isPrototypeOf"; "propertyIsEnumerable";
   "toLocaleString"; "toString"; "valueOf"; "__proto__";
   "__defineGetter__"; "__defineSetter__"; "__lookupGetter__";
   "__lookupSetter__"].

Definition in_Object_prototype (name : key) : bool :=
  match name with
  | KStr n => bool_decide (n ∈ Object_prototype_keys)
  | KIdx _ => false
  end.

(** The names of [Array.prototype], and [length]. *)
Definition Array_prototype_keys : list string :=
  ["length"; "at"; "concat"; "copyWithin"; "entries"; "every"; "fill";
   "filter"; "find"; "findIndex"; "findLast"; "findLastIndex"; "flat";
   "flatMap"; "forEach"; "includes"; "indexOf"; "join"; "keys";
   "lastIndexOf"; "map"; "pop"; "push"; "reduce"; "reduceRight"; "reverse";
   "shift"; "slice"; "some"; "sort"; "splice"; "toReversed"; "toSorted";
   "toSpliced"; "unshift"; "values"; "with"].

(** What [stateMixin] and [initMixin] put on [Vue.prototype]; the other
    mixins are not among the sources. *)
Definition Vue_prototype_keys : list string :=
  ["$data"; "$props"; "$set"; "$delete"; "$watch"; "_init"].

(** [name in obj], as far as the record decides it: the own properties (the
    slots, the elements and the [length] of an array, [__ob__] on an object
    that has an Observer, [_isVue] on a Vue instance), the names of
    [Object.prototype], those of [Array.prototype] on an array and those of
    [Vue.prototype] on a Vue instance. *)
Definition has_key (obj : Obj) (name : key) : bool :=
  bool_decide (is_Some (get_slot (o_props obj) name))
  || match name with
     | KIdx n => isArray obj && bool_decide (n < length (o_items obj))
     | KStr n =>
         isArray obj && bool_decide (n ∈ Array_prototype_keys)
         || bool_decide (n = "__ob__") && bool_decide (is_Some (o_ob obj))
         || bool_decide (n = "_isVue") && o_isVue obj
         || o_isVue obj && bool_decide (n ∈ Vue_prototype_keys)
     end
  || in_Object_prototype name.

(** The first character is [$] or [_]: the names that Vue keeps for what it
    puts on instances and on observed objects ([__ob__], [_isVue], [_data],
    [$set], ...); [initData] and [initMethods] apply this test as
    [isReserved]. *)
Definition reserved_prefix (n : string) : bool :=
  String.prefix "$" n || String.prefix "_" n.

(** The keys whose reads and writes the heap follows as the program does:
    array indices, and the names that are neither kept by Vue nor inherited
    from [Object.prototype] or [Array.prototype].  The other names reach
    properties that the record holds in fields of its own ([__ob__],
    [_isVue], the [length] of an array), accessors and methods of the
    prototypes ([__proto__], [push]), or what a Vue instance has from
    [_init] and inherits ([$options], [$set]); [read_prop] and [assign]
    below do not follow those. *)
Definition ordinary_key (name : key) : bool :=
  match name with
  | KIdx _ => true
  | KStr n =>
      negb (reserved_prefix n)
      && negb (bool_decide (n ∈ Object_prototype_keys))
      && negb (bool_decide (n ∈ Array_prototype_keys))
  end.

Definition O_set_ob (ob : option nat) (obj : Obj) : Obj :=
  mkObj (o_class obj) (o_extensible obj) (o_isVue obj) ob (o_props obj) (o_items obj).

Definition O_set_props (ps : list (key * slot)) (obj : Obj) : Obj :=
  mkObj (o_class obj) (o_extensible obj) (o_isVue obj) (o_ob obj) ps (o_items obj).

Definition O_set_items (l : list jsval) (obj : Obj) : Obj :=
  mkObj (o_class obj) (o_extensible obj) (o_isVue obj) (o_ob obj) (o_props obj) l.

(** [arr.length = n] for [n] at least the length, then [arr[i] = v] for
    [i] at most the length: the array writes of [set]. *)
Definition items_extend (l : list jsval) (n : nat) : list jsval :=
  l ++ replicate (n - length l) VUndef.

Definition items_put (l : list jsval) (i : nat) (v : jsval) : list jsval :=
  take i l ++ v :: drop (S i) l.

Definition C_set_val (v : jsval) (C : Closure) : Closure :=
  mkClosure (c_obj C) (c_key C) (c_dep C) v (c_childOb C) (c_getter C)
    (c_setter C) (c_customSetter C) (c_shallow C).

Definition C_set_childOb (ob : option nat) (C : Closure) : Closure :=
  mkClosure (c_obj C) (c_key C) (c_dep C) (c_val C) ob (c_getter C)
    (c_setter C) (c_customSetter C) (c_shallow C).

Definition TypeError : jsval := VStr "TypeError".

(** The one-character string holding a double quote. *)
Definition dquote : string := String (Ascii.ascii_of_nat 34) EmptyString.

(** The array a Dep's [notify] walks: [this.subs.slice()], sorted by id
    under the guard [process.env.NODE_ENV !== 'production' && !config.async]. *)
Definition notify_subs (E : env) (s : state) (d : nat) : list nat :=
  let subs0 := subs (the_Dep s d) in
  if negb (production E) && negb (async E)
  then merge_sort Nat.le subs0
  else subs0.

(** ** Library code that runs scripts

    The functions below call scripts stored in the state, and [observe] and
    [dependArray] recurse through the object graph; these calls go through
    [rec], which the interpreter ties with one unit less of call depth. *)
Record knot : Type := mkKnot {
  k_exec : prog -> M jsval;
  k_observe : jsval -> bool -> M (option nat);
  k_dependArray : nat -> M unit
}.

Section Body.
Variable E : env.
Variable traverse : traverse_t.
Variable rec : knot.

(** [fn.call(...)] for a function held in the state. *)
Definition call (p : prog) : M jsval := k_exec rec p.

(** *** watcher.js *)

(** The labels [`getter for watcher "${this.expression}"`] and
    [`callback for watcher "${this.expression}"`]. *)
Definition getter_label (W : Watcher) : string :=
  "getter for watcher " +:+ dquote +:+ expression W +:+ dquote.

Definition callback_label (W : Watcher) : string :=
  "callback for watcher " +:+ dquote +:+ expression W +:+ dquote.

(** [get ()] *)
Definition Watcher_get (w : nat) : M jsval :=
  W0 <~ gets (fun s => Watcher_heap s !! w) ;;
  match W0 with
  | None => ret VUndef
  | Some W =>
      modify (log (EGet w)) ;;;
      modify (pushTarget (Some w)) ;;;
      r <~ attempt
             (catch (call (getter W))
                (fun e =>
                   if user W
                   then modify (handleError e (vm W) (getter_label W)) ;;;
                        ret VUndef
                   else throw e)) ;;
      let value := match r with Val v => v | Exn _ => VUndef end in
      (* finally *)
      when (deep W)
        (ds <~ gets (fun s => traverse s value) ;;
         for_each (fun d => modify (Dep_depend d)) ds) ;;;
      modify popTarget ;;;
      modify (cleanupDeps w) ;;;
      resume r
  end.

(** [run ()] *)
Definition Watcher_run (w : nat) : M unit :=
  W0 <~ gets (fun s => Watcher_heap s !! w) ;;
  match W0 with
  | None => ret tt
  | Some W =>
      if active W then
        v <~ Watcher_get w ;;
        old <~ gets (fun s => default VUndef (value <$> Watcher_heap s !! w)) ;;
        if negb (strict_eq v old) || isObject v || deep W then
          modify (upd_Watcher_heap (alter (W_set_value v) w)) ;;;
          if user W then
            catch (call (cb W v old) ;;; ret tt)
              (fun e => modify (handleError e (vm W) (callback_label W)))
          else
            call (cb W v old) ;;; ret tt
        else ret tt
      else ret tt
  end.

(** [update ()] *)
Definition Watcher_update (w : nat) : M unit :=
  modify (log (EUpdate w)) ;;;
  W0 <~ gets (fun s => Watcher_heap s !! w) ;;
  match W0 with
  | None => ret tt
  | Some W =>
      if lazy W then modify (upd_Watcher_heap (alter (W_set_dirty true) w))
      else if sync W then Watcher_run w
      else modify (queueWatcher w)
  end.

(** [Dep.notify ()] *)
Definition Dep_notify (d : nat) : M unit :=
  modify (log (ENotify d)) ;;;
  subs0 <~ gets (fun s => notify_subs E s d) ;;
  for_each Watcher_update subs0.

(** [evaluate ()] *)
Definition Watcher_evaluate (w : nat) : M unit :=
  v <~ Watcher_get w ;;
  modify (upd_Watcher_heap
            (alter (fun W => W_set_dirty false (W_set_value v W)) w)).

(** [Watcher.depend ()] *)
Definition Watcher_depend (w : nat) : M unit :=
  ds <~ gets (fun s => default [] (deps <$> Watcher_heap s !! w)) ;;
  for_each (fun d => modify (Dep_depend d)) (reverse ds).

(** [computedGetter ()] of instance/state.js, for the watcher [w] of the
    computed property. *)
Definition computedGetter (w : nat) : M jsval :=
  W0 <~ gets (fun s => Watcher_heap s !! w) ;;
  match W0 with
  | None => ret VUndef
  | Some W =>
      when (dirty W) (Watcher_evaluate w) ;;;
      t <~ gets Dep_target ;;
      when (bool_decide (is_Some t)) (Watcher_depend w) ;;;
      gets (fun s => default VUndef (value <$> Watcher_heap s !! w))
  end.

(** [new Watcher (vm, expOrFn, cb, options, isRenderWatcher)].  The caller
    passes the getter that [expOrFn] stands for ([parsePath] is not among
    the sources) and [src], the text of [expOrFn.toString()]. *)
Definition new_Watcher (vm_ : nat) (src : string) (getter_ : prog)
    (cb_ : jsval -> jsval -> prog) (options : option WatcherOptions)
    (isRenderWatcher : bool) : M nat :=
  let o := default (mkOptions false false false false) options in
  id <~ construct vm_
          (mkWatcher vm_ (if production E then EmptyString else src) cb_
             (opt_deep o) (opt_user o) (opt_lazy o) (opt_sync o)
             (opt_lazy o) true [] [] ∅ ∅ getter_ VUndef)
          isRenderWatcher ;;
  (if opt_lazy o then ret tt
   else
     v <~ Watcher_get id ;;
     modify (upd_Watcher_heap (alter (W_set_value v) id))) ;;;
  ret id.

(** *** Property reads and writes *)

(** [o[name]], for the properties that the record holds as slots or as
    elements of an array.  What it holds in fields of their own ([__ob__],
    [_isVue], the [length] of an array) and what the prototypes define is
    not read here: this is the read of an ordinary key ([ordinary_key]). *)
Definition read_prop (o : nat) (name : key) : M jsval :=
  O0 <~ gets (fun s => Obj_heap s !! o) ;;
  match O0 with
  | None => ret VUndef
  | Some obj =>
      match get_slot (o_props obj) name with
      | Some (Data v _ _) => ret v
      | Some (Accessor (Some g) _ _ _) => call g
      | Some (Accessor None _ _ _) => ret VUndef
      | None =>
          match name with
          | KIdx n =>
              if isArray obj then ret (default VUndef (o_items obj !! n))
              else ret VUndef
          | KStr _ => ret VUndef
          end
      end
  end.

(** [o[name] = v], in strict mode: writing an accessor without setter, or
    a new property of a non-extensible object, throws.  As for [read_prop],
    this is the assignment to an ordinary key: it does not reach [__ob__],
    [_isVue], the [length] of an array or the setter of [__proto__]. *)
Definition assign (o : nat) (name : key) (v : jsval) : M unit :=
  O0 <~ gets (fun s => Obj_heap s !! o) ;;
  match O0 with
  | None => ret tt
  | Some obj =>
      match get_slot (o_props obj) name with
      | Some (Data _ e c) =>
          modify (upd_Obj_heap
                    (alter (fun obj' => O_set_props
                              (put_slot (o_props obj') name (Data v e c)) obj') o))
      | Some (Accessor _ (Some st) _ _) => call (st v) ;;; ret tt
      | Some (Accessor _ None _ _) => throw TypeError
      | None =>
          match name with
          | KIdx n =>
              if isArray obj then
                modify (upd_Obj_heap
                          (alter (fun obj' => O_set_items
                                    (items_put (items_extend (o_items obj') n) n v)
                                    obj') o))
              else if o_extensible obj then
                modify (upd_Obj_heap
                          (alter (fun obj' => O_set_props
                                    (put_slot (o_props obj') name (Data v true true))
                                    obj') o))
              else throw TypeError
          | KStr _ =>
              if o_extensible obj then
                modify (upd_Obj_heap
                          (alter (fun obj' => O_set_props
                                    (put_slot (o_props obj') name (Data v true true))
                                    obj') o))
              else throw TypeError
          end
      end
  end.

(** *** observer/index.js *)

(** [e && e.__ob__ && e.__ob__.dep.depend()] *)
Definition depend_on_ob (v : jsval) : M unit :=
  match v with
  | VObj r =>
      ob <~ gets (fun s => Obj_heap s !! r ≫= o_ob) ;;
      match ob with
      | Some b =>
          OB <~ gets (fun s => Observer_heap s !! b) ;;
          match OB with
          | Some B => modify (Dep_depend (ob_dep B))
          | None => ret tt
          end
      | None => ret tt
      end
  | _ => ret tt
  end.

Definition is_array_val (s : state) (v : jsval) : bool :=
  match v with
  | VObj r => default false (isArray <$> Obj_heap s !! r)
  | _ => false
  end.

(** [dependArray (value)] *)
Definition dependArray (r : nat) : M unit :=
  items <~ gets (fun s => default [] (o_items <$> Obj_heap s !! r)) ;;
  for_each
    (fun e =>
       depend_on_ob e ;;;
       a <~ gets (fun s => is_array_val s e) ;;
       match e with
       | VObj r' => when a (k_dependArray rec r')
       | _ => ret tt
       end)
    items.

(** [getter ? getter.call(obj) : val], the first line of both accessors *)
Definition current_value (C : Closure) : M jsval :=
  match c_getter C with
  | Some g => call g
  | None => ret (c_val C)
  end.

(** [if (process.env.NODE_ENV !== 'production' && customSetter)
    customSetter()] *)
Definition run_customSetter (C : Closure) : M unit :=
  match c_customSetter C with
  | Some cs => if production E then ret tt else call cs ;;; ret tt
  | None => ret tt
  end.

(** [reactiveGetter ()], for the closure [p] *)
Definition reactiveGetter (p : nat) : M jsval :=
  C0 <~ gets (fun s => Closure_heap s !! p) ;;
  match C0 with
  | None => ret VUndef
  | Some C =>
      value <~ current_value C ;;
      t <~ gets Dep_target ;;
      when (bool_decide (is_Some t))
        (modify (Dep_depend (c_dep C)) ;;;
         childOb <~ gets (fun s => Closure_heap s !! p ≫= c_childOb) ;;
         match childOb with
         | Some b =>
             OB <~ gets (fun s => Observer_heap s !! b) ;;
             match OB with
             | Some B => modify (Dep_depend (ob_dep B))
             | None => ret tt
             end ;;;
             a <~ gets (fun s => is_array_val s value) ;;
             match value with
             | VObj r => when a (dependArray r)
             | _ => ret tt
             end
         | None => ret tt
         end) ;;;
      ret value
  end.

(** [defineReactive (obj, key, val, customSetter, shallow)]; [val] is
    [None] for a call with two arguments. *)
Definition defineReactive (o : nat) (name : key) (val : option jsval)
    (customSetter : option prog) (shallow : bool) : M unit :=
  d <~ alloc_Dep ;;
  O0 <~ gets (fun s => Obj_heap s !! o) ;;
  match O0 with
  | None => ret tt
  | Some obj =>
      let property := get_slot (o_props obj) name in
      if bool_decide (slot_configurable <$> property = Some false) then ret tt
      else
        let getter_ := property ≫= slot_get in
        let setter_ := property ≫= slot_set in
        val' <~ match val with
                | Some v => ret v
                | None =>
                    if negb (bool_decide (is_Some getter_))
                       || bool_decide (is_Some setter_)
                    then read_prop o name
                    else ret VUndef
                end ;;
        childOb <~ (if shallow then ret None else k_observe rec val' false) ;;
        O1 <~ gets (fun s => Obj_heap s !! o) ;;
        if negb (bool_decide (is_Some (O1 ≫= fun obj' => get_slot (o_props obj') name)))
           && negb (default true (o_extensible <$> O1))
        then throw TypeError
        else
          p <~ gets next_ref ;;
          modify (upd_next_ref S) ;;;
          modify (upd_Closure_heap
                    (insert p (mkClosure o name d val' childOb getter_ setter_
                                 customSetter shallow))) ;;;
          modify (upd_Obj_heap
                    (alter (fun obj' => O_set_props
                              (put_slot (o_props obj') name
                                 (Accessor (Some (ReactiveGetter p Ret))
                                    (Some (fun v => ReactiveSetter p v (Ret VUndef)))
                                    true true)) obj') o))
  end.

(** [new Observer (value)]; [protoAugment] and [copyAugment] install the
    intercepted array methods, which the model attaches to every array that
    has an [__ob__]. *)
Definition new_Observer (r : nat) : M nat :=
  d <~ alloc_Dep ;;
  b <~ gets next_ref ;;
  modify (upd_next_ref S) ;;;
  modify (upd_Observer_heap (insert b (mkObserver r d 0))) ;;;
  modify (upd_Obj_heap (alter (O_set_ob (Some b)) r)) ;;;
  O0 <~ gets (fun s => Obj_heap s !! r) ;;
  match O0 with
  | None => ret b
  | Some obj =>
      (if isArray obj
       then for_each (fun item => k_observe rec item false ;;; ret tt) (o_items obj)
       else for_each (fun k => defineReactive r k None None false) (Object_keys obj)) ;;;
      ret b
  end.

(** [observe (value, asRootData)] *)
Definition observe (v : jsval) (asRootData : bool) : M (option nat) :=
  match v with
  | VObj r =>
      O0 <~ gets (fun s => Obj_heap s !! r) ;;
      match O0 with
      | None => ret None
      | Some obj =>
          if bool_decide (o_class obj = CVNode) then ret None
          else
            so <~ gets shouldObserve ;;
            ob <~ match o_ob obj with
                  | Some b => ret (Some b)
                  | None =>
                      if so && negb (serverRendering E)
                         && (isArray obj || bool_decide (o_class obj = CPlain))
                         && o_extensible obj && negb (o_isVue obj)
                      then b <~ new_Observer r ;; ret (Some b)
                      else ret None
                  end ;;
            match ob with
            | Some b =>
                when asRootData
                  (modify (upd_Observer_heap
                             (alter (fun B => mkObserver (ob_value B) (ob_dep B)
                                                (S (vmCount B))) b)))
            | None => ret tt
            end ;;;
            ret ob
      end
  | _ => ret None
  end.

(** [reactiveSetter (newVal)], for the closure [p] *)
Definition reactiveSetter (p : nat) (newVal : jsval) : M unit :=
  C0 <~ gets (fun s => Closure_heap s !! p) ;;
  match C0 with
  | None => ret tt
  | Some C =>
      value <~ current_value C ;;
      if same_value newVal value then ret tt
      else
        run_customSetter C ;;;
        if bool_decide (is_Some (c_getter C))
           && negb (bool_decide (is_Some (c_setter C)))
        then ret tt
        else
          match c_setter C with
          | Some st => call (st newVal) ;;; ret tt
          | None => modify (upd_Closure_heap (alter (C_set_val newVal) p))
          end ;;;
          childOb <~ (if c_shallow C then ret None else observe newVal false) ;;
          modify (upd_Closure_heap (alter (C_set_childOb childOb) p)) ;;;
          Dep_notify (c_dep C)
  end.

(** Modelled from the spec: the intercepted [splice] of observer/array is
    not among the sources.  Spec 4.1: the variant performs the effect,
    wraps any newly introduced element and notifies the structural Dep.
    This is [target.splice(i, 1, v)] on an array at least [i] long. *)
Definition array_splice (r i : nat) (v : jsval) : M unit :=
  modify (upd_Obj_heap
            (alter (fun obj' => O_set_items (items_put (o_items obj') i v) obj') r)) ;;;
  ob <~ gets (fun s => Obj_heap s !! r ≫= o_ob) ;;
  match ob with
  | None => ret tt
  | Some b =>
      OB <~ gets (fun s => Observer_heap s !! b) ;;
      observe v false ;;;
      match OB with
      | Some B => Dep_notify (ob_dep B)
      | None => ret tt
      end
  end.

Definition warn_set_primitive (target : jsval) : string :=
  "Cannot set reactive property on undefined, null, or primitive value: "
  +:+ to_text target.

Definition warn_set_root : string :=
  "Avoid adding reactive properties to a Vue instance or its root $data at runtime - declare it upfront in the data option.".

(** [set (target, key, val)] *)
Definition set (target : jsval) (name : key) (val : jsval) : M jsval :=
  when (negb (production E) && (isUndef target || isPrimitive target))
    (modify (warn (warn_set_primitive target))) ;;;
  match target with
  | VObj r =>
      O0 <~ gets (fun s => Obj_heap s !! r) ;;
      match O0 with
      | None => throw TypeError
      | Some obj =>
          if isArray obj && isValidArrayIndex name then
            match name with
            | KIdx i =>
                modify (upd_Obj_heap
                          (alter (fun obj' => O_set_items
                                    (items_extend (o_items obj') i) obj') r)) ;;;
                array_splice r i val
            | KStr _ => ret tt
            end ;;;
            ret val
          else if has_key obj name && negb (in_Object_prototype name) then
            assign r name val ;;;
            ret val
          else
            ob <~ gets (fun s => o_ob obj ≫= fun b => Observer_heap s !! b) ;;
            if o_isVue obj || bool_decide (0 < default 0 (vmCount <$> ob)) then
              when (negb (production E)) (modify (warn warn_set_root)) ;;;
              ret val
            else
              match ob with
              | None =>
                  assign r name val ;;;
                  ret val
              | Some B =>
                  defineReactive (ob_value B) name (Some val) None false ;;;
                  Dep_notify (ob_dep B) ;;;
                  ret val
              end
      end
  | _ => throw TypeError
  end.

(** *** Running a script *)

Definition of_ob (ob : option nat) : jsval :=
  match ob with Some b => VObj b | None => VUndef end.

Fixpoint exec (p : prog) : M jsval :=
  match p with
  | Ret v => ret v
  | Throw e => throw e
  | Warn msg k => modify (warn msg) ;;; exec k
  | GetProp o name k => v <~ read_prop o name ;; exec (k v)
  | SetProp o name v k => assign o name v ;;; exec k
  | ReactiveGetter p' k => v <~ reactiveGetter p' ;; exec (k v)
  | ReactiveSetter p' v k => reactiveSetter p' v ;;; exec k
  | VueSet target name v k => set target name v ;;; exec k
  | Observe v asRootData k => observe v asRootData ;;; exec k
  | DefineReactive o name v customSetter shallow k =>
      defineReactive o name v customSetter shallow ;;; exec k
  | NewWatcher vm_ src getter_ cb_ options isRenderWatcher k =>
      w <~ new_Watcher vm_ src getter_ cb_ options isRenderWatcher ;;
      exec (k w)
  | ComputedGetter w k => v <~ computedGetter w ;; exec (k v)
  | Run w k => Watcher_run w ;;; exec k
  | Teardown w k => modify (teardown w) ;;; exec k
  | Untracked body k =>
      modify (pushTarget None) ;;;
      r <~ attempt (exec body) ;;
      modify popTarget ;;;
      v <~ resume r ;;
      exec (k v)
  end.

End Body.

(** ** Tying the knot *)

(** With no call depth left every script call is cut off. *)
Definition knot_0 : knot :=
  mkKnot (fun _ _ => None) (fun _ _ _ => None) (fun _ _ => None).

Fixpoint knot_at (E : env) (traverse : traverse_t) (fuel : nat) : knot :=
  match fuel with
  | 0 => knot_0
  | S fuel' =>
      let rec := knot_at E traverse fuel' in
      mkKnot (exec E traverse rec) (observe E rec) (dependArray rec)
  end.

(** The empty state of a freshly loaded library. *)
Definition init : state :=
  mkState 0 ∅ None [] 0 ∅ true 0 ∅ ∅ ∅ ∅ (mkScheduler [] ∅ false false 0) [] [] [].

(** ** Properties of states and of computations *)

(** A relation between the state before and the state after holds of
    whatever a computation does, however it ends. *)
Definition stable {A} (R : state -> state -> Prop) (m : M A) : Prop :=
  forall s r s', m s = Some (r, s') -> R s s'.

Definition knot_stable (R : state -> state -> Prop) (rec : knot) : Prop :=
  (forall p, stable R (k_exec rec p))
  /\ (forall v b, stable R (k_observe rec v b))
  /\ (forall r, stable R (k_dependArray rec r)).

(** Two states with the same dependency graph, evaluation context and call
    log: they differ in objects, components, scheduler and reports only. *)
Definition same_graph (s s' : state) : Prop :=
  Dep_uid s' = Dep_uid s /\ Dep_heap s' = Dep_heap s
  /\ Dep_target s' = Dep_target s /\ targetStack s' = targetStack s
  /\ Watcher_uid s' = Watcher_uid s /\ Watcher_heap s' = Watcher_heap s
  /\ trace s' = trace s.

Definition fresh_Watcher (W : Watcher) : Prop :=
  deps W = [] /\ newDeps W = [] /\ depIds W = ∅ /\ newDepIds W = ∅.

(** What a relation must satisfy to hold of every run of the library: it
    is a preorder that holds of each elementary step.  The two steps on the
    evaluation context come in pairs: an untracked block, and the whole of
    [Watcher.get] around its getter. *)
Record respects (R : state -> state -> Prop) : Prop := mkRespects {
  r_refl : forall s, R s s;
  r_trans : forall s1 s2 s3, R s1 s2 -> R s2 s3 -> R s1 s3;
  r_frame : forall s s', same_graph s s' -> R s s';
  r_untracked : forall s s2, R (pushTarget None s) s2 -> R s (popTarget s2);
  r_get : forall w s s2,
    is_Some (Watcher_heap s !! w) ->
    R (pushTarget (Some w) (log (EGet w) s)) s2 ->
    R s (cleanupDeps w (popTarget s2));
  r_notify : forall d s, R s (log (ENotify d) s);
  r_update : forall w s, R s (log (EUpdate w) s);
  r_depend : forall d s, R s (Dep_depend d s);
  r_teardown : forall w s, R s (teardown w s);
  r_new_Dep : forall s, R s (new_Dep s).2;
  r_value : forall w v s, R s (upd_Watcher_heap (alter (W_set_value v) w) s);
  r_dirty : forall w b s, R s (upd_Watcher_heap (alter (W_set_dirty b) w) s);
  r_new_Watcher : forall vm_ W b s,
    fresh_Watcher W -> R s (constructed (S (Watcher_uid s)) vm_ W b s)
}.

(** The subscription graph is well formed: a Dep lists a subscriber once,
    a subscriber of a Dep is a Watcher that recorded the Dep in one of its two
    id sets, each id set has the ids of its array, and the ids in use are at
    most the counter. *)
Record Inv (s : state) : Prop := mkInv {
  inv_nodup : forall d D, Dep_heap s !! d = Some D -> NoDup (subs D);
  inv_link : forall d D w, Dep_heap s !! d = Some D -> w ∈ subs D ->
    exists W, Watcher_heap s !! w = Some W /\ (d ∈ depIds W \/ d ∈ newDepIds W);
  inv_ids : forall w W, Watcher_heap s !! w = Some W ->
    (forall d, d ∈ deps W <-> d ∈ depIds W)
    /\ (forall d, d ∈ newDeps W <-> d ∈ newDepIds W);
  inv_fresh : forall w, is_Some (Watcher_heap s !! w) -> w <= Watcher_uid s
}.

(** [Dep.target] is the top of [targetStack]. *)
Definition consistent (s : state) : Prop :=
  Dep_target s = List.last (targetStack s) None.

Definition R_inv (s s' : state) : Prop := Inv s -> Inv s'.

Definition R_bal (s s' : state) : Prop :=
  consistent s ->
  targetStack s' = targetStack s /\ Dep_target s' = Dep_target s.

Definition R_trace (s s' : state) : Prop :=
  exists seg, trace s' = trace s ++ seg.

(** The state after the [finally] block of [get] has traversed [v]. *)
Definition traversed (traverse : traverse_t) (W : Watcher) (v : jsval)
    (s : state) : state :=
  if deep W then foldl (fun s0 d => Dep_depend d s0) s (traverse s v) else s.

(** The [try/catch] of [get]. *)
Definition get_try (rec : knot) (W : Watcher) : M jsval :=
  catch (call rec (getter W))
    (fun e =>
       if user W
       then modify (handleError e (vm W) (getter_label W)) ;;; ret VUndef
       else throw e).

Definition completion_value (r : res jsval) : jsval :=
  match r with Val v => v | Exn _ => VUndef end.

(** [n] removals of [w], one after the other. *)
Definition removes (w n : nat) (l : list nat) : list nat :=
  Nat.iter n (fun l0 => remove l0 w) l.

(** One step of the loops of [cleanupDeps] and [teardown]: unsubscribe [w]
    from [d] unless [d] is kept. *)
Definition unsub_step (w : nat) (K : nat -> Prop) `{!forall d, Decision (K d)}
    (s0 : state) (d : nat) : state :=
  if decide (K d) then s0 else Dep_removeSub d w s0.

Definition keeps_collect (f : Watcher -> Watcher) : Prop :=
  forall W, deps (f W) = deps W /\ newDeps (f W) = newDeps W
            /\ depIds (f W) = depIds W /\ newDepIds (f W) = newDepIds W.

(** Everything but the three heaps of Deps, Watchers and components is the
    same. *)
Definition same_ctx (s s' : state) : Prop :=
  targetStack s' = targetStack s /\ Dep_target s' = Dep_target s
  /\ trace s' = trace s /\ Watcher_uid s' = Watcher_uid s
  /\ Dep_uid s' = Dep_uid s /\ errors s' = errors s
  /\ warnings s' = warnings s /\ sched s' = sched s
  /\ Obj_heap s' = Obj_heap s /\ Observer_heap s' = Observer_heap s
  /\ Closure_heap s' = Closure_heap s /\ next_ref s' = next_ref s
  /\ shouldObserve s' = shouldObserve s.

(** Between [s] and [s'] the call log grows by [seg]; unless [w] itself was
    evaluated in between, [w] keeps its [deps] and its [newDepIds] grow by
    exactly the Deps whose [depend] ran with [w] as [Dep.target]. *)
Definition R_collect (w : nat) (s s' : state) : Prop :=
  (Inv s -> Inv s')
  /\ exists seg, trace s' = trace s ++ seg
     /\ (EGet w ∉ seg -> Inv s ->
         forall W, Watcher_heap s !! w = Some W ->
         exists W', Watcher_heap s' !! w = Some W'
           /\ deps W' = deps W /\ depIds W' = depIds W
           /\ (forall d, d ∈ newDepIds W'
                         <-> d ∈ newDepIds W \/ EDepend d (Some w) ∈ seg)).

(** A subscriber whose [update] evaluates nothing: it is lazy or not sync. *)
Definition deferred (s : state) (w : nat) : Prop :=
  forall W, Watcher_heap s !! w = Some W -> lazy W = true \/ sync W = false.

(** ** Examples *)

(** Builds and parameters used in the examples. *)
Definition dev : env := mkEnv false true false.
Definition dev_sync : env := mkEnv false false false.
Definition prod_sync : env := mkEnv true false false.
Definition no_traverse : traverse_t := fun _ _ => [].

Definition plain (ps : list (key * slot)) : Obj :=
  mkObj CPlain true false None ps [].

Definition field (n : string) (v : jsval) : key * slot :=
  (KStr n, Data v true true).

(** A fresh library with the objects [os] at the references [0], [1], ...
    and one component, [0]. *)
Definition with_objects (os : list Obj) : state :=
  upd_Vm_heap (insert 0 (mkVm None [] false))
    (upd_Obj_heap (fun _ => list_to_map (imap (fun i o => (i, o)) os))
       (upd_next_ref (fun _ => length os) init)).

(** The state a script leaves. *)
Definition after (E : env) (fuel : nat) (p : prog) (s : state) : state :=
  match k_exec (knot_at E no_traverse fuel) p s with
  | Some (_, s') => s'
  | None => s
  end.

(** The state an evaluation of [w] leaves. *)
Definition after_get (E : env) (fuel : nat) (w : nat) (s : state) : state :=
  match Watcher_get no_traverse (knot_at E no_traverse fuel) w s with
  | Some (_, s') => s'
  | None => s
  end.

Definition noop_cb : jsval -> jsval -> prog := fun _ _ => Ret VUndef.

(** Conditional rendering: [flag ? a : b], on the data [{flag, a, b}].  The
    Deps are [0] (the object), [1] ([flag]), [2] ([a]) and [3] ([b]); the
    Watcher is [1]. *)
Definition branch_getter : prog :=
  GetProp 0 (KStr "flag")
    (fun f => match f with
              | VBool true => GetProp 0 (KStr "a") Ret
              | _ => GetProp 0 (KStr "b") Ret
              end).

Definition branch_data : Obj :=
  plain [field "flag" (VBool true); field "a" (VStr "A"); field "b" (VStr "B")].

(** The Watcher has run with [flag = true], then [flag] was set to false;
    the Watcher is queued and has not run again. *)
Definition branch_flipped : state :=
  after dev 6
    (Observe (VObj 0) true
       (NewWatcher 0 "branch" branch_getter noop_cb None false
          (fun _ => SetProp 0 (KStr "flag") (VBool false) (Ret VUndef))))
    (with_objects [branch_data]).

Definition branch_rerun : state := after_get dev 6 1 branch_flipped.

(** A sync Watcher whose getter writes the property it has just read.  The
    switch [go] sits on an object that is not observed. *)
Definition self_writer : prog :=
  GetProp 1 (KStr "go")
    (fun g => match g with
              | VBool true =>
                  GetProp 0 (KStr "a")
                    (fun v => SetProp 0 (KStr "a") (VStr "y") (Ret v))
              | _ => Ret VUndef
              end).

Definition switch_objects : list Obj :=
  [plain [field "a" (VStr "x")]; plain [field "go" (VBool false)]].

Definition reentrant_pre : state :=
  after dev 6
    (Observe (VObj 0) false
       (NewWatcher 0 "self_writer" self_writer noop_cb
          (Some (mkOptions false false false true)) false
          (fun _ => SetProp 1 (KStr "go") (VBool true) (Ret VUndef))))
    (with_objects switch_objects).

Definition reentrant_post : state := after_get dev 8 1 reentrant_pre.

(** A user Watcher whose getter calls its own [teardown] after a read. *)
Definition self_unwatch : prog :=
  GetProp 1 (KStr "go")
    (fun g => match g with
              | VBool true => GetProp 0 (KStr "a") (fun v => Teardown 1 (Ret v))
              | _ => Ret VUndef
              end).

Definition unwatch_pre : state :=
  after dev 6
    (Observe (VObj 0) false
       (NewWatcher 0 "self_unwatch" self_unwatch noop_cb
          (Some (mkOptions false true false false)) false
          (fun _ => SetProp 1 (KStr "go") (VBool true) (Ret VUndef))))
    (with_objects switch_objects).

(** The state in which the getter calls [teardown]: [get] has been entered
    and the read of [a] has registered the Watcher on Dep [1]. *)
Definition unwatch_mid : state :=
  Dep_depend 1 (pushTarget (Some 1) (log (EGet 1) unwatch_pre)).

Definition unwatch_post : state := after_get dev 8 1 unwatch_pre.

(** The property [x] of object [0], defined shallow or not; object [1] is a
    plain object that is not observed. *)
Definition shallow_pre : state :=
  after dev 6 (DefineReactive 0 (KStr "x") (Some VUndef) None true (Ret VUndef))
    (with_objects [plain []; plain []]).

Definition deep_pre : state :=
  after dev 6 (DefineReactive 0 (KStr "x") (Some VUndef) None false (Ret VUndef))
    (with_objects [plain []; plain []]).

Definition shallow_post : state :=
  after dev 8 (ReactiveSetter 2 (VObj 1) (Ret VUndef)) shallow_pre.

(** Root data [{a}] of a component: [observe(data, true)]. *)
Definition root_pre : state :=
  after dev 6 (Observe (VObj 0) true (Ret VUndef))
    (with_objects [plain [field "a" (VStr "x")]]).


(** Two Watchers of the property [a] (Dep [1]): the lazy Watcher [1] is
    evaluated after Watcher [2], so Dep [1] lists [2] before [1]. *)
Definition read_a : prog := GetProp 0 (KStr "a") Ret.

Definition unsorted_pre : state :=
  after prod_sync 6
    (Observe (VObj 0) false
       (NewWatcher 0 EmptyString read_a noop_cb (Some (mkOptions false false true false)) false
          (fun w1 =>
             NewWatcher 0 EmptyString read_a noop_cb None false
               (fun w2 => ComputedGetter w1 (fun _ => Ret VUndef)))))
    (with_objects [plain [field "a" (VStr "x")]]).

Definition unsorted_post : state :=
  match Dep_notify prod_sync no_traverse (knot_at prod_sync no_traverse 8) 1
          unsorted_pre with
  | Some (_, s') => s'
  | None => unsorted_pre
  end.

(** An accessor property [k] with a getter and no setter, made reactive with
    a custom setter hook that warns. *)
Definition readonly_pre : state :=
  after dev 6
    (DefineReactive 0 (KStr "k") None
       (Some (Warn "k is read-only" (Ret VUndef))) false (Ret VUndef))
    (with_objects
       [mkObj CPlain true false None
          [(KStr "k", Accessor (Some (Ret (VStr "one"))) None true true)] []]).

Definition readonly_post : state :=
  after dev 8 (ReactiveSetter 1 (VStr "two") (Ret VUndef)) readonly_pre.

(** Two lazy Watchers with a getter that throws: [1] is internal, [2] is
    user-defined, with a callback that throws too. *)
Definition thrower : prog := GetProp 0 (KStr "a") (fun _ => Throw (VStr "boom")).

Definition throwing_cb : jsval -> jsval -> prog := fun _ _ => Throw (VStr "bang").

Definition throw_pre : state :=
  after dev 6
    (Observe (VObj 0) false
       (NewWatcher 0 "thrower" thrower noop_cb
          (Some (mkOptions false false true false)) false
          (fun _ =>
             NewWatcher 0 "thrower" thrower noop_cb
               (Some (mkOptions false true true false)) false
               (fun _ =>
                  NewWatcher 0 "read_a" read_a throwing_cb
                    (Some (mkOptions false true true false)) false
                    (fun _ => Ret VUndef)))))
    (with_objects [plain [field "a" (VStr "x")]]).

(** * More of the reactivity core *)

(** ** Properties of every run: the life of a Watcher *)

(** The fields of a Watcher that only the constructor writes. *)
Definition same_options (W W' : Watcher) : Prop :=
  vm W' = vm W /\ expression W' = expression W /\ cb W' = cb W
  /\ deep W' = deep W /\ user W' = user W /\ lazy W' = lazy W
  /\ sync W' = sync W /\ getter W' = getter W.

(** Every Watcher of [s] is still there in [s'], with the options it was
    constructed with, and inactive if it was inactive. *)
Definition alive (s s' : state) : Prop :=
  forall w W, Watcher_heap s !! w = Some W ->
    exists W', Watcher_heap s' !! w = Some W' /\ same_options W W'
               /\ (active W = false -> active W' = false).

Definition R_alive (s s' : state) : Prop :=
  Inv s -> Inv s' /\ alive s s'.

(** ** Properties of every run: the ids of Deps *)

(** The Deps of [s'] are the Deps of [s] and one Dep for each id that the
    counter of dep.js has handed out in between. *)
Definition R_dep (s s' : state) : Prop :=
  Dep_uid s <= Dep_uid s'
  /\ forall d, is_Some (Dep_heap s' !! d)
               <-> is_Some (Dep_heap s !! d) \/ Dep_uid s <= d < Dep_uid s'.

(** Every Dep has an id that the counter has passed. *)
Definition dep_ids_below (s : state) : Prop :=
  forall d, is_Some (Dep_heap s !! d) -> d < Dep_uid s.

(** ** More of observer/index.js and instance/state.js *)

(** [hasOwn (obj, key)] of shared/util, [hasOwnProperty.call(obj, key)], on
    an object: the slots, the elements and the [length] of an array,
    [__ob__] on an object that has an Observer and [_isVue] on a Vue
    instance. *)
Definition hasOwn (obj : Obj) (name : key) : bool :=
  bool_decide (is_Some (get_slot (o_props obj) name))
  || match name with
     | KIdx n => isArray obj && bool_decide (n < length (o_items obj))
     | KStr n =>
         isArray obj && bool_decide (n = "length")
         || bool_decide (n = "__ob__") && bool_decide (is_Some (o_ob obj))
         || bool_decide (n = "_isVue") && o_isVue obj
     end.

(** The own properties of a string value: its indices and [length]. *)
Definition hasOwn_string (str : string) (name : key) : bool :=
  match name with
  | KIdx n => bool_decide (n < String.length str)
  | KStr n => bool_decide (n = "length")
  end.

Fixpoint remove_slot (ps : list (key * slot)) (name : key) : list (key * slot) :=
  match ps with
  | [] => []
  | (k, sl) :: ps' =>
      if decide (k = name) then ps' else (k, sl) :: remove_slot ps' name
  end.

(** [delete o[name]] in strict mode, for a name that is not an index of an
    array: an own property that is not configurable (the [length] of an array
    is one) makes it throw, a name that is not an own property is left
    alone.  [__ob__] (defined by [def], configurable) and [_isVue] (assigned
    by [_init]) can be deleted. *)
Definition delete_prop (o : nat) (name : key) : M unit :=
  O0 <~ gets (fun s => Obj_heap s !! o) ;;
  match O0 with
  | None => ret tt
  | Some obj =>
      match get_slot (o_props obj) name with
      | Some sl =>
          if slot_configurable sl then
            modify (upd_Obj_heap
                      (alter (fun obj' => O_set_props
                                (remove_slot (o_props obj') name) obj') o))
          else throw TypeError
      | None =>
          if isArray obj && bool_decide (name = KStr "length")
          then throw TypeError
          else if bool_decide (name = KStr "__ob__") then
            modify (upd_Obj_heap (alter (O_set_ob None) o))
          else if bool_decide (name = KStr "_isVue") then
            modify (upd_Obj_heap
                      (alter (fun obj' =>
                                mkObj (o_class obj') (o_extensible obj') false
                                  (o_ob obj') (o_props obj') (o_items obj')) o))
          else ret tt
      end
  end.

(** [return {}]: a fresh plain object. *)
Definition new_plain_object : M jsval :=
  r <~ gets next_ref ;;
  modify (upd_next_ref S) ;;;
  modify (upd_Obj_heap (insert r (plain []))) ;;;
  ret (VObj r).

(** [Object.defineProperty (o, name, descriptor)] for an accessor
    descriptor: it throws when the property exists and is not configurable,
    and when it is new and the object is not extensible. *)
Definition Object_defineProperty (o : nat) (name : key) (sl : slot) : M unit :=
  O0 <~ gets (fun s => Obj_heap s !! o) ;;
  match O0 with
  | None => throw TypeError
  | Some obj =>
      match get_slot (o_props obj) name with
      | Some old =>
          if slot_configurable old then
            modify (upd_Obj_heap
                      (alter (fun obj' => O_set_props
                                (put_slot (o_props obj') name sl) obj') o))
          else throw TypeError
      | None =>
          if o_extensible obj then
            modify (upd_Obj_heap
                      (alter (fun obj' => O_set_props
                                (put_slot (o_props obj') name sl) obj') o))
          else throw TypeError
      end
  end.

(** [this[sourceKey][key]] and [this[sourceKey][key] = val] of [proxy], for
    the receiver [target].  Reading a property of [undefined] or [null]
    throws, and so does writing a property of any value that is not an object;
    the own properties of other primitive values are not modelled, a read of
    one gives [undefined]. *)
Definition proxyGetter (target : nat) (sourceKey name : key) : prog :=
  GetProp target sourceKey
    (fun src =>
       match src with
       | VObj r => GetProp r name Ret
       | VUndef | VNull => Throw TypeError
       | _ => Ret VUndef
       end).

Definition proxySetter (target : nat) (sourceKey name : key) (val : jsval) : prog :=
  GetProp target sourceKey
    (fun src =>
       match src with
       | VObj r => SetProp r name val (Ret VUndef)
       | _ => Throw TypeError
       end).

(** [proxy (target, sourceKey, key)] *)
Definition proxy (target : nat) (sourceKey name : key) : M unit :=
  Object_defineProperty target name
    (Accessor (Some (proxyGetter target sourceKey name))
       (Some (proxySetter target sourceKey name)) true true).

Definition warn_del_primitive (target : jsval) : string :=
  "Cannot delete reactive property on undefined, null, or primitive value: "
  +:+ to_text target.

Definition warn_del_root : string :=
  "Avoid deleting properties on a Vue instance or its root $data - just set it to null.".

Section More.
Variable E : env.
Variable traverse : traverse_t.
Variable rec : knot.

(** Modelled from the spec: the intercepted [splice] of observer/array is
    not among the sources.  Spec 4.1: the variant performs the effect and
    notifies the structural Dep.  This is [target.splice(i, 1)]: the element
    at [i], if there is one, is taken out. *)
Definition array_splice_out (r i : nat) : M unit :=
  modify (upd_Obj_heap
            (alter (fun obj' => O_set_items (delete i (o_items obj')) obj') r)) ;;;
  ob <~ gets (fun s => Obj_heap s !! r ≫= o_ob) ;;
  match ob with
  | None => ret tt
  | Some b =>
      OB <~ gets (fun s => Observer_heap s !! b) ;;
      match OB with
      | Some B => Dep_notify E traverse rec (ob_dep B)
      | None => ret tt
      end
  end.

(** [del (target, key)] *)
Definition del (target : jsval) (name : key) : M unit :=
  when (negb (production E) && (isUndef target || isPrimitive target))
    (modify (warn (warn_del_primitive target))) ;;;
  match target with
  | VObj r =>
      O0 <~ gets (fun s => Obj_heap s !! r) ;;
      match O0 with
      | None => throw TypeError
      | Some obj =>
          if isArray obj && isValidArrayIndex name then
            match name with
            | KIdx i => array_splice_out r i
            | KStr _ => ret tt
            end
          else
            ob <~ gets (fun s => o_ob obj ≫= fun b => Observer_heap s !! b) ;;
            if o_isVue obj || bool_decide (0 < default 0 (vmCount <$> ob)) then
              when (negb (production E)) (modify (warn warn_del_root))
            else if negb (hasOwn obj name) then ret tt
            else
              delete_prop r name ;;;
              match ob with
              | None => ret tt
              | Some B => Dep_notify E traverse rec (ob_dep B)
              end
      end
  | VUndef | VNull => throw TypeError
  | VStr str => if hasOwn_string str name then throw TypeError else ret tt
  | VBool _ | VNum _ => ret tt
  end.

(** [getData (data, vm)] *)
Definition getData (data : prog) (vm_ : nat) : M jsval :=
  modify (pushTarget None) ;;;
  r <~ attempt
         (catch (call rec data)
            (fun e => modify (handleError e vm_ "data()") ;;; new_plain_object)) ;;
  modify popTarget ;;;
  resume r.

(** The label
    [`callback for immediate watcher "${watcher.expression}"`]. *)
Definition immediate_label (expr : string) : string :=
  "callback for immediate watcher " +:+ dquote +:+ expr +:+ dquote.

(** [vm.$watch (expOrFn, cb, options)] for a callback that is a function.
    [immediate] is [options.immediate]; the result is the Watcher whose
    [teardown] the returned [unwatchFn] calls. *)
Definition vm_watch (vm_ : nat) (src : string) (getter_ : prog)
    (cb_ : jsval -> jsval -> prog) (options : option WatcherOptions)
    (immediate : bool) : M nat :=
  let o := default (mkOptions false false false false) options in
  w <~ new_Watcher E traverse rec vm_ src getter_ cb_
         (Some (mkOptions (opt_deep o) true (opt_lazy o) (opt_sync o))) false ;;
  when immediate
    (v <~ gets (fun s => default VUndef (value <$> Watcher_heap s !! w)) ;;
     x <~ gets (fun s => default EmptyString (expression <$> Watcher_heap s !! w)) ;;
     catch (call rec (cb_ v VUndef) ;;; ret tt)
       (fun e => modify (handleError e vm_ (immediate_label x)))) ;;;
  ret w.

End More.

(** ** Properties of every run: objects, observers and closures *)

(** The scripts that read and write ordinary keys only.  On these the heap
    follows the program; a script that assigns [o.__ob__] or [o._isVue], or
    reads [o.__ob__], does to the program what the record does not show. *)
Fixpoint ordinary (p : prog) : Prop :=
  match p with
  | Ret _ | Throw _ => True
  | Warn _ k => ordinary k
  | GetProp _ name k => ordinary_key name = true /\ forall v, ordinary (k v)
  | SetProp _ name _ k => ordinary_key name = true /\ ordinary k
  | ReactiveGetter _ k => forall v, ordinary (k v)
  | ReactiveSetter _ _ k => ordinary k
  | VueSet _ name _ k => ordinary_key name = true /\ ordinary k
  | Observe _ _ k => ordinary k
  | DefineReactive _ name _ customSetter _ k =>
      ordinary_key name = true
      /\ match customSetter with Some c => ordinary c | None => True end
      /\ ordinary k
  | NewWatcher _ _ getter_ cb_ _ _ k =>
      ordinary getter_ /\ (forall v old, ordinary (cb_ v old))
      /\ forall w, ordinary (k w)
  | ComputedGetter _ k => forall v, ordinary (k v)
  | Run _ k => ordinary k
  | Teardown _ k => ordinary k
  | Untracked body k => ordinary body /\ forall v, ordinary (k v)
  end.

Definition ordinary_slot (sl : slot) : Prop :=
  match sl with
  | Data _ _ _ => True
  | Accessor g st _ _ =>
      match g with Some g' => ordinary g' | None => True end
      /\ match st with Some st' => forall v, ordinary (st' v) | None => True end
  end.

(** Every property in the heap has an ordinary key, and every script that
    the state holds (the getters and callbacks of Watchers, the accessors of
    properties, the getters, setters and hooks that [defineReactive] has
    closed over) is ordinary. *)
Definition ordinary_state (s : state) : Prop :=
  (forall o obj k sl, Obj_heap s !! o = Some obj -> (k, sl) ∈ o_props obj ->
     ordinary_key k = true /\ ordinary_slot sl)
  /\ (forall w W, Watcher_heap s !! w = Some W ->
       ordinary (getter W) /\ forall v old, ordinary (cb W v old))
  /\ (forall q C, Closure_heap s !! q = Some C ->
       match c_getter C with Some g => ordinary g | None => True end
       /\ match c_setter C with Some st => forall v, ordinary (st v) | None => True end
       /\ match c_customSetter C with Some c => ordinary c | None => True end).

(** What [observe] asks of an object before it gives it an Observer, besides
    [shouldObserve] and [isServerRendering()]. *)
Definition observable (obj : Obj) : bool :=
  (isArray obj || bool_decide (o_class obj = CPlain))
  && o_extensible obj && negb (o_isVue obj).

(** The accessor pair that [defineReactive] installs. *)
Definition reactive_slot (sl : slot) : Prop :=
  exists p, sl = Accessor (Some (ReactiveGetter p Ret))
                   (Some (fun v => ReactiveSetter p v (Ret VUndef))) true true.

Definition slot_kept (sl sl' : slot) : Prop :=
  (slot_configurable sl = true -> slot_configurable sl' = true)
  /\ (reactive_slot sl -> reactive_slot sl').

Definition obj_kept (obj obj' : Obj) : Prop :=
  o_class obj' = o_class obj /\ o_extensible obj' = o_extensible obj
  /\ o_isVue obj' = o_isVue obj
  /\ (forall b, o_ob obj = Some b -> o_ob obj' = Some b)
  /\ (o_ob obj = None -> is_Some (o_ob obj') -> observable obj = true)
  /\ (forall k sl, get_slot (o_props obj) k = Some sl ->
        exists sl', get_slot (o_props obj') k = Some sl' /\ slot_kept sl sl').

Definition observer_kept (B B' : Observer) : Prop :=
  ob_value B' = ob_value B /\ ob_dep B' = ob_dep B /\ vmCount B <= vmCount B'.

Definition closure_kept (C C' : Closure) : Prop :=
  c_obj C' = c_obj C /\ c_key C' = c_key C /\ c_dep C' = c_dep C
  /\ c_getter C' = c_getter C /\ c_setter C' = c_setter C
  /\ c_customSetter C' = c_customSetter C /\ c_shallow C' = c_shallow C.

(** Nothing is taken from the heaps of objects, Observers and closures, and
    what is in them keeps what it is created with. *)
Definition heap_kept (s s' : state) : Prop :=
  (next_ref s <= next_ref s' /\ shouldObserve s' = shouldObserve s)
  /\ (forall r obj, Obj_heap s !! r = Some obj ->
        exists obj', Obj_heap s' !! r = Some obj' /\ obj_kept obj obj')
  /\ (forall b B, Observer_heap s !! b = Some B ->
        exists B', Observer_heap s' !! b = Some B' /\ observer_kept B B')
  /\ (forall p C, Closure_heap s !! p = Some C ->
        exists C', Closure_heap s' !! p = Some C' /\ closure_kept C C').

(** Objects and Observers point at each other, and the references of
    Observers and closures are below the counter. *)
Record ObInv (s : state) : Prop := mkObInv {
  obi_link : forall r obj b, Obj_heap s !! r = Some obj -> o_ob obj = Some b ->
    exists B, Observer_heap s !! b = Some B /\ ob_value B = r;
  obi_back : forall b B, Observer_heap s !! b = Some B ->
    exists obj, Obj_heap s !! ob_value B = Some obj /\ o_ob obj = Some b;
  obi_fresh_ob : forall b, is_Some (Observer_heap s !! b) -> b < next_ref s;
  obi_fresh_cl : forall p, is_Some (Closure_heap s !! p) -> p < next_ref s
}.

Definition R_heap (s s' : state) : Prop :=
  ObInv s -> ObInv s' /\ heap_kept s s'.

(** The fields that [R_heap] reads are the same. *)
Definition same_heaps (s s' : state) : Prop :=
  (next_ref s' = next_ref s /\ shouldObserve s' = shouldObserve s)
  /\ Obj_heap s' = Obj_heap s
  /\ Observer_heap s' = Observer_heap s /\ Closure_heap s' = Closure_heap s.

(** The Dep of the Observer of a value, if it has one:
    [e && e.__ob__ && e.__ob__.dep]. *)
Definition ob_dep_of (s : state) (e : jsval) : option nat :=
  match e with
  | VObj r =>
      b ← Obj_heap s !! r ≫= o_ob ;
      B ← Observer_heap s !! b ;
      Some (ob_dep B)
  | _ => None
  end.

(** The last three steps of [defineReactive]: a fresh closure and its
    accessor pair. *)
Definition installed (o : nat) (name : key) (C : Closure) (s : state) : state :=
  upd_Obj_heap
    (alter (fun obj' => O_set_props
              (put_slot (o_props obj') name
                 (Accessor (Some (ReactiveGetter (next_ref s) Ret))
                    (Some (fun v => ReactiveSetter (next_ref s) v (Ret VUndef)))
                    true true)) obj') o)
    (upd_Closure_heap (insert (next_ref s) C) (upd_next_ref S s)).


(** The first steps of [new Observer(value)], for an object that has no
    Observer and passes the test of [observe]. *)
Definition attached (r d : nat) (s : state) : state :=
  upd_Obj_heap (alter (O_set_ob (Some (next_ref s))) r)
    (upd_Observer_heap (insert (next_ref s) (mkObserver r d 0)) (upd_next_ref S s)).


(** ** More examples *)

(** The data [{a}] with an Observer that is not root data: Dep [0] is the
    Observer's, Dep [1] the one of [a]. *)
Definition observed_pre : state :=
  after dev 6 (Observe (VObj 0) false (Ret VUndef))
    (with_objects [plain [field "a" (VStr "x")]]).

(** A computed property on [a] that has not been read yet: the lazy
    Watcher [1] is dirty. *)
Definition computed_pre : state :=
  after dev 6
    (Observe (VObj 0) false
       (NewWatcher 0 "a" read_a noop_cb
          (Some (mkOptions false false true false)) false (fun _ => Ret VUndef)))
    (with_objects [plain [field "a" (VStr "x")]]).

(** The computed property [1] has been read; Watcher [2] has no Dep and is
    being evaluated. *)
Definition depend_pre : state :=
  pushTarget (Some 2)
    (after dev 6
       (Observe (VObj 0) false
          (NewWatcher 0 "a" read_a noop_cb
             (Some (mkOptions false false true false)) false
             (fun w1 =>
                ComputedGetter w1
                  (fun _ =>
                     NewWatcher 0 "none" (Ret VUndef) noop_cb None false
                       (fun _ => Ret VUndef)))))
       (with_objects [plain [field "a" (VStr "x")]])).

(** An array [[{}, "s"]] and the object that is its first element. *)
Definition array_objects : list Obj :=
  [mkObj CArray true false None [] [VObj 1; VStr "s"]; plain []].

(** The Watcher of the conditional-branch scenario after [teardown]. *)
Definition torn_down : state :=
  after dev 6 (Teardown 1 (Ret VUndef)) branch_flipped.

(** The array of [array_objects] has an Observer, and so has its element;
    Watcher [1] has no Dep and is being evaluated. *)
Definition array_pre : state :=
  pushTarget (Some 1)
    (after dev 8
       (Observe (VObj 0) false
          (NewWatcher 0 "none" (Ret VUndef) noop_cb None false (fun _ => Ret VUndef)))
       (with_objects array_objects)).

(** A component [0] whose [_data] is the object [1]. *)
Definition proxy_objects : list Obj :=
  [mkObj COther true true None [field "_data" (VObj 1)] [];
   plain [field "msg" (VStr "hi")]].

(** ** The monad's rules *)

Section Stable.
Context (R : state -> state -> Prop) (HR : respects R).

Lemma stable_ret {A} (a : A) : stable R (ret a).
Proof. intros s r s' [= <- <-]. apply (r_refl R HR). Qed.

Lemma stable_throw {A} (e : jsval) : stable R (@throw A e).
Proof. intros s r s' [= <- <-]. apply (r_refl R HR). Qed.

Lemma stable_gets {A} (f : state -> A) : stable R (gets f).
Proof. intros s r s' [= <- <-]. apply (r_refl R HR). Qed.

Lemma stable_modify (f : state -> state) :
  (forall s, R s (f s)) -> stable R (modify f).
Proof. intros Hf s r s' [= <- <-]. apply Hf. Qed.

Lemma stable_bind {A B} (m : M A) (f : A -> M B) :
  stable R m -> (forall a, stable R (f a)) -> stable R (bind m f).
Proof.
  intros Hm Hf s r s'. unfold bind.
  destruct (m s) as [[[a|e] s1]|] eqn:Em; [|intros [= <- <-]|discriminate].
  - intros H. eapply (r_trans R HR); [eapply Hm, Em|eapply Hf, H].
  - eapply Hm, Em.
Qed.

Lemma stable_attempt {A} (m : M A) : stable R m -> stable R (attempt m).
Proof.
  intros Hm s r s'. unfold attempt.
  destruct (m s) as [[r1 s1]|] eqn:Em; [|discriminate].
  intros [= <- <-]. eapply Hm, Em.
Qed.

Lemma stable_resume {A} (r : res A) : stable R (resume r).
Proof. destruct r; [apply stable_ret|apply stable_throw]. Qed.

Lemma stable_catch {A} (m : M A) (h : jsval -> M A) :
  stable R m -> (forall e, stable R (h e)) -> stable R (catch m h).
Proof.
  intros Hm Hh. apply stable_bind; [by apply stable_attempt|].
  intros [a|e]; [apply stable_ret|apply Hh].
Qed.

Lemma stable_when (b : bool) (m : M unit) :
  stable R m -> stable R (when b m).
Proof. destruct b; [done|intros _; apply stable_ret]. Qed.

Lemma stable_for_each {A} (body : A -> M unit) (l : list A) :
  (forall x, stable R (body x)) -> stable R (for_each body l).
Proof.
  intros Hb. induction l as [|x l IH]; [apply stable_ret|].
  simpl. apply stable_bind; [apply Hb|intros _; apply IH].
Qed.

Lemma stable_frame (f : state -> state) :
  (forall s, same_graph s (f s)) -> stable R (modify f).
Proof. intros Hf. apply stable_modify. intros s. apply (r_frame R HR), Hf. Qed.

Lemma stable_alloc_Dep : stable R alloc_Dep.
Proof. intros s r s' [= <- <-]. apply (r_new_Dep R HR). Qed.
End Stable.

(** ** [Watcher.get], step by step *)

Lemma for_each_modify {A} (f : A -> state -> state) (l : list A) (s : state) :
  for_each (fun x => modify (f x)) l s = Some (Val tt, foldl (fun s0 x => f x s0) s l).
Proof.
  revert s. induction l as [|x l IH]; intros s; [done|].
  simpl. unfold bind at 1, modify at 1. apply IH.
Qed.




Lemma Watcher_get_eq traverse rec w W s :
  Watcher_heap s !! w = Some W ->
  Watcher_get traverse rec w s =
    match get_try rec W (pushTarget (Some w) (log (EGet w) s)) with
    | None => None
    | Some (r, s2) =>
        Some (r, cleanupDeps w
                   (popTarget (traversed traverse W (completion_value r) s2)))
    end.
Proof.
  intros EW. unfold Watcher_get, bind at 1, gets at 1. rewrite EW.
  unfold bind at 1, modify at 1. unfold bind at 1, modify at 1.
  unfold bind at 1, attempt at 1. fold (get_try rec W).
  destruct (get_try rec W _) as [[r s2]|]; [|done].
  unfold traversed, completion_value. unfold bind at 1.
  destruct (deep W); simpl.
  - unfold bind at 1, gets at 1. rewrite for_each_modify.
    unfold bind at 1, modify at 1. unfold bind at 1, modify at 1.
    by destruct r.
  - unfold bind at 1, modify at 1. unfold bind at 1, modify at 1.
    by destruct r.
Qed.

Lemma Watcher_get_dangling traverse rec w s :
  Watcher_heap s !! w = None ->
  Watcher_get traverse rec w s = Some (Val VUndef, s).
Proof. intros EW. unfold Watcher_get, bind at 1, gets at 1. by rewrite EW. Qed.

(** ** Every run of the library keeps a respected relation *)

Section Interp.
Context (R : state -> state -> Prop) (HR : respects R).
Context (E : env) (traverse : traverse_t) (rec : knot).
Context (Hrec : knot_stable R rec).

Ltac frame_step :=
  apply (stable_frame R HR); intros ?; repeat split; reflexivity.

Ltac stab :=
  repeat first
    [ match goal with
      | H : context [stable] |- stable _ _ => simple apply H
      end
    | simple apply (stable_ret R HR)
    | simple apply (stable_throw R HR)
    | simple apply (stable_gets R HR)
    | simple apply (stable_alloc_Dep R HR)
    | simple apply (stable_resume R HR)
    | simple apply (stable_bind R HR); [|intros ?]
    | simple apply (stable_catch R HR); [|intros ?]
    | simple apply (stable_attempt R)
    | simple apply (stable_when R HR)
    | simple apply (stable_for_each R HR); intros ?
    | simple apply (stable_modify R); intros ?;
      first [ apply (r_depend R HR) | apply (r_teardown R HR)
            | apply (r_value R HR) | apply (r_dirty R HR)
            | apply (r_notify R HR) | apply (r_update R HR) ]
    | frame_step
    | match goal with
      | |- stable _ (match ?x with _ => _ end) => destruct x
      end ].

Lemma stable_call p : stable R (call rec p).
Proof. apply Hrec. Qed.

Lemma foldl_depend l s : R s (foldl (fun s0 d => Dep_depend d s0) s l).
Proof.
  revert s. induction l as [|d l IH]; intros s; [apply (r_refl R HR)|].
  simpl. eapply (r_trans R HR); [apply (r_depend R HR)|apply IH].
Qed.

Lemma stable_get_try W : stable R (get_try rec W).
Proof. pose proof stable_call. unfold get_try. stab. Qed.

Lemma traversed_R W v s : R s (traversed traverse W v s).
Proof.
  unfold traversed. destruct (deep W); [apply foldl_depend|apply (r_refl R HR)].
Qed.

Lemma stable_Watcher_get w : stable R (Watcher_get traverse rec w).
Proof.
  intros s r s' H.
  destruct (Watcher_heap s !! w) as [W|] eqn:EW.
  - rewrite (Watcher_get_eq _ _ _ _ _ EW) in H.
    destruct (get_try rec W _) as [[r1 s2]|] eqn:Eb; [|done].
    injection H as <- <-.
    apply (r_get R HR); [by rewrite EW|].
    eapply (r_trans R HR).
    + eapply stable_get_try, Eb.
    + apply traversed_R.
  - rewrite Watcher_get_dangling in H by done. injection H as <- <-.
    apply (r_refl R HR).
Qed.
Lemma stable_k_observe v b : stable R (k_observe rec v b).
Proof. apply Hrec. Qed.

Lemma stable_k_dependArray r : stable R (k_dependArray rec r).
Proof. apply Hrec. Qed.

Lemma same_graph_queueWatcher w s : same_graph s (queueWatcher w s).
Proof. unfold queueWatcher. destruct (decide _); repeat split; reflexivity. Qed.

Ltac stab' :=
  pose proof stable_call; pose proof stable_k_observe;
  pose proof stable_k_dependArray; pose proof stable_Watcher_get;
  stab.

Lemma stable_Watcher_run w : stable R (Watcher_run traverse rec w).
Proof. unfold Watcher_run. stab'. Qed.

Lemma stable_Watcher_update w : stable R (Watcher_update traverse rec w).
Proof.
  unfold Watcher_update. pose proof stable_Watcher_run. stab'.
  apply (stable_frame R HR). intros ?. apply same_graph_queueWatcher.
Qed.

Lemma stable_Dep_notify d : stable R (Dep_notify E traverse rec d).
Proof. unfold Dep_notify. pose proof stable_Watcher_update. stab'. Qed.

Lemma stable_Watcher_evaluate w : stable R (Watcher_evaluate traverse rec w).
Proof.
  unfold Watcher_evaluate. stab'.
  apply (stable_modify R). intros s.
  replace (upd_Watcher_heap _ s) with
    (upd_Watcher_heap (alter (W_set_dirty false) w)
       (upd_Watcher_heap (alter (W_set_value a) w) s)).
  - eapply (r_trans R HR); [apply (r_value R HR)|apply (r_dirty R HR)].
  - destruct s; unfold upd_Watcher_heap; simpl. f_equal.
    apply alter_alter_eq.
Qed.

Lemma stable_Watcher_depend w : stable R (Watcher_depend w).
Proof. unfold Watcher_depend. stab'. Qed.

Lemma stable_computedGetter w : stable R (computedGetter traverse rec w).
Proof.
  unfold computedGetter.
  pose proof stable_Watcher_evaluate. pose proof stable_Watcher_depend. stab'.
Qed.

Lemma stable_construct vm_ W b : fresh_Watcher W -> stable R (construct vm_ W b).
Proof. intros HW s r s' [= <- <-]. by apply (r_new_Watcher R HR). Qed.

Lemma stable_new_Watcher vm_ src g c o b :
  stable R (new_Watcher E traverse rec vm_ src g c o b).
Proof.
  unfold new_Watcher. apply (stable_bind R HR).
  - apply stable_construct. by repeat split.
  - intros id. stab'.
Qed.

Lemma stable_read_prop o name : stable R (read_prop rec o name).
Proof. unfold read_prop. stab'. Qed.

Lemma stable_assign o name v : stable R (assign rec o name v).
Proof. unfold assign. stab'. Qed.

Lemma stable_depend_on_ob v : stable R (depend_on_ob v).
Proof. unfold depend_on_ob. stab'. Qed.

Lemma stable_dependArray r : stable R (dependArray rec r).
Proof. unfold dependArray. pose proof stable_depend_on_ob. stab'. Qed.

Lemma stable_current_value C : stable R (current_value rec C).
Proof. unfold current_value. stab'. Qed.

Lemma stable_run_customSetter C : stable R (run_customSetter E rec C).
Proof. unfold run_customSetter. stab'. Qed.

Lemma stable_reactiveGetter p : stable R (reactiveGetter rec p).
Proof.
  unfold reactiveGetter. pose proof stable_dependArray.
  pose proof stable_current_value. stab'.
Qed.

Lemma stable_defineReactive o name v cs sh :
  stable R (defineReactive rec o name v cs sh).
Proof. unfold defineReactive. pose proof stable_read_prop. stab'. Qed.

Lemma stable_new_Observer r : stable R (new_Observer rec r).
Proof. unfold new_Observer. pose proof stable_defineReactive. stab'. Qed.

Lemma stable_observe v b : stable R (observe E rec v b).
Proof. unfold observe. pose proof stable_new_Observer. stab'. Qed.

Lemma stable_reactiveSetter p v : stable R (reactiveSetter E traverse rec p v).
Proof.
  unfold reactiveSetter.
  pose proof stable_observe. pose proof stable_Dep_notify.
  pose proof stable_current_value. pose proof stable_run_customSetter. stab'.
Qed.

Lemma stable_array_splice r i v : stable R (array_splice E traverse rec r i v).
Proof.
  unfold array_splice.
  pose proof stable_observe. pose proof stable_Dep_notify. stab'.
Qed.

Lemma stable_set target name v : stable R (set E traverse rec target name v).
Proof.
  unfold set.
  pose proof stable_array_splice. pose proof stable_assign.
  pose proof stable_defineReactive. pose proof stable_Dep_notify. stab'.
Qed.

Lemma stable_exec p : stable R (exec E traverse rec p).
Proof.
  pose proof stable_read_prop. pose proof stable_assign.
  pose proof stable_reactiveGetter. pose proof stable_reactiveSetter.
  pose proof stable_set. pose proof stable_observe.
  pose proof stable_defineReactive. pose proof stable_new_Watcher.
  pose proof stable_computedGetter. pose proof stable_Watcher_run.
  induction p; simpl; try solve [stab'].
  (* Untracked *)
  intros s0 r0 s0' Hx. unfold bind at 1, modify at 1 in Hx.
  unfold bind at 1, attempt at 1 in Hx.
  destruct (exec E traverse rec p (pushTarget None s0)) as [[r1 s2]|] eqn:Eb; [|done].
  unfold bind at 1, modify at 1 in Hx.
  eapply (r_trans R HR).
  - apply (r_untracked R HR). eapply IHp, Eb.
  - revert Hx. generalize (popTarget s2). intros s3 Hx.
    assert (Hs : stable R (v <~ resume r1 ;; exec E traverse rec (k v))) by stab.
    eapply Hs, Hx.
Qed.
End Interp.

Theorem stable_knot R (HR : respects R) E traverse fuel :
  knot_stable R (knot_at E traverse fuel).
Proof.
  induction fuel as [|fuel IH]; simpl.
  - repeat split; intros; intros s0 r0 s0'; discriminate.
  - repeat split; simpl.
    + intros p. by apply stable_exec.
    + intros v b. by apply stable_observe.
    + intros r. by apply stable_dependArray.
Qed.

(** ** [remove] on an array without duplicates *)

Lemma elem_of_remove l w x : x ∈ remove l w -> x ∈ l.
Proof.
  induction l as [|y l IH]; simpl; [done|].
  destruct (decide (y = w)); rewrite ?elem_of_cons; [by right|].
  intros [?|?]; [by left|right; by apply IH].
Qed.

Lemma elem_of_remove_ne l w x : x <> w -> x ∈ l -> x ∈ remove l w.
Proof.
  intros Hne. induction l as [|y l IH]; simpl; [done|].
  destruct (decide (y = w)); rewrite ?elem_of_cons.
  - intros [?|?]; [congruence|done].
  - intros [?|?]; [by left|right; by apply IH].
Qed.

Lemma NoDup_remove l w : NoDup l -> NoDup (remove l w).
Proof.
  induction 1 as [|y l Hy Hl IH]; simpl; [constructor|].
  destruct (decide (y = w)); [done|].
  constructor; [|done]. intros Hin. by apply Hy, (elem_of_remove l w).
Qed.

Lemma not_elem_of_remove l w : NoDup l -> w ∉ remove l w.
Proof.
  induction 1 as [|y l Hy Hl IH]; simpl; [apply not_elem_of_nil|].
  destruct (decide (y = w)) as [->|]; [done|].
  rewrite elem_of_cons. intros [?|?]; [congruence|done].
Qed.

Lemma remove_not_elem_of l w : w ∉ l -> remove l w = l.
Proof.
  induction l as [|y l IH]; simpl; [done|].
  rewrite elem_of_cons. intros Hw.
  destruct (decide (y = w)) as [->|]; [exfalso; apply Hw; by left|].
  f_equal. apply IH. intros ?. apply Hw. by right.
Qed.


Lemma removes_succ_r w n l : removes w (S n) l = removes w n (remove l w).
Proof. unfold removes. by rewrite Nat.iter_succ_r. Qed.

Lemma elem_of_removes w n l x : x ∈ removes w n l -> x ∈ l.
Proof.
  induction n as [|n IH]; simpl; [done|]. intros H. by apply IH, (elem_of_remove _ w).
Qed.

Lemma elem_of_removes_ne w n l x : x <> w -> x ∈ l -> x ∈ removes w n l.
Proof.
  intros Hne Hx. induction n as [|n IH]; simpl; [done|]. by apply elem_of_remove_ne.
Qed.

Lemma NoDup_removes w n l : NoDup l -> NoDup (removes w n l).
Proof. intros Hl. induction n as [|n IH]; simpl; [done|]. by apply NoDup_remove. Qed.

Lemma not_elem_of_removes w n l : NoDup l -> 0 < n -> w ∉ removes w n l.
Proof.
  intros Hl Hn. destruct n as [|n]; [lia|]. simpl.
  apply not_elem_of_remove. by apply NoDup_removes.
Qed.

(** ** Unsubscribing from a list of Deps *)

Section Unsub.
Context (w : nat) (K : nat -> Prop) `{!forall d, Decision (K d)}.


Lemma unsub_other l s :
  same_graph (upd_Dep_heap (fun _ => Dep_heap s) (foldl (unsub_step w K) s l)) s
  /\ foldl (unsub_step w K) s l
     = upd_Dep_heap (fun _ => Dep_heap (foldl (unsub_step w K) s l)) s.
Proof.
  revert s. induction l as [|d l IH]; intros s; simpl.
  - split; [by repeat split|by destruct s].
  - destruct (IH ((unsub_step w K) s d)) as [H1 H2]. rewrite H2.
    unfold unsub_step. destruct (decide (K d)); simpl.
    + split; [by repeat split|done].
    + split; [by repeat split|done].
Qed.

Lemma unsub_lookup l s d :
  exists n,
    Dep_heap (foldl (unsub_step w K) s l) !! d
    = (fun D => mkDep (removes w n (subs D))) <$> Dep_heap s !! d
    /\ (d ∈ l -> ~ K d -> 0 < n)
    /\ (~ (d ∈ l /\ ~ K d) -> n = 0).
Proof.
  revert s. induction l as [|a l IH]; intros s; simpl.
  - exists 0. split; [|split; [intros Hd; by apply elem_of_nil in Hd|done]].
    by destruct (Dep_heap s !! d) as [[?]|].
  - destruct (IH ((unsub_step w K) s a)) as (n & Hn & Hpos & Hzero).
    destruct (decide (K a)) as [HK|HK].
    + assert (Ha : (unsub_step w K) s a = s)
        by (unfold unsub_step; by rewrite decide_True).
      rewrite Ha in Hn |- *.
      exists n. split; [done|]. rewrite elem_of_cons. split.
      * intros [->|Hd] HKd; [done|by apply Hpos].
      * intros Hno. apply Hzero. intros [Hd HKd]. apply Hno. by split; [right|].
    + assert (Ha : (unsub_step w K) s a = Dep_removeSub a w s)
        by (unfold unsub_step; by rewrite decide_False).
      rewrite Ha in Hn |- *. simpl in Hn.
      destruct (decide (a = d)) as [->|Hne].
      * exists (S n). rewrite lookup_alter_eq in Hn. split; [|split; [lia|]].
        { rewrite Hn. destruct (Dep_heap s !! d) as [[l0]|]; [|done].
          change (Some (mkDep (removes w n (remove l0 w)))
                  = Some (mkDep (removes w (S n) l0))).
          by rewrite removes_succ_r. }
        { intros Hno. exfalso. apply Hno. rewrite elem_of_cons. by split; [left|]. }
      * exists n. rewrite lookup_alter_ne in Hn by done. split; [done|].
        rewrite elem_of_cons. split.
        { intros [->|Hd] HKd; [done|by apply Hpos]. }
        { intros Hno. apply Hzero. intros [Hd HKd]. apply Hno. by split; [right|]. }
Qed.
End Unsub.

(** ** The subscription graph stays well formed *)

Lemma Inv_same s s' :
  Dep_heap s' = Dep_heap s -> Watcher_heap s' = Watcher_heap s ->
  Watcher_uid s' = Watcher_uid s -> Inv s -> Inv s'.
Proof.
  intros H1 H2 H3 [Ha Hb Hc Hd].
  split; rewrite ?H1, ?H2, ?H3; assumption.
Qed.

Lemma Inv_same_graph s s' : same_graph s s' -> Inv s -> Inv s'.
Proof. intros (_ & H1 & _ & _ & H3 & H2 & _). by apply Inv_same. Qed.

Lemma Inv_init : Inv init.
Proof.
  split; simpl.
  - intros d D H. by rewrite lookup_empty in H.
  - intros d D w H. by rewrite lookup_empty in H.
  - intros w W H. by rewrite lookup_empty in H.
  - intros w [W H]. by rewrite lookup_empty in H.
Qed.

Lemma Inv_unsub w K `{!forall d, Decision (K d)} l s :
  Inv s -> Inv (foldl (unsub_step w K) s l).
Proof.
  intros HI. destruct (unsub_other w K l s) as [_ Heq].
  split.
  - intros d D' HD'. destruct (unsub_lookup w K l s d) as (n & Hn & _).
    rewrite Hn in HD'. destruct (Dep_heap s !! d) as [D|] eqn:ED; [|done].
    injection HD' as <-. simpl. apply NoDup_removes. by eapply inv_nodup.
  - intros d D' w0 HD' Hin. destruct (unsub_lookup w K l s d) as (n & Hn & _).
    rewrite Hn in HD'. destruct (Dep_heap s !! d) as [D|] eqn:ED; [|done].
    injection HD' as <-. simpl in Hin. apply elem_of_removes in Hin.
    rewrite Heq. simpl. by eapply inv_link.
  - rewrite Heq. simpl. by apply inv_ids.
  - rewrite Heq. simpl. by apply inv_fresh.
Qed.

Lemma cleanupDeps_eq w W s :
  Watcher_heap s !! w = Some W ->
  cleanupDeps w s =
    upd_Watcher_heap
      (insert w (W_set_collect W (newDeps W) [] (newDepIds W) ∅))
      (foldl (unsub_step w (fun d => d ∈ newDepIds W)) s (reverse (deps W))).
Proof. intros EW. unfold cleanupDeps. by rewrite EW. Qed.

Lemma Inv_cleanupDeps w s : Inv s -> Inv (cleanupDeps w s).
Proof.
  intros HI. destruct (Watcher_heap s !! w) as [W|] eqn:EW;
    [|unfold cleanupDeps; by rewrite EW].
  rewrite (cleanupDeps_eq _ _ _ EW).
  set (K := fun d => d ∈ newDepIds W).
  pose proof (Inv_unsub w K (reverse (deps W)) s HI) as HI'.
  destruct (unsub_other w K (reverse (deps W)) s) as [_ Heq].
  set (s1 := foldl _ _ _) in *.
  assert (HW1 : Watcher_heap s1 = Watcher_heap s) by (by rewrite Heq).
  assert (HU1 : Watcher_uid s1 = Watcher_uid s) by (by rewrite Heq).
  split; simpl.
  - apply (inv_nodup _ HI').
  - intros d D' w0 HD' Hin.
    destruct (inv_link _ HI' d D' w0 HD' Hin) as (W0 & HW0 & Hd).
    destruct (decide (w0 = w)) as [->|Hne].
    + eexists. rewrite lookup_insert_eq. split; [done|]. simpl. left.
      rewrite HW1, EW in HW0. injection HW0 as <-.
      destruct (decide (d ∈ newDepIds W)) as [|Hnew]; [done|].
      exfalso. destruct Hd as [Hd|Hd]; [|done].
      destruct (unsub_lookup w K (reverse (deps W)) s d) as (n & Hn & Hpos & _).
      fold s1 in Hn. rewrite HD' in Hn.
      destruct (Dep_heap s !! d) as [D|] eqn:ED; [|done].
      injection Hn as ->. simpl in Hin. revert Hin.
      apply not_elem_of_removes; [apply (inv_nodup _ HI d D ED)|].
      apply Hpos; [|done]. apply elem_of_reverse.
      by apply (inv_ids _ HI w W EW).
    + exists W0. by rewrite lookup_insert_ne.
  - intros w0 W0. destruct (decide (w0 = w)) as [->|Hne].
    + rewrite lookup_insert_eq. intros [= <-]. simpl.
      destruct (inv_ids _ HI w W EW) as [_ H2]. split; [exact H2|].
      intros d. by rewrite elem_of_nil, elem_of_empty.
    + rewrite lookup_insert_ne by done. rewrite HW1. apply (inv_ids _ HI).
  - intros w0. destruct (decide (w0 = w)) as [->|Hne].
    + intros _. rewrite HU1. apply (inv_fresh _ HI). by rewrite EW.
    + rewrite lookup_insert_ne by done. rewrite HW1, HU1. apply (inv_fresh _ HI).
Qed.


Lemma Inv_alter f w s :
  keeps_collect f -> Inv s -> Inv (upd_Watcher_heap (alter f w) s).
Proof.
  intros Hf HI. split; simpl.
  - apply (inv_nodup _ HI).
  - intros d D w0 HD Hin.
    destruct (inv_link _ HI d D w0 HD Hin) as (W0 & HW0 & Hd).
    destruct (decide (w0 = w)) as [->|Hne].
    + exists (f W0). rewrite lookup_alter_eq, HW0. split; [done|].
      destruct (Hf W0) as (_ & _ & -> & ->). done.
    + exists W0. by rewrite lookup_alter_ne.
  - intros w0 W0. destruct (decide (w0 = w)) as [->|Hne].
    + rewrite lookup_alter_eq.
      destruct (Watcher_heap s !! w) as [W|] eqn:EW; [|done].
      intros [= <-]. destruct (Hf W) as (-> & -> & -> & ->).
      apply (inv_ids _ HI w W EW).
    + rewrite lookup_alter_ne by done. apply (inv_ids _ HI).
  - intros w0 Hw0. apply (inv_fresh _ HI).
    destruct (decide (w0 = w)) as [->|Hne].
    + rewrite lookup_alter_eq in Hw0. by apply fmap_is_Some in Hw0.
    + by rewrite lookup_alter_ne in Hw0.
Qed.

Lemma teardown_eq w W V s :
  Watcher_heap s !! w = Some W -> active W = true ->
  Vm_heap s !! vm W = Some V ->
  teardown w s =
    upd_Watcher_heap (alter (W_set_active false) w)
      (foldl (unsub_step w (fun _ => False))
         (if _isBeingDestroyed V then s
          else upd_Vm_heap
                 (insert (vm W)
                    (mkVm (_watcher V) (remove (_watchers V) w)
                       (_isBeingDestroyed V))) s)
         (reverse (deps W))).
Proof. intros EW Ha EV. unfold teardown. by rewrite EW, Ha, EV. Qed.

Lemma teardown_eq_novm w W s :
  Watcher_heap s !! w = Some W -> active W = true ->
  Vm_heap s !! vm W = None ->
  teardown w s =
    upd_Watcher_heap (alter (W_set_active false) w)
      (foldl (unsub_step w (fun _ => False)) s (reverse (deps W))).
Proof. intros EW Ha EV. unfold teardown. by rewrite EW, Ha, EV. Qed.

Lemma Inv_teardown w s : Inv s -> Inv (teardown w s).
Proof.
  intros HI. destruct (Watcher_heap s !! w) as [W|] eqn:EW;
    [|unfold teardown; by rewrite EW].
  destruct (active W) eqn:Ha; [|unfold teardown; by rewrite EW, Ha].
  destruct (Vm_heap s !! vm W) as [V|] eqn:EV.
  - rewrite (teardown_eq _ _ _ _ EW Ha EV).
    apply Inv_alter; [done|]. apply Inv_unsub.
    destruct (_isBeingDestroyed V); [done|]. revert HI. by apply Inv_same.
  - rewrite (teardown_eq_novm _ _ _ EW Ha EV).
    apply Inv_alter; [done|]. by apply Inv_unsub.
Qed.

Lemma Inv_addDep w d s : Inv s -> Inv (Watcher_addDep w d s).
Proof.
  intros HI. unfold Watcher_addDep.
  destruct (Watcher_heap s !! w) as [W|] eqn:EW; [|done].
  destruct (decide (d ∈ newDepIds W)) as [|Hnew]; [done|].
  set (W' := W_set_collect _ _ _ _ _).
  assert (HI1 : Inv (upd_Watcher_heap (insert w W') s)).
  { split; simpl.
    - apply (inv_nodup _ HI).
    - intros d0 D w0 HD Hin.
      destruct (inv_link _ HI d0 D w0 HD Hin) as (W0 & HW0 & Hd).
      destruct (decide (w0 = w)) as [->|Hne].
      + exists W'. rewrite lookup_insert_eq. split; [done|].
        rewrite EW in HW0. injection HW0 as <-. simpl.
        destruct Hd; [by left|right; set_solver].
      + exists W0. by rewrite lookup_insert_ne.
    - intros w0 W0. destruct (decide (w0 = w)) as [->|Hne].
      + rewrite lookup_insert_eq. intros [= <-]. simpl.
        destruct (inv_ids _ HI w W EW) as [H1 H2]. split; [done|].
        intros d0. rewrite elem_of_app, elem_of_union, list_elem_of_singleton,
          elem_of_singleton, H2. tauto.
      + rewrite lookup_insert_ne by done. apply (inv_ids _ HI).
    - intros w0. destruct (decide (w0 = w)) as [->|Hne].
      + intros _. apply (inv_fresh _ HI). by rewrite EW.
      + rewrite lookup_insert_ne by done. apply (inv_fresh _ HI). }
  destruct (decide (d ∈ depIds W)) as [|Hold]; [done|].
  split; simpl.
  - intros d0 D. destruct (decide (d0 = d)) as [->|Hne].
    + rewrite lookup_alter_eq.
      destruct (Dep_heap s !! d) as [D0|] eqn:ED; [|done].
      intros [= <-]. simpl. apply NoDup_app. split; [by eapply inv_nodup|].
      split; [|apply NoDup_singleton].
      intros x Hx Hx'. apply list_elem_of_singleton in Hx' as ->.
      destruct (inv_link _ HI d D0 w ED Hx) as (W0 & HW0 & Hd).
      rewrite EW in HW0. injection HW0 as <-. tauto.
    + rewrite lookup_alter_ne by done. apply (inv_nodup _ HI).
  - intros d0 D w0. destruct (decide (d0 = d)) as [->|Hne].
    + rewrite lookup_alter_eq.
      destruct (Dep_heap s !! d) as [D0|] eqn:ED; [|done].
      intros [= <-]. simpl. rewrite elem_of_app, list_elem_of_singleton.
      intros [Hin| ->].
      * apply (inv_link _ HI1 d D0 w0 ED Hin).
      * exists W'. rewrite lookup_insert_eq. split; [done|]. right. set_solver.
    + rewrite lookup_alter_ne by done. apply (inv_link _ HI1).
  - apply (inv_ids _ HI1).
  - apply (inv_fresh _ HI1).
Qed.

Lemma Inv_depend d s : Inv s -> Inv (Dep_depend d s).
Proof.
  intros HI. unfold Dep_depend.
  assert (HI' : Inv (log (EDepend d (Dep_target s)) s)) by (revert HI; by apply Inv_same).
  destruct (Dep_target _); [by apply Inv_addDep|done].
Qed.

Lemma Inv_new_Dep s : Inv s -> Inv (new_Dep s).2.
Proof.
  intros HI. split; simpl.
  - intros d D. destruct (decide (d = Dep_uid s)) as [->|Hne].
    + rewrite lookup_insert_eq. intros [= <-]. constructor.
    + rewrite lookup_insert_ne by done. apply (inv_nodup _ HI).
  - intros d D w. destruct (decide (d = Dep_uid s)) as [->|Hne].
    + rewrite lookup_insert_eq. intros [= <-] Hin. by apply elem_of_nil in Hin.
    + rewrite lookup_insert_ne by done. apply (inv_link _ HI).
  - apply (inv_ids _ HI).
  - apply (inv_fresh _ HI).
Qed.

Lemma Inv_constructed vm_ W b s :
  fresh_Watcher W -> Inv s -> Inv (constructed (S (Watcher_uid s)) vm_ W b s).
Proof.
  intros (H1 & H2 & H3 & H4) HI. split; simpl.
  - apply (inv_nodup _ HI).
  - intros d D w0 HD Hin.
    destruct (inv_link _ HI d D w0 HD Hin) as (W0 & HW0 & Hd).
    exists W0. split; [|done]. rewrite lookup_insert_ne; [done|].
    intros <-. assert (S (Watcher_uid s) <= Watcher_uid s); [|lia].
    apply (inv_fresh _ HI). by rewrite HW0.
  - intros w0 W0. destruct (decide (w0 = S (Watcher_uid s))) as [->|Hne].
    + rewrite lookup_insert_eq. intros [= <-]. rewrite H1, H2, H3, H4.
      split; intros d; by rewrite elem_of_nil, elem_of_empty.
    + rewrite lookup_insert_ne by done. apply (inv_ids _ HI).
  - intros w0. destruct (decide (w0 = S (Watcher_uid s))) as [->|Hne]; [done|].
    rewrite lookup_insert_ne by done. intros Hw0.
    apply (inv_fresh _ HI) in Hw0. lia.
Qed.

Lemma respects_R_inv : respects R_inv.
Proof.
  split; unfold R_inv.
  - done.
  - auto.
  - intros s s'. apply Inv_same_graph.
  - intros s s2 H HI. assert (Inv s2) as HI2 by (apply H; revert HI; by apply Inv_same).
    revert HI2. by apply Inv_same.
  - intros w s s2 _ H HI. apply Inv_cleanupDeps.
    assert (Inv s2) as HI2 by (apply H; revert HI; by apply Inv_same).
    revert HI2. by apply Inv_same.
  - intros d s. by apply Inv_same.
  - intros w s. by apply Inv_same.
  - intros d s. apply Inv_depend.
  - intros w s. apply Inv_teardown.
  - intros s. apply Inv_new_Dep.
  - intros w v s. by apply Inv_alter.
  - intros w b s. by apply Inv_alter.
  - intros vm_ W b s. apply Inv_constructed.
Qed.

(** ** What the steps on the graph leave alone *)


Lemma same_ctx_unsub w K `{!forall d, Decision (K d)} l s :
  same_ctx s (foldl (unsub_step w K) s l)
  /\ Watcher_heap (foldl (unsub_step w K) s l) = Watcher_heap s.
Proof.
  destruct (unsub_other w K l s) as [_ ->]. by repeat split.
Qed.

Lemma same_ctx_cleanupDeps w s : same_ctx s (cleanupDeps w s).
Proof.
  destruct (Watcher_heap s !! w) as [W|] eqn:EW.
  - rewrite (cleanupDeps_eq _ _ _ EW).
    destruct (same_ctx_unsub w (fun d => d ∈ newDepIds W) (reverse (deps W)) s)
      as [Hc _].
    exact Hc.
  - unfold cleanupDeps. rewrite EW. by repeat split.
Qed.

Lemma teardown_cases w s :
  teardown w s = s
  \/ exists W s1, Watcher_heap s !! w = Some W /\ active W = true
       /\ (s1 = s \/ exists f, s1 = upd_Vm_heap f s)
       /\ teardown w s =
            upd_Watcher_heap (alter (W_set_active false) w)
              (foldl (unsub_step w (fun _ => False)) s1 (reverse (deps W))).
Proof.
  destruct (Watcher_heap s !! w) as [W|] eqn:EW;
    [|left; unfold teardown; by rewrite EW].
  destruct (active W) eqn:Ha; [|left; unfold teardown; by rewrite EW, Ha].
  right. exists W. destruct (Vm_heap s !! vm W) as [V|] eqn:EV.
  - rewrite (teardown_eq _ _ _ _ EW Ha EV).
    eexists. split; [done|]. split; [done|]. split; [|done].
    destruct (_isBeingDestroyed V); [by left|right; by eexists].
  - rewrite (teardown_eq_novm _ _ _ EW Ha EV).
    exists s. repeat split; try done. by left.
Qed.

Lemma same_ctx_teardown w s : same_ctx s (teardown w s).
Proof.
  destruct (teardown_cases w s) as [->|(W & s1 & _ & _ & Hg & ->)];
    [by repeat split|].
  destruct (same_ctx_unsub w (fun _ => False) (reverse (deps W)) s1)
    as [Hc _].
  destruct Hg as [->|[f ->]]; exact Hc.
Qed.

Lemma same_ctx_addDep w d s : same_ctx s (Watcher_addDep w d s).
Proof.
  unfold Watcher_addDep. destruct (Watcher_heap s !! w); [|by repeat split].
  destruct (decide _); [by repeat split|].
  destruct (decide _); by repeat split.
Qed.

Lemma Dep_depend_ctx d s :
  targetStack (Dep_depend d s) = targetStack s
  /\ Dep_target (Dep_depend d s) = Dep_target s
  /\ trace (Dep_depend d s) = trace s ++ [EDepend d (Dep_target s)]
  /\ Watcher_uid (Dep_depend d s) = Watcher_uid s.
Proof.
  unfold Dep_depend. simpl. destruct (Dep_target s) as [w|] eqn:Et;
    [|by repeat split].
  destruct (same_ctx_addDep w d (log (EDepend d (Some w)) s))
    as (H1 & H2 & H3 & H4 & H5).
  rewrite H1, H2, H3, H4. by repeat split.
Qed.

(** ** Pushes and pops are paired *)

Lemma popTarget_pushTarget t s :
  targetStack (popTarget (pushTarget t s)) = targetStack s
  /\ Dep_target (popTarget (pushTarget t s)) = List.last (targetStack s) None.
Proof. unfold popTarget, pushTarget. simpl. by rewrite removelast_last. Qed.

Lemma consistent_pushTarget t s : consistent (pushTarget t s).
Proof. unfold consistent, pushTarget. simpl. by rewrite last_last. Qed.

Lemma consistent_popTarget s : consistent (popTarget s).
Proof. done. Qed.

Lemma R_bal_bracket t s a s2 s' :
  targetStack a = targetStack s -> 
  targetStack s' = targetStack (popTarget s2) ->
  Dep_target s' = Dep_target (popTarget s2) ->
  R_bal (pushTarget t a) s2 -> R_bal s s'.
Proof.
  intros Ha Hs1 Hs2 H Hc.
  destruct (H (consistent_pushTarget t a)) as [H1 H2].
  rewrite Hs1, Hs2. unfold popTarget. simpl. rewrite H1. simpl.
  rewrite removelast_last, Ha. split; [done|]. by rewrite Hc.
Qed.

Lemma respects_R_bal : respects R_bal.
Proof.
  split.
  - by intros s _.
  - intros s1 s2 s3 H12 H23 Hc. destruct (H12 Hc) as [H1 H2].
    destruct H23 as [H3 H4]; [unfold consistent; by rewrite H1, H2|].
    split; congruence.
  - intros s s' (_ & _ & H3 & H4 & _) _. by split.
  - intros s s2. by apply R_bal_bracket.
  - intros w s s2 _.
    destruct (same_ctx_cleanupDeps w (popTarget s2)) as (H1 & H2 & _).
    by apply R_bal_bracket.
  - by intros d s _.
  - by intros w s _.
  - intros d s _. destruct (Dep_depend_ctx d s) as (H1 & H2 & _). by split.
  - intros w s _. destruct (same_ctx_teardown w s) as (H1 & H2 & _). by split.
  - by intros s _.
  - by intros w v s _.
  - by intros w b s _.
  - by intros vm_ W b s _ _.
Qed.

Lemma respects_R_trace : respects R_trace.
Proof.
  split; unfold R_trace.
  - intros s. exists []. by rewrite app_nil_r.
  - intros s1 s2 s3 [l1 H1] [l2 H2]. exists (l1 ++ l2).
    by rewrite H2, H1, app_assoc.
  - intros s s' (_ & _ & _ & _ & _ & _ & H). exists []. by rewrite app_nil_r.
  - intros s s2 [l H]. exists l. apply H.
  - intros w s s2 _ [l H]. exists (EGet w :: l).
    destruct (same_ctx_cleanupDeps w (popTarget s2)) as (_ & _ & -> & _).
    simpl. rewrite H. simpl. by rewrite <- app_assoc.
  - intros d s. by eexists.
  - intros w s. by eexists.
  - intros d s. destruct (Dep_depend_ctx d s) as (_ & _ & -> & _). by eexists.
  - intros w s. destruct (same_ctx_teardown w s) as (_ & _ & -> & _).
    exists []. by rewrite app_nil_r.
  - intros s. exists []. by rewrite app_nil_r.
  - intros w v s. exists []. by rewrite app_nil_r.
  - intros w b s. exists []. by rewrite app_nil_r.
  - intros vm_ W b s _. exists []. by rewrite app_nil_r.
Qed.

(** ** What one pass of a Watcher collects *)


Lemma R_collect_keep w s s' seg :
  (Inv s -> Inv s') ->
  trace s' = trace s ++ seg ->
  (forall d, EDepend d (Some w) ∉ seg) ->
  (Inv s -> forall W, Watcher_heap s !! w = Some W ->
     exists W', Watcher_heap s' !! w = Some W'
       /\ deps W' = deps W /\ depIds W' = depIds W
       /\ newDepIds W' = newDepIds W) ->
  R_collect w s s'.
Proof.
  intros HI Ht Hseg HW. split; [done|]. exists seg. split; [done|].
  intros _ HIs W EW. destruct (HW HIs W EW) as (W' & EW' & H1 & H2 & H3).
  exists W'. repeat split; try done.
  - rewrite H3. by left.
  - rewrite H3. intros [?|?]; [done|]. by destruct (Hseg d).
Qed.

Lemma R_collect_wrap w s a b s' pre :
  (Inv s -> Inv a) -> trace a = trace s ++ pre ->
  Watcher_heap a = Watcher_heap s ->
  (Inv b -> Inv s') -> trace s' = trace b ->
  (EGet w ∉ pre -> Watcher_heap s' !! w = Watcher_heap b !! w) ->
  (forall d, EDepend d (Some w) ∉ pre) ->
  R_collect w a b -> R_collect w s s'.
Proof.
  intros HIa Hta Hwa HIb Htb Hwb Hpre [HI (seg & Ht & HW)].
  split; [auto|]. exists (pre ++ seg). split.
  - by rewrite Htb, Ht, Hta, app_assoc.
  - intros Hno HIs W EW.
    assert (EGet w ∉ pre) as Hno1 by (intros ?; apply Hno, elem_of_app; by left).
    assert (EGet w ∉ seg) as Hno2 by (intros ?; apply Hno, elem_of_app; by right).
    rewrite <- Hwa in EW.
    destruct (HW Hno2 (HIa HIs) W EW) as (W' & EW' & H1 & H2 & H3).
    exists W'. rewrite (Hwb Hno1). repeat split; try done.
    + intros Hd. apply H3 in Hd as [?|?]; [by left|right].
      apply elem_of_app. by right.
    + intros [?|Hd]; apply H3; [by left|right].
      apply elem_of_app in Hd as [Hd|Hd]; [by destruct (Hpre d)|done].
Qed.

Lemma cleanupDeps_lookup_ne w w0 s :
  w <> w0 -> Watcher_heap (cleanupDeps w0 s) !! w = Watcher_heap s !! w.
Proof.
  intros Hne. destruct (Watcher_heap s !! w0) as [W|] eqn:EW.
  - rewrite (cleanupDeps_eq _ _ _ EW). simpl. rewrite lookup_insert_ne by done.
    by destruct (same_ctx_unsub w0 (fun d => d ∈ newDepIds W) (reverse (deps W)) s)
      as [_ ->].
  - unfold cleanupDeps. by rewrite EW.
Qed.

Lemma teardown_lookup w w0 s W :
  Watcher_heap s !! w = Some W ->
  exists W', Watcher_heap (teardown w0 s) !! w = Some W'
    /\ deps W' = deps W /\ depIds W' = depIds W /\ newDepIds W' = newDepIds W.
Proof.
  intros EW.
  destruct (teardown_cases w0 s) as [->|(W0 & s1 & _ & _ & Hg & ->)];
    [by exists W|].
  destruct (same_ctx_unsub w0 (fun _ => False) (reverse (deps W0)) s1)
    as [_ Hh].
  assert (G6 : Watcher_heap s1 = Watcher_heap s) by (by destruct Hg as [->|[f ->]]).
  simpl. rewrite Hh, G6.
  destruct (decide (w = w0)) as [->|Hne].
  - rewrite lookup_alter_eq, EW. by eexists.
  - rewrite lookup_alter_ne by done. by exists W.
Qed.

Lemma addDep_lookup_ne w w0 d s :
  w <> w0 -> Watcher_heap (Watcher_addDep w0 d s) !! w = Watcher_heap s !! w.
Proof.
  intros Hne. unfold Watcher_addDep.
  destruct (Watcher_heap s !! w0); [|done]. destruct (decide _); [done|].
  destruct (decide _); simpl; by rewrite lookup_insert_ne.
Qed.

Lemma addDep_lookup w d s W :
  Watcher_heap s !! w = Some W ->
  exists W', Watcher_heap (Watcher_addDep w d s) !! w = Some W'
    /\ deps W' = deps W /\ depIds W' = depIds W
    /\ (forall d0, d0 ∈ newDepIds W' <-> d0 ∈ newDepIds W \/ d0 = d).
Proof.
  intros EW. unfold Watcher_addDep. rewrite EW.
  destruct (decide (d ∈ newDepIds W)) as [Hin|Hnin].
  - exists W. repeat split; try done; [by left|]. by intros [?| ->].
  - eexists. split.
    + destruct (decide _); simpl; by rewrite lookup_insert_eq.
    + simpl. repeat split; try done; set_solver.
Qed.

Lemma respects_R_collect w : respects (R_collect w).
Proof.
  split.
  - intros s. apply (R_collect_keep w s s []); try done.
    + by rewrite app_nil_r.
    + intros d. apply not_elem_of_nil.
    + intros _ W EW. by exists W.
  - intros s1 s2 s3 [HI1 (l1 & Ht1 & HW1)] [HI2 (l2 & Ht2 & HW2)].
    split; [auto|]. exists (l1 ++ l2). split; [by rewrite Ht2, Ht1, app_assoc|].
    intros Hno HIs W EW.
    assert (EGet w ∉ l1) as Hno1 by (intros ?; apply Hno, elem_of_app; by left).
    assert (EGet w ∉ l2) as Hno2 by (intros ?; apply Hno, elem_of_app; by right).
    destruct (HW1 Hno1 HIs W EW) as (W1 & EW1 & A1 & A2 & A3).
    destruct (HW2 Hno2 (HI1 HIs) W1 EW1) as (W2 & EW2 & B1 & B2 & B3).
    exists W2. repeat split; try congruence.
    + intros Hd. apply B3 in Hd as [Hd|Hd].
      * apply A3 in Hd as [?|?]; [by left|right]. apply elem_of_app. by left.
      * right. apply elem_of_app. by right.
    + intros [Hd|Hd]; apply B3.
      * left. apply A3. by left.
      * apply elem_of_app in Hd as [Hd|Hd]; [left; apply A3; by right|by right].
  - intros s s' Hg. pose proof Hg as (_ & _ & _ & _ & _ & G6 & G7).
    apply (R_collect_keep w s s' []).
    + by apply Inv_same_graph.
    + by rewrite app_nil_r.
    + intros d. apply not_elem_of_nil.
    + intros _ W EW. exists W. by rewrite G6.
  - intros s s2. apply (R_collect_wrap w s _ s2 _ []); try done.
    + by apply Inv_same.
    + simpl. by rewrite app_nil_r.
    + by apply Inv_same.
    + intros d. apply not_elem_of_nil.
  - intros w0 s s2 _. apply (R_collect_wrap w s _ s2 _ [EGet w0]); try done.
    + by apply Inv_same.
    + intros HI. apply Inv_cleanupDeps. revert HI. by apply Inv_same.
    + by destruct (same_ctx_cleanupDeps w0 (popTarget s2)) as (_ & _ & -> & _).
    + intros Hno. rewrite cleanupDeps_lookup_ne; [done|].
      intros ->. apply Hno. by apply list_elem_of_singleton.
    + intros d Hd. by apply list_elem_of_singleton in Hd.
  - intros d s. apply (R_collect_keep w s _ [ENotify d]); try done.
    + by apply Inv_same.
    + intros d0 Hd. by apply list_elem_of_singleton in Hd.
    + intros _ W EW. by exists W.
  - intros w0 s. apply (R_collect_keep w s _ [EUpdate w0]); try done.
    + by apply Inv_same.
    + intros d0 Hd. by apply list_elem_of_singleton in Hd.
    + intros _ W EW. by exists W.
  - intros d s. split; [apply Inv_depend|].
    destruct (Dep_depend_ctx d s) as (_ & _ & Ht & _).
    eexists. split; [exact Ht|]. intros _ _ W EW.
    unfold Dep_depend. simpl. destruct (Dep_target s) as [t|] eqn:Et.
    + destruct (decide (t = w)) as [->|Hne].
      * destruct (addDep_lookup w d (log (EDepend d (Some w)) s) W EW)
          as (W' & EW' & A1 & A2 & A3).
        exists W'. repeat split; try done.
        -- intros Hd. apply A3 in Hd as [?| ->]; [by left|right].
           by apply list_elem_of_singleton.
        -- intros [?|Hd]; apply A3; [by left|right].
           apply list_elem_of_singleton in Hd. by injection Hd.
      * exists W. rewrite addDep_lookup_ne by done. repeat split; try done.
        -- by left.
        -- intros [?|Hd]; [done|]. apply list_elem_of_singleton in Hd. congruence.
    + exists W. repeat split; try done; [by left|].
      intros [?|Hd]; [done|]. by apply list_elem_of_singleton in Hd.
  - intros w0 s. apply (R_collect_keep w s _ []).
    + apply Inv_teardown.
    + destruct (same_ctx_teardown w0 s) as (_ & _ & -> & _). by rewrite app_nil_r.
    + intros d. apply not_elem_of_nil.
    + intros _ W EW. by apply teardown_lookup.
  - intros s. apply (R_collect_keep w s _ []); try done.
    + apply Inv_new_Dep.
    + simpl. by rewrite app_nil_r.
    + intros d. apply not_elem_of_nil.
    + intros _ W EW. by exists W.
  - intros w0 v s. apply (R_collect_keep w s _ []).
    + by apply Inv_alter.
    + simpl. by rewrite app_nil_r.
    + intros d. apply not_elem_of_nil.
    + intros _ W EW. simpl. destruct (decide (w = w0)) as [->|Hne].
      * rewrite lookup_alter_eq, EW. by eexists.
      * rewrite lookup_alter_ne by done. by exists W.
  - intros w0 b s. apply (R_collect_keep w s _ []).
    + by apply Inv_alter.
    + simpl. by rewrite app_nil_r.
    + intros d. apply not_elem_of_nil.
    + intros _ W EW. simpl. destruct (decide (w = w0)) as [->|Hne].
      * rewrite lookup_alter_eq, EW. by eexists.
      * rewrite lookup_alter_ne by done. by exists W.
  - intros vm_ W0 b s HW0. apply (R_collect_keep w s _ []).
    + by apply Inv_constructed.
    + simpl. by rewrite app_nil_r.
    + intros d. apply not_elem_of_nil.
    + intros HI W EW. exists W. simpl. rewrite lookup_insert_ne; [done|].
      intros <-. assert (S (Watcher_uid s) <= Watcher_uid s); [|lia].
      apply (inv_fresh _ HI). by rewrite EW.
Qed.

Lemma traversed_errors traverse W v s :
  errors (traversed traverse W v s) = errors s.
Proof.
  unfold traversed. destruct (deep W); [|done].
  generalize (traverse s v). intros l. revert s.
  induction l as [|d l IH]; intros s; simpl; [done|].
  rewrite IH. unfold Dep_depend. simpl.
  destruct (Dep_target s) as [w|]; [|done].
  by destruct (same_ctx_addDep w d (log (EDepend d (Some w)) s))
    as (_ & _ & _ & _ & _ & -> & _).
Qed.

Lemma errors_get_finish traverse w W v s :
  errors (cleanupDeps w (popTarget (traversed traverse W v s))) = errors s.
Proof.
  destruct (same_ctx_cleanupDeps w (popTarget (traversed traverse W v s)))
    as (_ & _ & _ & _ & _ & -> & _).
  simpl. apply traversed_errors.
Qed.

Lemma Watcher_update_eq traverse rec w W s :
  Watcher_heap s !! w = Some W ->
  Watcher_update traverse rec w s =
    if lazy W
    then Some (Val tt, upd_Watcher_heap (alter (W_set_dirty true) w)
                         (log (EUpdate w) s))
    else if sync W then Watcher_run traverse rec w (log (EUpdate w) s)
    else Some (Val tt, queueWatcher w (log (EUpdate w) s)).
Proof.
  intros EW. unfold Watcher_update, bind at 1, modify at 1.
  unfold bind at 1, gets at 1. simpl. rewrite EW.
  by destruct (lazy W), (sync W).
Qed.

Lemma get_try_throw rec W s0 e s1 :
  call rec (getter W) s0 = Some (Exn e, s1) ->
  get_try rec W s0 =
    if user W then Some (Val VUndef, handleError e (vm W) (getter_label W) s1)
    else Some (Exn e, s1).
Proof.
  intros Hg. unfold get_try, catch, bind at 1, attempt at 1. rewrite Hg.
  by destruct (user W).
Qed.

Lemma get_try_return rec W s0 v s1 :
  call rec (getter W) s0 = Some (Val v, s1) ->
  get_try rec W s0 = Some (Val v, s1).
Proof.
  intros Hg. unfold get_try, catch, bind at 1, attempt at 1. by rewrite Hg.
Qed.

(** ** The claims *)

(** C7. Pushes and pops of the evaluation context are strictly paired.
    [pushTarget] puts its argument on the stack and makes it [Dep.target];
    [popTarget] undoes [pushTarget], leaving [Dep.target] at the entry below
    on the stack; and whenever [Dep.target] is the top of the stack, running
    [Watcher.get] (or any script, with whatever evaluations it nests), to a
    normal end or to a thrown error, leaves [targetStack] and [Dep.target] as
    they were, [Dep.target] again being the top of the stack.

    [Watcher.get] pushes the Watcher itself: its getter is called in a state
    where [Dep.target] is the Watcher, on top of the stack that [get] found,
    and [popTarget] comes after the getter however it ends.  Attribution is
    not ambiguous: whatever script has run inside the evaluation, with the
    evaluations it nests, [Dep.target] is again the Watcher and the stack the
    same when it ends, so a [depend()] that follows is recorded for the
    Watcher and is passed to the [addDep] of the Watcher. *)
Theorem push_pop_paired E traverse fuel s r s' :
  consistent s ->
  (forall t,
     targetStack (popTarget (pushTarget t s)) = targetStack s
     /\ Dep_target (popTarget (pushTarget t s)) = Dep_target s)
  /\ (forall w,
        Watcher_get traverse (knot_at E traverse fuel) w s = Some (r, s') ->
        targetStack s' = targetStack s /\ Dep_target s' = Dep_target s
        /\ consistent s')
  /\ (forall p,
        k_exec (knot_at E traverse fuel) p s = Some (r, s') ->
        targetStack s' = targetStack s /\ Dep_target s' = Dep_target s
        /\ consistent s')
  /\ (forall t,
        Dep_target (pushTarget t s) = t
        /\ targetStack (pushTarget t s) = targetStack s ++ [t])
  /\ (forall w W,
        Watcher_heap s !! w = Some W ->
        let s0 := pushTarget (Some w) (log (EGet w) s) in
        Dep_target s0 = Some w
        /\ targetStack s0 = targetStack s ++ [Some w]
        /\ Watcher_get traverse (knot_at E traverse fuel) w s
           = match get_try (knot_at E traverse fuel) W s0 with
             | None => None
             | Some (r0, s2) =>
                 Some (r0, cleanupDeps w
                             (popTarget
                                (traversed traverse W (completion_value r0) s2)))
             end
        /\ (forall p r1 s1,
              k_exec (knot_at E traverse fuel) p s0 = Some (r1, s1) ->
              Dep_target s1 = Some w
              /\ targetStack s1 = targetStack s ++ [Some w]
              /\ forall d,
                   Dep_depend d s1
                   = Watcher_addDep w d (log (EDepend d (Some w)) s1)
                   /\ trace (log (EDepend d (Some w)) s1)
                      = trace s1 ++ [EDepend d (Some w)])).
Proof.
  intros Hc. split; [|split; [|split; [|split]]]; cycle 3.
  { intros t. by split. }
  { intros w W EW. cbv zeta. split; [done|]. split; [done|].
    split; [by apply Watcher_get_eq|].
    intros p r1 s1 Hp.
    destruct (stable_knot R_bal respects_R_bal E traverse fuel) as (Hx & _).
    destruct (Hx p _ r1 s1 Hp (consistent_pushTarget (Some w) (log (EGet w) s)))
      as [H1 H2].
    assert (Ht : Dep_target s1 = Some w) by (by rewrite H2).
    split; [exact Ht|]. split; [by rewrite H1|].
    intros d. split; [|done]. unfold Dep_depend. cbv zeta.
    replace (Dep_target (log (EDepend d (Dep_target s1)) s1)) with (Dep_target s1)
      by done.
    by rewrite Ht. }
  - intros t. destruct (popTarget_pushTarget t s) as [H1 H2]. by rewrite H1, H2.
  - intros w Hget.
    pose proof (stable_Watcher_get R_bal respects_R_bal traverse _
                  (stable_knot R_bal respects_R_bal E traverse fuel) w
                  s r s' Hget Hc) as [H1 H2].
    repeat split; [done|done|]. unfold consistent. by rewrite H1, H2.
  - intros p Hp.
    destruct (stable_knot R_bal respects_R_bal E traverse fuel) as (Hx & _).
    destruct (Hx p s r s' Hp Hc) as [H1 H2].
    repeat split; [done|done|]. unfold consistent. by rewrite H1, H2.
Qed.

(** C4. A Watcher is listed at most once among the subscribers of a Dep,
    whatever is run: from a well-formed subscription graph every script,
    with all the evaluations it causes, leads to a well-formed one, where
    no [subs] array has a duplicate; and [addDep] calls [addSub] only for a
    Dep whose id is in neither [newDepIds] nor [depIds]. *)
Theorem subscribed_at_most_once E traverse fuel p s r s' :
  Inv s ->
  k_exec (knot_at E traverse fuel) p s = Some (r, s') ->
  Inv s'
  /\ (forall d D, Dep_heap s' !! d = Some D -> NoDup (subs D))
  /\ (forall w d W, Watcher_heap s' !! w = Some W ->
        Dep_heap (Watcher_addDep w d s')
        = if decide (d ∈ newDepIds W \/ d ∈ depIds W) then Dep_heap s'
          else Dep_heap (Dep_addSub d w s')).
Proof.
  intros HI Hp.
  destruct (stable_knot R_inv respects_R_inv E traverse fuel) as (Hx & _).
  pose proof (Hx p s r s' Hp HI) as HI'.
  split; [done|]. split; [apply (inv_nodup _ HI')|].
  intros w d W EW. unfold Watcher_addDep. rewrite EW.
  destruct (decide (d ∈ newDepIds W)) as [Hn|Hn].
  - rewrite decide_True; [done|by left].
  - destruct (decide (d ∈ depIds W)) as [Ho|Ho].
    + rewrite decide_True; [done|by right].
    + rewrite decide_False; [done|]. by intros [?|?].
Qed.

(** C9. [update] dispatches on the flags of the Watcher.  A lazy Watcher
    only gets [dirty = true]: afterwards its [dirty] flag is true, whatever
    it was, its value and its Deps are the ones it had, every other Watcher
    and every Dep is untouched, and nothing has been evaluated (the call log
    has grown by this [update] alone).  Otherwise a sync Watcher runs [run]
    at once; otherwise the Watcher is handed to [queueWatcher], which touches
    the scheduler's queue and nothing else: no Watcher is evaluated, and the
    Watcher is in the queue afterwards if it was not yet marked as queued. *)
Theorem update_dispatch traverse rec w W s :
  Watcher_heap s !! w = Some W ->
  (lazy W = true ->
     Watcher_update traverse rec w s
     = Some (Val tt, upd_Watcher_heap (alter (W_set_dirty true) w)
                       (log (EUpdate w) s))
     /\ (exists s' W',
           Watcher_update traverse rec w s = Some (Val tt, s')
           /\ Watcher_heap s' !! w = Some W'
           /\ dirty W' = true
           /\ value W' = value W /\ deps W' = deps W /\ active W' = active W
           /\ (forall w', w' <> w -> Watcher_heap s' !! w' = Watcher_heap s !! w')
           /\ Dep_heap s' = Dep_heap s
           /\ trace s' = trace s ++ [EUpdate w]))
  /\ (lazy W = false -> sync W = true ->
        Watcher_update traverse rec w s
        = Watcher_run traverse rec w (log (EUpdate w) s))
  /\ (lazy W = false -> sync W = false ->
        Watcher_update traverse rec w s
        = Some (Val tt, queueWatcher w (log (EUpdate w) s))
        /\ same_graph (log (EUpdate w) s) (queueWatcher w (log (EUpdate w) s))
        /\ w ∈ has (sched (queueWatcher w (log (EUpdate w) s)))
        /\ (w ∉ has (sched s) ->
            w ∈ queue (sched (queueWatcher w (log (EUpdate w) s))))).
Proof.
  intros EW. rewrite (Watcher_update_eq _ _ _ _ _ EW).
  split; [|split].
  - intros ->. split; [done|].
    exists (upd_Watcher_heap (alter (W_set_dirty true) w) (log (EUpdate w) s)),
      (W_set_dirty true W).
    split; [done|]. split; [simpl; by rewrite lookup_alter_eq, EW|].
    split; [done|]. split; [done|]. split; [done|]. split; [done|].
    split; [|done]. intros w' Hne. simpl. by rewrite lookup_alter_ne.
  - by intros -> ->.
  - intros -> ->. split; [done|]. split; [|split].
    + unfold queueWatcher. destruct (decide _); by repeat split.
    + unfold queueWatcher. destruct (decide _) as [Hin|Hnin]; [done|].
      simpl. set_solver.
    + intros Hnew. unfold queueWatcher. simpl.
      rewrite decide_False by done. simpl.
      assert (Hins : forall l, w ∈ insert_sorted w l).
      { induction l as [|x l IH]; simpl; [by left|].
        destruct (decide (w < x)); [by left|by right]. }
      destruct (flushing (sched s)); [|apply elem_of_app; right; by left].
      destruct (queue (sched s) !! index (sched s)) as [cur|];
        [|apply elem_of_app; right; by left].
      destruct (decide (cur < w)); [|apply elem_of_app; right; by left].
      apply elem_of_app. right. apply Hins.
Qed.

(** C6. Errors of the evaluation function and of the callback.  When the
    getter of a Watcher throws [e], [get] throws [e] to its caller if the
    Watcher is not user-defined, and otherwise returns [undefined] after
    [handleError] has been given [e] and the label naming the expression of
    the Watcher.  When the callback of a user-defined Watcher throws in [run],
    [run] returns normally after [handleError] has been given the error. *)
Theorem errors_caught_or_propagated traverse rec w W s e :
  Watcher_heap s !! w = Some W ->
  (forall s1,
     call rec (getter W) (pushTarget (Some w) (log (EGet w) s)) = Some (Exn e, s1) ->
     (user W = false ->
        exists s', Watcher_get traverse rec w s = Some (Exn e, s')
                   /\ errors s' = errors s1)
     /\ (user W = true ->
           exists s', Watcher_get traverse rec w s = Some (Val VUndef, s')
             /\ errors s'
                = errors s1
                  ++ [(e, "getter for watcher " +:+ dquote +:+ expression W
                          +:+ dquote)]))
  /\ (forall v s1 s2,
        active W = true -> user W = true ->
        Watcher_get traverse rec w s = Some (Val v, s1) ->
        negb (strict_eq v (default VUndef (value <$> Watcher_heap s1 !! w)))
        || isObject v || deep W = true ->
        call rec (cb W v (default VUndef (value <$> Watcher_heap s1 !! w)))
          (upd_Watcher_heap (alter (W_set_value v) w) s1) = Some (Exn e, s2) ->
        Watcher_run traverse rec w s
        = Some (Val tt,
                handleError e (vm W)
                  ("callback for watcher " +:+ dquote +:+ expression W +:+ dquote)
                  s2)).
Proof.
  intros EW. split.
  - intros s1 Hg. rewrite (Watcher_get_eq _ _ _ _ _ EW).
    rewrite (get_try_throw _ _ _ _ _ Hg).
    split; intros ->.
    + eexists. split; [reflexivity|]. apply errors_get_finish.
    + eexists. split; [reflexivity|]. by rewrite errors_get_finish.
  - intros v s1 s2 Ha Hu Hget Hch Hcb.
    unfold Watcher_run, bind at 1, gets at 1. rewrite EW, Ha.
    unfold bind at 1. rewrite Hget. unfold bind at 1, gets at 1. rewrite Hch.
    unfold bind at 1, modify at 1. rewrite Hu.
    unfold catch, bind at 1, attempt at 1, bind at 1. by rewrite Hcb.
Qed.

Lemma notify_subs_perm E s d : notify_subs E s d ≡ₚ subs (the_Dep s d).
Proof.
  unfold notify_subs. destruct (negb (production E) && negb (async E)); [|done].
  apply merge_sort_Permutation.
Qed.

Lemma the_Dep_unsub w K `{!forall d, Decision (K d)} l s d :
  (forall D, Dep_heap s !! d = Some D -> NoDup (subs D)) ->
  d ∈ l -> ~ K d ->
  w ∉ subs (the_Dep (foldl (unsub_step w K) s l) d).
Proof.
  intros Hnd Hd HK. unfold the_Dep.
  destruct (unsub_lookup w K l s d) as (n & -> & Hpos & _).
  destruct (Dep_heap s !! d) as [D|] eqn:ED; simpl; [|apply not_elem_of_nil].
  apply not_elem_of_removes; [by apply Hnd|by apply Hpos].
Qed.

(** What [get] leaves behind, from the state in which its getter ended. *)
Lemma get_finish_collect w W3 s3 :
  Inv s3 ->
  Watcher_heap s3 !! w = Some W3 ->
  let s' := cleanupDeps w (popTarget s3) in
  exists W', Watcher_heap s' !! w = Some W'
    /\ deps W' = newDeps W3 /\ depIds W' = newDepIds W3
    /\ newDeps W' = [] /\ newDepIds W' = ∅
    /\ (forall d, d ∈ deps W3 -> d ∉ newDepIds W3 -> w ∉ subs (the_Dep s' d)).
Proof.
  intros HI EW s'. subst s'.
  assert (EW' : Watcher_heap (popTarget s3) !! w = Some W3) by done.
  rewrite (cleanupDeps_eq _ _ _ EW'). eexists. split; [apply lookup_insert_eq|].
  simpl. repeat split; try done.
  intros d Hd Hn. unfold the_Dep. simpl.
  apply (the_Dep_unsub w (fun d0 => d0 ∈ newDepIds W3)); [|by apply elem_of_reverse|done].
  apply (inv_nodup _ HI).
Qed.

(** C1 (amended). Take a Watcher that is not in the middle of a pass (its
    [newDepIds] is empty) and an evaluation [get] of it that ends, normally
    or by a thrown error, without [get] having been entered again for the same
    Watcher in between.  Then its [deps] are exactly the Deps whose [depend]
    ran during the evaluation with this Watcher as [Dep.target]; the Watcher is
    no longer a subscriber of any Dep of the previous pass that this pass did
    not touch; and [notify] on such a Dep does not walk over the Watcher, so
    its [update] is not invoked. *)
Theorem get_collects_exactly E traverse fuel w W s r s' seg :
  Inv s ->
  Watcher_heap s !! w = Some W ->
  newDepIds W = ∅ ->
  Watcher_get traverse (knot_at E traverse fuel) w s = Some (r, s') ->
  trace s' = trace s ++ EGet w :: seg ->
  EGet w ∉ seg ->
  exists W',
    Watcher_heap s' !! w = Some W'
    /\ (forall d, d ∈ deps W' <-> (EDepend d (Some w) ∈ seg))
    /\ (forall d, d ∈ deps W -> EDepend d (Some w) ∉ seg ->
          (w ∉ subs (the_Dep s' d)) /\ (w ∉ notify_subs E s' d))
    /\ newDeps W' = [] /\ newDepIds W' = ∅
    /\ Inv s'.
Proof.
  intros HI EW Hnew Hget Htr Hno.
  pose proof (stable_knot (R_collect w) (respects_R_collect w) E traverse fuel) as Hk.
  pose proof (stable_Watcher_get R_inv respects_R_inv traverse _
                (stable_knot R_inv respects_R_inv E traverse fuel) w
                s r s' Hget HI) as HI'.
  rewrite (Watcher_get_eq _ _ _ _ _ EW) in Hget.
  destruct (get_try _ W _) as [[r1 s2]|] eqn:Eb; [|done].
  injection Hget as <- <-.
  set (s1 := pushTarget (Some w) (log (EGet w) s)) in *.
  set (s3 := traversed traverse W (completion_value r1) s2) in *.
  assert (HR : R_collect w s1 s3).
  { eapply (r_trans _ (respects_R_collect w)).
    - eapply (stable_get_try _ (respects_R_collect w) _ Hk), Eb.
    - apply (traversed_R _ (respects_R_collect w)). }
  destruct HR as [HI13 (seg' & Ht & HW)].
  assert (HI1 : Inv s1) by (revert HI; by apply Inv_same).
  assert (Hseg : seg' = seg).
  { destruct (same_ctx_cleanupDeps w (popTarget s3)) as (_ & _ & Hc & _).
    rewrite Hc in Htr. simpl in Htr. rewrite Ht in Htr. subst s1. simpl in Htr.
    rewrite <- app_assoc in Htr. apply app_inv_head in Htr.
    simpl in Htr. by injection Htr. }
  subst seg'.
  destruct (HW Hno HI1 W EW) as (W3 & EW3 & A1 & A2 & A3).
  destruct (get_finish_collect w W3 s3 (HI13 HI1) EW3)
    as (W' & EW' & B1 & B2 & B3 & B4 & B5).
  exists W'. split; [done|]. split; [|split; [|done]].
  - intros d. rewrite B1.
    destruct (inv_ids _ (HI13 HI1) w W3 EW3) as [_ ->].
    rewrite A3, Hnew. set_solver.
  - intros d Hd Hnd.
    assert (w ∉ subs (the_Dep (cleanupDeps w (popTarget s3)) d)) as Hsub.
    { apply B5; [by rewrite A1|]. rewrite A3, Hnew. set_solver. }
    split; [done|]. by rewrite notify_subs_perm.
Qed.

Lemma subs_unsub_subset w K `{!forall d, Decision (K d)} l s d x :
  x ∈ subs (the_Dep (foldl (unsub_step w K) s l) d) -> x ∈ subs (the_Dep s d).
Proof.
  unfold the_Dep. destruct (unsub_lookup w K l s d) as (n & -> & _).
  destruct (Dep_heap s !! d) as [D|]; simpl; [|done]. apply elem_of_removes.
Qed.

Lemma teardown_inactive w s W :
  Watcher_heap s !! w = Some W -> active W = false -> teardown w s = s.
Proof. intros EW Ha. unfold teardown. by rewrite EW, Ha. Qed.

(** C8 (amended). [teardown] is idempotent: a second call returns at once
    and changes nothing.  The first call on an active Watcher sets [active]
    to false, takes the Watcher out of [_watchers] of its component unless
    the component is being destroyed, and takes it out of the subscribers of
    every Dep in its [deps]; these are all the Deps that list the Watcher
    when no pass of the Watcher is in progress ([newDepIds] is empty). *)
Theorem teardown_idempotent w s :
  teardown w (teardown w s) = teardown w s
  /\ (forall W, Watcher_heap s !! w = Some W -> active W = true ->
      (exists W', Watcher_heap (teardown w s) !! w = Some W' /\ active W' = false)
      /\ (Inv s -> forall d, d ∈ deps W -> w ∉ subs (the_Dep (teardown w s) d))
      /\ (Inv s -> newDepIds W = ∅ ->
          forall d, w ∉ subs (the_Dep (teardown w s) d))
      /\ (forall V, Vm_heap s !! vm W = Some V ->
          Vm_heap (teardown w s) !! vm W
          = Some (if _isBeingDestroyed V then V
                  else mkVm (_watcher V) (remove (_watchers V) w)
                         (_isBeingDestroyed V)))).
Proof.
  assert (Hfirst : forall W, Watcher_heap s !! w = Some W -> active W = true ->
            exists W', Watcher_heap (teardown w s) !! w = Some W' /\ active W' = false).
  { intros W EW Ha. destruct (Vm_heap s !! vm W) as [V|] eqn:EV.
    - rewrite (teardown_eq _ _ _ _ EW Ha EV). simpl. rewrite lookup_alter_eq.
      match goal with |- context [foldl _ ?s1 _] =>
        destruct (same_ctx_unsub w (fun _ => False) (reverse (deps W)) s1) as [_ ->];
        assert (G6 : Watcher_heap s1 = Watcher_heap s)
          by (by destruct (_isBeingDestroyed V))
      end.
      rewrite G6, EW. by eexists.
    - rewrite (teardown_eq_novm _ _ _ EW Ha EV). simpl. rewrite lookup_alter_eq.
      destruct (same_ctx_unsub w (fun _ => False) (reverse (deps W)) s) as [_ ->].
      rewrite EW. by eexists. }
  split.
  - destruct (Watcher_heap s !! w) as [W|] eqn:EW.
    2:{ assert (Hs : teardown w s = s) by (unfold teardown; by rewrite EW).
        by rewrite !Hs. }
    destruct (active W) eqn:Ha; [|by rewrite !(teardown_inactive w s W EW Ha)].
    destruct (Hfirst W eq_refl Ha) as (W' & EW' & Ha').
    by apply (teardown_inactive _ _ W').
  - intros W EW Ha. split; [by apply (Hfirst W)|].
    assert (Hdeps : Inv s -> forall d, d ∈ deps W -> w ∉ subs (the_Dep (teardown w s) d)).
    { intros HI d Hd. destruct (Vm_heap s !! vm W) as [V|] eqn:EV.
      - rewrite (teardown_eq _ _ _ _ EW Ha EV). unfold the_Dep at 1. simpl.
        apply (the_Dep_unsub w (fun _ => False)); [|by apply elem_of_reverse|tauto].
        destruct (_isBeingDestroyed V); apply (inv_nodup _ HI).
      - rewrite (teardown_eq_novm _ _ _ EW Ha EV). unfold the_Dep at 1. simpl.
        apply (the_Dep_unsub w (fun _ => False)); [|by apply elem_of_reverse|tauto].
        apply (inv_nodup _ HI). }
    split; [done|]. split.
    + intros HI Hnew d Hin.
      assert (w ∈ subs (the_Dep s d)) as Hin0.
      { destruct (teardown_cases w s) as [Heq|(W0 & s1 & _ & _ & Hg & Heq)].
        - by rewrite Heq in Hin.
        - rewrite Heq in Hin. unfold the_Dep at 1 in Hin. simpl in Hin.
          apply (subs_unsub_subset w (fun _ => False)) in Hin.
          by destruct Hg as [->|[f ->]]. }
      unfold the_Dep in Hin0.
      destruct (Dep_heap s !! d) as [D|] eqn:ED; [|by apply elem_of_nil in Hin0].
      destruct (inv_link _ HI d D w ED Hin0) as (W0 & EW0 & Hd).
      rewrite EW in EW0. injection EW0 as <-. rewrite Hnew in Hd.
      destruct Hd as [Hd|Hd]; [|by apply elem_of_empty in Hd].
      apply (Hdeps HI d); [|done]. by apply (inv_ids _ HI w W EW).
    + intros V EV. rewrite (teardown_eq _ _ _ _ EW Ha EV). simpl.
      destruct (_isBeingDestroyed V) eqn:EB.
      * destruct (unsub_other w (fun _ => False) (reverse (deps W)) s) as [_ ->].
        simpl. by rewrite EV.
      * match goal with |- Vm_heap (foldl _ ?s1 _) !! _ = _ =>
          destruct (unsub_other w (fun _ => False) (reverse (deps W)) s1) as [_ ->]
        end.
        simpl. by rewrite lookup_insert_eq.
Qed.


(** ** [Dep.notify] *)

Lemma Watcher_update_trace traverse rec w s r s' :
  knot_stable R_trace rec ->
  Watcher_update traverse rec w s = Some (r, s') ->
  exists seg, trace s' = trace s ++ EUpdate w :: seg.
Proof.
  intros Hk. destruct (Watcher_heap s !! w) as [W|] eqn:EW.
  - rewrite (Watcher_update_eq _ _ _ _ _ EW).
    destruct (lazy W); [|destruct (sync W)].
    + intros [= <- <-]. exists []. done.
    + intros Hrun.
      destruct (stable_Watcher_run R_trace respects_R_trace traverse rec Hk w
                  _ _ _ Hrun) as [seg Hseg].
      exists seg. rewrite Hseg. simpl. by rewrite <- app_assoc.
    + intros [= <- <-]. exists [].
      by destruct (same_graph_queueWatcher w (log (EUpdate w) s))
        as (_ & _ & _ & _ & _ & _ & ->).
  - unfold Watcher_update, bind at 1, modify at 1, bind at 1, gets at 1.
    simpl. rewrite EW. intros [= <- <-]. by exists [].
Qed.

Lemma walk_trace traverse rec l s r s' :
  knot_stable R_trace rec ->
  for_each (Watcher_update traverse rec) l s = Some (r, s') ->
  exists seg l1 l2,
    trace s' = trace s ++ seg /\ l = l1 ++ l2
    /\ (EUpdate <$> l1) `sublist_of` seg
    /\ (forall v, r = Val v -> l2 = []).
Proof.
  intros Hk. revert s. induction l as [|x l IH]; intros s; simpl.
  - intros [= <- <-]. exists [], [], []. rewrite app_nil_r. by repeat split.
  - unfold bind at 1.
    destruct (Watcher_update traverse rec x s) as [[[[]|e] s1]|] eqn:Eu; [| |done].
    + intros Hrest. destruct (Watcher_update_trace _ _ _ _ _ _ Hk Eu) as [segx Hx].
      destruct (IH s1 Hrest) as (seg & l1 & l2 & Ht & -> & Hsub & Hval).
      exists (EUpdate x :: segx ++ seg), (x :: l1), l2.
      split; [by rewrite Ht, Hx, <- app_assoc|]. split; [done|]. split; [|done].
      simpl. apply sublist_skip. by apply sublist_inserts_l.
    + intros [= <- <-]. destruct (Watcher_update_trace _ _ _ _ _ _ Hk Eu) as [segx Hx].
      exists (EUpdate x :: segx), [x], l. split; [done|]. split; [done|].
      split; [|done]. simpl. apply sublist_skip, sublist_nil_l.
Qed.

(** C5 (amended). [notify] walks a copy of the subscriber array taken when
    it is entered: whatever the subscribers do to the array meanwhile, their
    [update] methods are entered in the order of the copy, all of them if
    [notify] ends normally and the first ones up to the one that throws
    otherwise.  The copy is sorted ascending by id when the build is not a
    production build and [config.async] is off; in every other case it is in
    subscription order. *)
Theorem notify_walks_snapshot E traverse fuel d s r s' :
  Dep_notify E traverse (knot_at E traverse fuel) d s = Some (r, s') ->
  notify_subs E s d ≡ₚ subs (the_Dep s d)
  /\ (production E = false -> async E = false ->
      StronglySorted Nat.le (notify_subs E s d))
  /\ (production E = true \/ async E = true ->
      notify_subs E s d = subs (the_Dep s d))
  /\ exists seg l1 l2,
       trace s' = trace s ++ ENotify d :: seg
       /\ notify_subs E s d = l1 ++ l2
       /\ (EUpdate <$> l1) `sublist_of` seg
       /\ (forall v, r = Val v -> l2 = []).
Proof.
  intros Hn. split; [apply notify_subs_perm|]. split; [|split].
  - intros HP HA. unfold notify_subs. rewrite HP, HA. simpl.
    apply StronglySorted_merge_sort.
    + intros x y z. apply Nat.le_trans.
    + intros x y. apply Nat.le_ge_cases.
  - unfold notify_subs. by intros [-> | ->]; rewrite ?andb_false_r.
  - unfold Dep_notify, bind at 1, modify at 1, bind at 1, gets at 1 in Hn.
    change (notify_subs E (log (ENotify d) s) d) with (notify_subs E s d) in Hn.
    destruct (walk_trace _ _ _ _ _ _
                (stable_knot R_trace respects_R_trace E traverse fuel) Hn)
      as (seg & l1 & l2 & Ht & Hl & Hsub & Hval).
    exists seg, l1, l2. split; [|done]. rewrite Ht. simpl. by rewrite <- app_assoc.
Qed.

(** ** The reactive setter *)

Lemma SFeqb_self x : SFeqb x x = false <-> x = S754_nan.
Proof.
  unfold SFeqb. destruct x as [[]|[]| |[] m e]; simpl; try done.
  - rewrite Z.compare_refl, Pos.compare_cont_refl. done.
  - rewrite Z.compare_refl, Pos.compare_cont_refl. done.
Qed.

Lemma strict_eq_self a : strict_eq a a = false <-> a = NaN.
Proof.
  destruct a as [| |b|x|str|r]; simpl; try done.
  - by destruct b.
  - rewrite SFeqb_self. unfold NaN. split; [by intros ->|by intros [= ->]].
  - by rewrite String.eqb_refl.
  - by rewrite Nat.eqb_refl.
Qed.

Lemma same_value_spec a b :
  same_value a b = true <-> strict_eq a b = true \/ (a = NaN /\ b = NaN).
Proof.
  unfold same_value. rewrite orb_true_iff, andb_true_iff, !negb_true_iff.
  by rewrite !strict_eq_self.
Qed.

Lemma reactiveSetter_eq E traverse rec p C newVal s :
  Closure_heap s !! p = Some C ->
  reactiveSetter E traverse rec p newVal s =
    (value <~ current_value rec C ;;
     if same_value newVal value then ret tt
     else
       run_customSetter E rec C ;;;
       if bool_decide (is_Some (c_getter C))
          && negb (bool_decide (is_Some (c_setter C)))
       then ret tt
       else
         match c_setter C with
         | Some st => call rec (st newVal) ;;; ret tt
         | None => modify (upd_Closure_heap (alter (C_set_val newVal) p))
         end ;;;
         childOb <~ (if c_shallow C then ret None else observe E rec newVal false) ;;
         modify (upd_Closure_heap (alter (C_set_childOb childOb) p)) ;;;
         Dep_notify E traverse rec (c_dep C)) s.
Proof. intros EC. unfold reactiveSetter, bind at 1, gets at 1. by rewrite EC. Qed.


Lemma walk_deferred traverse rec l s :
  (forall w, w ∈ l -> deferred s w) ->
  exists s',
    for_each (Watcher_update traverse rec) l s = Some (Val tt, s')
    /\ trace s' = trace s ++ (EUpdate <$> l)
    /\ Dep_heap s' = Dep_heap s /\ Closure_heap s' = Closure_heap s
    /\ Obj_heap s' = Obj_heap s.
Proof.
  revert s. induction l as [|x l IH]; intros s Hl; simpl.
  - exists s. by rewrite app_nil_r.
  - assert (Hstep : exists s1,
              Watcher_update traverse rec x s = Some (Val tt, s1)
              /\ trace s1 = trace s ++ [EUpdate x]
              /\ Dep_heap s1 = Dep_heap s /\ Closure_heap s1 = Closure_heap s
              /\ Obj_heap s1 = Obj_heap s
              /\ forall w, deferred s w -> deferred s1 w).
    { destruct (Watcher_heap s !! x) as [W|] eqn:EW.
      - rewrite (Watcher_update_eq _ _ _ _ _ EW).
        destruct (Hl x (list_elem_of_here _ _) W EW) as [-> | Hs].
        + eexists. split; [done|]. repeat split; try done.
          intros w Hw W1. simpl. destruct (decide (w = x)) as [->|Hne].
          * rewrite lookup_alter_eq, EW. intros [= <-]. exact (Hw W EW).
          * rewrite lookup_alter_ne by done. apply Hw.
        + destruct (lazy W) eqn:El.
          * eexists. split; [done|]. repeat split; try done.
            intros w Hw W1. simpl. destruct (decide (w = x)) as [->|Hne].
            -- rewrite lookup_alter_eq, EW. intros [= <-]. exact (Hw W EW).
            -- rewrite lookup_alter_ne by done. apply Hw.
          * rewrite Hs. eexists. split; [done|].
            unfold queueWatcher. destruct (decide _); by repeat split.
      - unfold Watcher_update, bind at 1, modify at 1, bind at 1, gets at 1.
        simpl. rewrite EW. eexists. split; [done|]. by repeat split. }
    destruct Hstep as (s1 & Hu & Ht & Hd & Hc & Ho & Hdef).
    destruct (IH s1) as (s' & Hw & Ht' & Hd' & Hc' & Ho').
    { intros w Hw. apply Hdef, Hl. by apply list_elem_of_further. }
    exists s'. unfold bind at 1. rewrite Hu. split; [done|].
    rewrite Ht', Ht, <- app_assoc. repeat split; congruence.
Qed.

Lemma Dep_notify_deferred E traverse rec d s :
  (forall w, w ∈ subs (the_Dep s d) -> deferred s w) ->
  exists s',
    Dep_notify E traverse rec d s = Some (Val tt, s')
    /\ trace s' = trace s ++ ENotify d :: (EUpdate <$> notify_subs E s d)
    /\ Dep_heap s' = Dep_heap s /\ Closure_heap s' = Closure_heap s
    /\ Obj_heap s' = Obj_heap s.
Proof.
  intros Hd. unfold Dep_notify, bind at 1, modify at 1, bind at 1, gets at 1.
  change (notify_subs E (log (ENotify d) s) d) with (notify_subs E s d).
  destruct (walk_deferred traverse rec (notify_subs E s d) (log (ENotify d) s))
    as (s' & Hw & Ht & H1 & H2 & H3).
  { intros w Hw. apply Hd. by rewrite <- (notify_subs_perm E s d). }
  exists s'. split; [done|]. rewrite Ht. simpl. rewrite <- app_assoc.
  by repeat split.
Qed.

(** C2 (amended). An assignment through the reactive setter first reads
    the current value.  If the new value is [===] to it, or both are NaN, the
    setter returns there: nothing is stored and no Dep is notified.
    Otherwise, for a property that had neither getter nor setter before, once
    the custom setter hook of a non-production build (if one was given) has
    returned, the setter stores the new value, observes it unless the property
    was defined shallow, and calls [dep.notify()], once: when every subscriber
    defers its work, the call log grows by that one [notify] and the [update]
    of each subscriber. *)
Theorem setter_stores_and_notifies E traverse rec p C newVal s v s1 :
  Closure_heap s !! p = Some C ->
  current_value rec C s = Some (Val v, s1) ->
  (c_getter C = None -> v = c_val C /\ s1 = s)
  /\ (strict_eq newVal v = true \/ (newVal = NaN /\ v = NaN) ->
      reactiveSetter E traverse rec p newVal s = Some (Val tt, s1))
  /\ (~ (strict_eq newVal v = true \/ (newVal = NaN /\ v = NaN)) ->
      c_getter C = None -> c_setter C = None ->
      forall s2 ob s3,
        run_customSetter E rec C s1 = Some (Val tt, s2) ->
        (if c_shallow C then ret None else observe E rec newVal false)
          (upd_Closure_heap (alter (C_set_val newVal) p) s2) = Some (Val ob, s3) ->
        let s4 := upd_Closure_heap (alter (C_set_childOb ob) p) s3 in
        reactiveSetter E traverse rec p newVal s
        = Dep_notify E traverse rec (c_dep C) s4
        /\ (c_shallow C = true -> ob = None /\ Obj_heap s3 = Obj_heap s2)
        /\ ((forall w, w ∈ subs (the_Dep s4 (c_dep C)) -> deferred s4 w) ->
            exists s',
              reactiveSetter E traverse rec p newVal s = Some (Val tt, s')
              /\ trace s'
                 = trace s3
                   ++ ENotify (c_dep C) :: (EUpdate <$> notify_subs E s4 (c_dep C)))).
Proof.
  intros EC Hcur. split; [|split].
  - intros Hg. unfold current_value in Hcur. rewrite Hg in Hcur.
    by injection Hcur as <- <-.
  - intros Hsame. apply same_value_spec in Hsame.
    rewrite (reactiveSetter_eq _ _ _ _ _ _ _ EC). unfold bind at 1.
    by rewrite Hcur, Hsame.
  - intros Hdiff Hg Hs s2 ob s3 Hhook Hobs s4.
    assert (Hnot : same_value newVal v = false).
    { destruct (same_value newVal v) eqn:Es; [|done].
      by apply same_value_spec in Es. }
    assert (Heq : reactiveSetter E traverse rec p newVal s
                  = Dep_notify E traverse rec (c_dep C) s4).
    { rewrite (reactiveSetter_eq _ _ _ _ _ _ _ EC). unfold bind at 1.
      rewrite Hcur, Hnot. unfold bind at 1. rewrite Hhook.
      rewrite Hg, Hs. simpl. unfold bind at 1, modify at 1.
      unfold bind at 1. rewrite Hobs. by unfold bind at 1, modify at 1. }
    split; [done|]. split.
    + intros Hsh. rewrite Hsh in Hobs. by injection Hobs as <- <-.
    + intros Hdef. rewrite Heq.
      destruct (Dep_notify_deferred E traverse rec (c_dep C) s4 Hdef)
        as (s' & Hn & Ht & _).
      exists s'. by split.
Qed.

(** C10 (amended). For a property that had a getter and no setter before
    [defineReactive], an assignment of a value that differs from the one the
    getter returns does what the custom setter hook of a non-production build
    does, if one was given, and nothing more: the setter returns before it
    stores, observes or notifies.  With no hook, or in a production build,
    the state is the one in which the getter returned. *)
Theorem setter_drops_write_without_setter E traverse rec p C g newVal s v s1 :
  Closure_heap s !! p = Some C ->
  c_getter C = Some g -> c_setter C = None ->
  call rec g s = Some (Val v, s1) ->
  same_value newVal v = false ->
  reactiveSetter E traverse rec p newVal s = run_customSetter E rec C s1
  /\ (production E = true \/ c_customSetter C = None ->
      reactiveSetter E traverse rec p newVal s = Some (Val tt, s1)).
Proof.
  intros EC Hg Hs Hcall Hdiff.
  assert (Heq : reactiveSetter E traverse rec p newVal s
                = run_customSetter E rec C s1).
  { rewrite (reactiveSetter_eq _ _ _ _ _ _ _ EC). unfold bind at 1.
    unfold current_value. rewrite Hg, Hcall, Hdiff. unfold bind at 1.
    rewrite Hs. simpl. by destruct (run_customSetter E rec C s1) as [[[[]|?] ?]|]. }
  split; [done|]. rewrite Heq. unfold run_customSetter.
  intros [-> | ->]; [by destruct (c_customSetter C)|done].
Qed.

(** ** Scenarios *)

Lemma Inv_with_objects os : Inv (with_objects os).
Proof. generalize Inv_init. by apply Inv_same. Qed.

Lemma Inv_after E fuel p s : Inv s -> Inv (after E fuel p s).
Proof.
  intros HI. unfold after.
  destruct (k_exec _ p s) as [[r s']|] eqn:Ep; [|done].
  destruct (stable_knot R_inv respects_R_inv E no_traverse fuel) as (Hx & _).
  apply (Hx p s r s' Ep HI).
Qed.

(** C1, as first stated, fails when an evaluation re-enters itself.  The
    getter of the synchronous watcher 1 reads [a] and then writes it; the write
    notifies the watcher, whose [run] starts a second [get] inside the first.
    The inner pass ends with [cleanupDeps], which moves the Dep of [a] to
    [deps] and empties [newDeps]; the outer [cleanupDeps] then finds [newDeps]
    empty.  The outer evaluation completes, [depend()] of Dep 1 was reached
    during it, and yet [deps] is empty at the end. *)
Lemma reentrant_get_loses_dep :
  Inv reentrant_pre
  /\ newDepIds <$> Watcher_heap reentrant_pre !! 1 = Some ∅
  /\ Watcher_get no_traverse (knot_at dev no_traverse 8) 1 reentrant_pre
     = Some (Val (VStr "x"), reentrant_post)
  /\ EDepend 1 (Some 1) ∈ drop (length (trace reentrant_pre)) (trace reentrant_post)
  /\ deps <$> Watcher_heap reentrant_post !! 1 = Some [].
Proof.
  split; [apply Inv_after, Inv_with_objects|].
  split; [by vm_compute|]. split; [by vm_compute|].
  split; [|by vm_compute].
  apply (bool_decide_unpack _). by vm_compute.
Qed.

(** C1 on the conditional-branch scenario: the watcher read [a] under the
    flag, the flag is flipped, and the second pass reads [b]; afterwards
    [deps] is the flag and [b], and notifying the Dep of [a] does not reach
    the watcher. *)
Lemma get_collects_exactly_witness :
  exists W',
    Watcher_heap branch_rerun !! 1 = Some W'
    /\ deps W' = [1; 3]
    /\ (forall d, d ∈ deps W' <->
          (EDepend d (Some 1) ∈ [EDepend 1 (Some 1); EDepend 3 (Some 1)]))
    /\ (1 ∉ subs (the_Dep branch_rerun 2))
    /\ (1 ∉ notify_subs dev branch_rerun 2).
Proof.
  assert (HW : exists W, Watcher_heap branch_flipped !! 1 = Some W
                         /\ newDepIds W = ∅ /\ 2 ∈ deps W).
  { eexists. split; [vm_compute; reflexivity|]. split; [done|].
    apply (bool_decide_unpack _). by vm_compute. }
  destruct HW as (W & EW & Hnew & H2).
  destruct (get_collects_exactly dev no_traverse 6 1 W branch_flipped
              (Val (VStr "B")) branch_rerun
              [EDepend 1 (Some 1); EDepend 3 (Some 1)])
    as (W' & EW' & Hdeps & Hgone & _).
  - apply Inv_after, Inv_with_objects.
  - exact EW.
  - exact Hnew.
  - by vm_compute.
  - by vm_compute.
  - apply (bool_decide_unpack _). by vm_compute.
  - exists W'. split; [exact EW'|]. split.
    + vm_compute in EW'. by injection EW' as <-.
    + split; [exact Hdeps|]. apply Hgone; [exact H2|].
      apply (bool_decide_unpack _). by vm_compute.
Defined.

(** C2, as first stated, fails for a property defined with [shallow]: a data
    property with neither getter nor setter receives an object that has no
    observer; the setter stores the object and notifies, and the object still
    has no observer afterwards, although [observe] would have given it
    one. *)
Lemma shallow_setter_does_not_observe :
  (exists C, Closure_heap shallow_pre !! 2 = Some C
             /\ c_getter C = None /\ c_setter C = None /\ c_val C = VUndef)
  /\ (Obj_heap shallow_pre !! 1 ≫= o_ob) = None
  /\ reactiveSetter dev no_traverse (knot_at dev no_traverse 8) 2 (VObj 1) shallow_pre
     = Some (Val tt, shallow_post)
  /\ c_val <$> Closure_heap shallow_post !! 2 = Some (VObj 1)
  /\ trace shallow_post = trace shallow_pre ++ [ENotify 0]
  /\ (Obj_heap shallow_post !! 1 ≫= o_ob) = None
  /\ observe dev (knot_at dev no_traverse 8) (VObj 1) false shallow_post
     = Some (Val (Some 3), after dev 8 (Observe (VObj 1) false (Ret VUndef)) shallow_post).
Proof.
  split; [eexists; split; [vm_compute; reflexivity|by split; [|split]]|].
  split; [by vm_compute|]. split; [by vm_compute|]. split; [by vm_compute|].
  split; [by vm_compute|]. split; by vm_compute.
Qed.

(** C2 on a deep property: assigning an object stores it and notifies once;
    assigning NaN over NaN changes nothing. *)
Lemma setter_stores_and_notifies_witness :
  exists s',
    reactiveSetter dev no_traverse (knot_at dev no_traverse 8) 2 (VObj 1) deep_pre
    = Some (Val tt, s')
    /\ drop (length (trace deep_pre)) (trace s') = [ENotify 0]
    /\ reactiveSetter dev no_traverse (knot_at dev no_traverse 8) 2 NaN
         (after dev 8 (ReactiveSetter 2 NaN (Ret VUndef)) deep_pre)
       = Some (Val tt, after dev 8 (ReactiveSetter 2 NaN (Ret VUndef)) deep_pre).
Proof.
  assert (HC : exists C, Closure_heap deep_pre !! 2 = Some C
                 /\ c_getter C = None /\ c_setter C = None /\ c_dep C = 0
                 /\ current_value (knot_at dev no_traverse 8) C deep_pre
                    = Some (Val VUndef, deep_pre)
                 /\ run_customSetter dev (knot_at dev no_traverse 8) C deep_pre
                    = Some (Val tt, deep_pre)
                 /\ exists ob s3,
                      (if c_shallow C then ret None
                       else observe dev (knot_at dev no_traverse 8) (VObj 1) false)
                        (upd_Closure_heap (alter (C_set_val (VObj 1)) 2) deep_pre)
                      = Some (Val ob, s3)
                      /\ trace s3 = trace deep_pre
                      /\ subs (the_Dep (upd_Closure_heap (alter (C_set_childOb ob) 2) s3) 0)
                         = []).
  { eexists. split; [vm_compute; reflexivity|]. split; [reflexivity|].
    split; [reflexivity|]. split; [reflexivity|]. split; [reflexivity|].
    split; [reflexivity|]. eexists. eexists.
    split; [vm_compute; reflexivity|]. split; vm_compute; reflexivity. }
  destruct HC as (C & EC & Hg & Hs & Hd & Hcur & Hhook & ob & s3 & Hobs & Ht3 & Hsubs).
  destruct (setter_stores_and_notifies dev no_traverse (knot_at dev no_traverse 8)
              2 C (VObj 1) deep_pre VUndef deep_pre EC Hcur) as (_ & _ & Hchange).
  assert (Hdiff : ~ (strict_eq (VObj 1) VUndef = true
                     \/ (VObj 1 = NaN /\ VUndef = NaN)))
    by (intros [H|[H _]]; discriminate H).
  destruct (Hchange Hdiff Hg Hs deep_pre ob s3 Hhook Hobs) as (_ & _ & Hflat).
  destruct Hflat as (s' & Hset & Ht).
  { rewrite Hd. intros w Hw. rewrite Hsubs in Hw. by apply elem_of_nil in Hw. }
  exists s'. split; [exact Hset|]. split.
  - assert (Hns : notify_subs dev
                      (upd_Closure_heap (alter (C_set_childOb ob) 2) s3) 0 = [])
      by (unfold notify_subs; rewrite Hsubs; reflexivity).
    rewrite Ht, Ht3, Hd, Hns. generalize (trace deep_pre). intros l. simpl. apply drop_app_length.
  - assert (HN : exists CN,
               Closure_heap (after dev 8 (ReactiveSetter 2 NaN (Ret VUndef)) deep_pre) !! 2
               = Some CN
               /\ current_value (knot_at dev no_traverse 8) CN
                    (after dev 8 (ReactiveSetter 2 NaN (Ret VUndef)) deep_pre)
                  = Some (Val NaN, after dev 8 (ReactiveSetter 2 NaN (Ret VUndef)) deep_pre)).
    { eexists. split; [vm_compute; reflexivity|]. vm_compute. reflexivity. }
    destruct HN as (CN & ECN & HcurN).
    destruct (setter_stores_and_notifies dev no_traverse (knot_at dev no_traverse 8)
                2 CN NaN _ NaN _ ECN HcurN) as (_ & Hsame & _).
    apply Hsame. right. split; reflexivity.
Defined.



(** C4 on a run that creates a lazy and a plain watcher on the same
    property and reads the property through the computed getter. *)
Lemma subscribed_at_most_once_witness :
  Inv unsorted_pre
  /\ (forall d D, Dep_heap unsorted_pre !! d = Some D -> NoDup (subs D)).
Proof.
  destruct (subscribed_at_most_once prod_sync no_traverse 6
              (Observe (VObj 0) false
                 (NewWatcher 0 EmptyString read_a noop_cb
                    (Some (mkOptions false false true false)) false
                    (fun w1 =>
                       NewWatcher 0 EmptyString read_a noop_cb None false
                         (fun w2 => ComputedGetter w1 (fun _ => Ret VUndef)))))
              (with_objects [plain [field "a" (VStr "x")]])
              (Val VUndef) unsorted_pre) as (H1 & H2 & _).
  - apply Inv_with_objects.
  - by vm_compute.
  - by split.
Defined.

(** C5, as first stated, fails in a production build: with [config.async]
    off, [notify] on the subscriber list [2; 1] calls [update] on watcher 2
    first and then on watcher 1. *)
Lemma production_notify_is_unsorted :
  async prod_sync = false
  /\ subs (the_Dep unsorted_pre 1) = [2; 1]
  /\ Dep_notify prod_sync no_traverse (knot_at prod_sync no_traverse 8) 1 unsorted_pre
     = Some (Val tt, unsorted_post)
  /\ trace unsorted_post = trace unsorted_pre ++ [ENotify 1; EUpdate 2; EUpdate 1].
Proof.
  split; [done|]. split; [by vm_compute|]. split; by vm_compute.
Qed.

(** C5 in a development build with [config.async] off: the subscribers
    [2; 1] are visited as [1; 2]. *)
Lemma notify_walks_snapshot_witness :
  subs (the_Dep unsorted_pre 1) = [2; 1]
  /\ notify_subs dev_sync unsorted_pre 1 = [1; 2]
  /\ StronglySorted Nat.le (notify_subs dev_sync unsorted_pre 1)
  /\ exists s' seg,
       Dep_notify dev_sync no_traverse (knot_at dev_sync no_traverse 8) 1 unsorted_pre
       = Some (Val tt, s')
       /\ trace s' = trace unsorted_pre ++ ENotify 1 :: seg
       /\ [EUpdate 1; EUpdate 2] `sublist_of` seg.
Proof.
  assert (Hn : exists s',
             Dep_notify dev_sync no_traverse (knot_at dev_sync no_traverse 8) 1
               unsorted_pre = Some (Val tt, s'))
    by (eexists; vm_compute; reflexivity).
  destruct Hn as (s' & Hn).
  assert (Hsnap : notify_subs dev_sync unsorted_pre 1 = [1; 2])
    by (vm_compute; reflexivity).
  destruct (notify_walks_snapshot dev_sync no_traverse 8 1 unsorted_pre (Val tt) s' Hn)
    as (_ & Hsorted & _ & seg & l1 & l2 & Ht & Hl & Hsub & Hall).
  split; [vm_compute; reflexivity|]. split; [exact Hsnap|].
  split; [apply Hsorted; reflexivity|].
  exists s', seg. split; [exact Hn|]. split; [exact Ht|].
  rewrite (Hall tt eq_refl), app_nil_r, Hsnap in Hl. subst l1. exact Hsub.
Defined.

(** C6 on three watchers: an internal watcher whose getter throws, a user
    watcher whose getter throws, and a user watcher whose callback throws. *)
Lemma errors_caught_or_propagated_witness :
  (exists s', Watcher_get no_traverse (knot_at dev no_traverse 4) 1 throw_pre
              = Some (Exn (VStr "boom"), s')
              /\ errors s' = [])
  /\ (exists s', Watcher_get no_traverse (knot_at dev no_traverse 4) 2 throw_pre
                 = Some (Val VUndef, s')
                 /\ errors s'
                    = [(VStr "boom",
                        "getter for watcher " +:+ dquote +:+ "thrower" +:+ dquote)])
  /\ (exists s2, Watcher_run no_traverse (knot_at dev no_traverse 4) 3 throw_pre
                 = Some (Val tt,
                         handleError (VStr "bang") 0
                           ("callback for watcher " +:+ dquote +:+ "read_a" +:+ dquote)
                           s2)).
Proof.
  split; [|split].
  - assert (HW : exists W, Watcher_heap throw_pre !! 1 = Some W /\ user W = false
                   /\ exists s1, call (knot_at dev no_traverse 4) (getter W)
                        (pushTarget (Some 1) (log (EGet 1) throw_pre))
                      = Some (Exn (VStr "boom"), s1) /\ errors s1 = []).
    { eexists. split; [vm_compute; reflexivity|]. split; [reflexivity|].
      eexists. split; vm_compute; reflexivity. }
    destruct HW as (W & EW & Hu & s1 & Hc & He).
    destruct (errors_caught_or_propagated no_traverse (knot_at dev no_traverse 4)
                1 W throw_pre (VStr "boom") EW) as (H & _).
    destruct (H s1 Hc) as (Hp & _). destruct (Hp Hu) as (s' & Hg & He').
    exists s'. split; [exact Hg|]. rewrite He'. exact He.
  - assert (HW : exists W, Watcher_heap throw_pre !! 2 = Some W /\ user W = true
                   /\ expression W = "thrower"
                   /\ exists s1, call (knot_at dev no_traverse 4) (getter W)
                        (pushTarget (Some 2) (log (EGet 2) throw_pre))
                      = Some (Exn (VStr "boom"), s1) /\ errors s1 = []).
    { eexists. split; [vm_compute; reflexivity|]. split; [reflexivity|].
      split; [reflexivity|]. eexists. split; vm_compute; reflexivity. }
    destruct HW as (W & EW & Hu & Hx & s1 & Hc & He).
    destruct (errors_caught_or_propagated no_traverse (knot_at dev no_traverse 4)
                2 W throw_pre (VStr "boom") EW) as (H & _).
    destruct (H s1 Hc) as (_ & Hp). destruct (Hp Hu) as (s' & Hg & He').
    exists s'. split; [exact Hg|]. rewrite He', He, Hx. reflexivity.
  - assert (HW : exists W, Watcher_heap throw_pre !! 3 = Some W
                   /\ user W = true /\ active W = true
                   /\ expression W = "read_a" /\ vm W = 0
                   /\ (negb (strict_eq (VStr "x")
                         (default VUndef
                            (value <$> Watcher_heap (after_get dev 4 3 throw_pre) !! 3)))
                       || isObject (VStr "x") || deep W = true)
                   /\ exists s2,
                        call (knot_at dev no_traverse 4)
                          (cb W (VStr "x")
                             (default VUndef
                                (value <$> Watcher_heap (after_get dev 4 3 throw_pre) !! 3)))
                          (upd_Watcher_heap (alter (W_set_value (VStr "x")) 3)
                             (after_get dev 4 3 throw_pre))
                        = Some (Exn (VStr "bang"), s2)).
    { eexists. split; [vm_compute; reflexivity|]. split; [reflexivity|].
      split; [reflexivity|]. split; [reflexivity|]. split; [reflexivity|].
      split; [vm_compute; reflexivity|]. eexists. vm_compute. reflexivity. }
    destruct HW as (W & EW & Hu & Ha & Hx & Hv & Hch & s2 & Hcb).
    destruct (errors_caught_or_propagated no_traverse (knot_at dev no_traverse 4)
                3 W throw_pre (VStr "bang") EW) as (_ & H).
    assert (Hget : Watcher_get no_traverse (knot_at dev no_traverse 4) 3 throw_pre
                   = Some (Val (VStr "x"), after_get dev 4 3 throw_pre))
      by (vm_compute; reflexivity).
    pose proof (H (VStr "x") (after_get dev 4 3 throw_pre) s2 Ha Hu Hget Hch Hcb)
      as Hrun.
    rewrite Hx, Hv in Hrun. exists s2. exact Hrun.
Defined.

(** C7 on a getter that reads [a] and then throws: the getter runs with
    the Watcher as [Dep.target], the read of [a] is recorded for the
    Watcher, and the target stack and [Dep.target] are restored after the
    exception has left [get]. *)
Lemma push_pop_paired_witness :
  Watcher_get no_traverse (knot_at dev no_traverse 4) 1 throw_pre
  = Some (Exn (VStr "boom"), after_get dev 4 1 throw_pre)
  /\ targetStack (after_get dev 4 1 throw_pre) = targetStack throw_pre
  /\ Dep_target (after_get dev 4 1 throw_pre) = Dep_target throw_pre
  /\ consistent (after_get dev 4 1 throw_pre)
  /\ Dep_target throw_pre = None
  /\ Dep_target (pushTarget (Some 1) (log (EGet 1) throw_pre)) = Some 1
  /\ targetStack (pushTarget (Some 1) (log (EGet 1) throw_pre))
     = targetStack throw_pre ++ [Some 1]
  /\ Dep_depend 1 (pushTarget (Some 1) (log (EGet 1) throw_pre))
     = Watcher_addDep 1 1
         (log (EDepend 1 (Some 1)) (pushTarget (Some 1) (log (EGet 1) throw_pre)))
  /\ trace (after_get dev 4 1 throw_pre)
     = trace throw_pre ++ [EGet 1; EDepend 1 (Some 1)].
Proof.
  assert (Hget : Watcher_get no_traverse (knot_at dev no_traverse 4) 1 throw_pre
                 = Some (Exn (VStr "boom"), after_get dev 4 1 throw_pre))
    by (by vm_compute).
  assert (HW : exists W, Watcher_heap throw_pre !! 1 = Some W)
    by (eexists; vm_compute; reflexivity).
  destruct HW as (W & EW).
  split; [exact Hget|].
  destruct (push_pop_paired dev no_traverse 4 throw_pre (Exn (VStr "boom"))
              (after_get dev 4 1 throw_pre)) as (_ & H & _ & _ & Hin).
  - by vm_compute.
  - destruct (H 1 Hget) as (H1 & H2 & H3).
    split; [exact H1|]. split; [exact H2|]. split; [exact H3|].
    split; [vm_compute; reflexivity|].
    destruct (Hin 1 W EW) as (Ht & Hst & _ & Hafter).
    split; [exact Ht|]. split; [exact Hst|].
    destruct (Hafter (Ret VUndef) (Val VUndef)
                (pushTarget (Some 1) (log (EGet 1) throw_pre)) eq_refl)
      as (_ & _ & Hdep).
    split; [exact (proj1 (Hdep 1))|]. vm_compute. reflexivity.
Defined.

(** C8, as first stated, fails for a watcher torn down in the middle of its
    own evaluation.  In [unwatch_mid] watcher 1 has read [a] in the current
    pass, so it is in the subscriber list of Dep 1 while that Dep is still in
    [newDeps] only.  [teardown] walks [deps] and leaves it in the list.  The
    same happens in a complete run: the getter [self_unwatch] reads [a] and
    calls [teardown]; after [get] has returned the watcher is inactive and
    still subscribed. *)
Lemma teardown_in_getter_stays_subscribed :
  Inv unwatch_mid
  /\ active <$> Watcher_heap unwatch_mid !! 1 = Some true
  /\ 1 ∈ subs (the_Dep unwatch_mid 1)
  /\ 1 ∈ subs (the_Dep (teardown 1 unwatch_mid) 1)
  /\ Watcher_get no_traverse (knot_at dev no_traverse 8) 1 unwatch_pre
     = Some (Val (VStr "x"), unwatch_post)
  /\ active <$> Watcher_heap unwatch_post !! 1 = Some false
  /\ 1 ∈ subs (the_Dep unwatch_post 1).
Proof.
  split.
  { apply Inv_depend.
    assert (Inv unwatch_pre) as HI by apply Inv_after, Inv_with_objects.
    revert HI. by apply Inv_same. }
  split; [by vm_compute|].
  split; [apply (bool_decide_unpack _); by vm_compute|].
  split; [apply (bool_decide_unpack _); by vm_compute|].
  split; [by vm_compute|]. split; [by vm_compute|].
  apply (bool_decide_unpack _). by vm_compute.
Qed.

(** C8 on a watcher that is not being evaluated. *)
Lemma teardown_idempotent_witness :
  teardown 2 (teardown 2 unsorted_pre) = teardown 2 unsorted_pre
  /\ (forall d, 2 ∉ subs (the_Dep (teardown 2 unsorted_pre) d))
  /\ Vm_heap (teardown 2 unsorted_pre) !! 0 = Some (mkVm None [1] false).
Proof.
  assert (HW : exists W, Watcher_heap unsorted_pre !! 2 = Some W
                 /\ active W = true /\ newDepIds W = ∅ /\ vm W = 0).
  { eexists. split; [vm_compute; reflexivity|]. by split; [|split]. }
  destruct HW as (W & EW & Ha & Hn & Hv).
  destruct (teardown_idempotent 2 unsorted_pre) as (Hidem & Hfirst).
  destruct (Hfirst W EW Ha) as (_ & _ & Hall & Hvm).
  split; [exact Hidem|]. split.
  - apply Hall; [|exact Hn]. apply Inv_after, Inv_with_objects.
  - rewrite Hv in Hvm. apply (Hvm (mkVm None [1; 2] false)).
    vm_compute. reflexivity.
Defined.

(** C9 on a lazy watcher and on a watcher with no flag.  The lazy
    Watcher [1] has been evaluated and is clean; [update] leaves it dirty,
    with the value it had.  Watcher [2] ends up in the queue, which was
    empty. *)
Lemma update_dispatch_witness :
  dirty <$> Watcher_heap unsorted_pre !! 1 = Some false
  /\ Watcher_update no_traverse (knot_at dev no_traverse 4) 1 unsorted_pre
     = Some (Val tt, upd_Watcher_heap (alter (W_set_dirty true) 1)
                       (log (EUpdate 1) unsorted_pre))
  /\ (exists s' W',
        Watcher_update no_traverse (knot_at dev no_traverse 4) 1 unsorted_pre
        = Some (Val tt, s')
        /\ Watcher_heap s' !! 1 = Some W'
        /\ dirty W' = true /\ value W' = VStr "x"
        /\ trace s' = trace unsorted_pre ++ [EUpdate 1])
  /\ Watcher_update no_traverse (knot_at dev no_traverse 4) 2 unsorted_pre
     = Some (Val tt, queueWatcher 2 (log (EUpdate 2) unsorted_pre))
  /\ queue (sched unsorted_pre) = []
  /\ (2 ∈ queue (sched (queueWatcher 2 (log (EUpdate 2) unsorted_pre)))).
Proof.
  split; [vm_compute; reflexivity|].
  assert (HW : exists W, Watcher_heap unsorted_pre !! 1 = Some W /\ lazy W = true
                         /\ value W = VStr "x")
    by (eexists; split; [vm_compute; reflexivity|split; reflexivity]).
  destruct HW as (W & EW & Hl & Hv).
  destruct (update_dispatch no_traverse (knot_at dev no_traverse 4) 1 W
              unsorted_pre EW) as (Hlazy & _).
  destruct (Hlazy Hl) as (Heq & s' & W' & Hup & EW' & Hd & Hv' & _ & _ & _ & _ & Ht).
  split; [exact Heq|]. split.
  - exists s', W'. split; [exact Hup|]. split; [exact EW'|]. split; [exact Hd|].
    split; [by rewrite Hv'|exact Ht].
  - assert (HW2 : exists W2, Watcher_heap unsorted_pre !! 2 = Some W2
                             /\ lazy W2 = false /\ sync W2 = false)
      by (eexists; split; [vm_compute; reflexivity|done]).
    destruct HW2 as (W2 & EW2 & Hl2 & Hs2).
    destruct (update_dispatch no_traverse (knot_at dev no_traverse 4) 2 W2
                unsorted_pre EW2) as (_ & _ & H).
    destruct (H Hl2 Hs2) as (Heq2 & _ & _ & Hq).
    split; [exact Heq2|]. split; [vm_compute; reflexivity|].
    apply Hq. apply (bool_decide_unpack _). vm_compute. reflexivity.
Defined.

(** C10, as first stated, fails when the property was defined with a custom
    setter: in a non-production build the hook runs before the early return.
    Here the hook warns, so the assignment is not silent and the state after
    it differs from the state before. *)
Lemma custom_setter_runs_before_drop :
  (exists C, Closure_heap readonly_pre !! 1 = Some C
             /\ is_Some (c_getter C) /\ c_setter C = None)
  /\ reactiveSetter dev no_traverse (knot_at dev no_traverse 8) 1 (VStr "two") readonly_pre
     = Some (Val tt, readonly_post)
  /\ warnings readonly_pre = []
  /\ warnings readonly_post = ["k is read-only"]
  /\ readonly_post <> readonly_pre.
Proof.
  split; [eexists; split; [vm_compute; reflexivity|split; [by eexists|done]]|].
  split; [by vm_compute|]. split; [by vm_compute|]. split; [by vm_compute|].
  intros H. apply (f_equal warnings) in H. by vm_compute in H.
Qed.

(** C10 in a production build: the assignment to a getter-only property
    leaves the state as it was. *)
Lemma setter_drops_write_without_setter_witness :
  reactiveSetter prod_sync no_traverse (knot_at prod_sync no_traverse 8) 1 (VStr "two")
    readonly_pre = Some (Val tt, readonly_pre).
Proof.
  assert (HC : exists C g, Closure_heap readonly_pre !! 1 = Some C
                 /\ c_getter C = Some g /\ c_setter C = None
                 /\ call (knot_at prod_sync no_traverse 8) g readonly_pre
                    = Some (Val (VStr "one"), readonly_pre)).
  { eexists. eexists. split; [vm_compute; reflexivity|]. split; [reflexivity|].
    split; [reflexivity|]. vm_compute. reflexivity. }
  destruct HC as (C & g & EC & Hg & Hs & Hcall).
  destruct (setter_drops_write_without_setter prod_sync no_traverse
              (knot_at prod_sync no_traverse 8) 1 C g (VStr "two") readonly_pre
              (VStr "one") readonly_pre EC Hg Hs Hcall eq_refl) as (_ & H).
  apply H. left. reflexivity.
Defined.

(** * More of the reactivity core: proofs *)

Lemma same_options_refl W : same_options W W.
Proof. by repeat split. Qed.

Lemma same_options_trans W1 W2 W3 :
  same_options W1 W2 -> same_options W2 W3 -> same_options W1 W3.
Proof.
  intros (a1 & a2 & a3 & a4 & a5 & a6 & a7 & a8) (b1 & b2 & b3 & b4 & b5 & b6 & b7 & b8).
  repeat split; congruence.
Qed.

Lemma alive_refl s : alive s s.
Proof. intros w W EW. exists W. split; [done|]. split; [apply same_options_refl|done]. Qed.

Lemma alive_trans s1 s2 s3 : alive s1 s2 -> alive s2 s3 -> alive s1 s3.
Proof.
  intros H12 H23 w W EW. destruct (H12 w W EW) as (W2 & EW2 & Ho2 & Ha2).
  destruct (H23 w W2 EW2) as (W3 & EW3 & Ho3 & Ha3).
  exists W3. split; [done|]. split; [by eapply same_options_trans|auto].
Qed.

Lemma alive_same s s' : Watcher_heap s' = Watcher_heap s -> alive s s'.
Proof. intros H w W EW. rewrite H. by apply alive_refl. Qed.

Lemma alive_alter f w s :
  (forall W, same_options W (f W) /\ active (f W) = active W) ->
  alive s (upd_Watcher_heap (alter f w) s).
Proof.
  intros Hf w0 W EW. simpl. destruct (decide (w0 = w)) as [->|Hne].
  - rewrite lookup_alter_eq, EW. simpl. eexists. split; [done|].
    destruct (Hf W) as [Ho Ha]. split; [done|]. by rewrite Ha.
  - rewrite lookup_alter_ne by done. exists W. split; [done|].
    split; [apply same_options_refl|done].
Qed.

Lemma alive_cleanupDeps w s : alive s (cleanupDeps w s).
Proof.
  destruct (Watcher_heap s !! w) as [W|] eqn:EW.
  - rewrite (cleanupDeps_eq _ _ _ EW). intros w0 W0 EW0. simpl.
    destruct (same_ctx_unsub w (fun d => d ∈ newDepIds W) (reverse (deps W)) s)
      as [_ Hh].
    destruct (decide (w0 = w)) as [->|Hne].
    + rewrite lookup_insert_eq. eexists. split; [done|].
      rewrite EW in EW0. injection EW0 as <-. by repeat split.
    + rewrite lookup_insert_ne by done. rewrite Hh. exists W0.
      split; [done|]. split; [apply same_options_refl|done].
  - unfold cleanupDeps. rewrite EW. apply alive_refl.
Qed.

Lemma alive_teardown w s : alive s (teardown w s).
Proof.
  destruct (teardown_cases w s) as [->|(W0 & s1 & EW0 & Ha0 & Hg & ->)];
    [apply alive_refl|].
  destruct (same_ctx_unsub w (fun _ => False) (reverse (deps W0)) s1) as [_ Hh].
  assert (G6 : Watcher_heap s1 = Watcher_heap s) by (by destruct Hg as [->|[f ->]]).
  intros w1 W1 EW1. simpl. rewrite Hh, G6.
  destruct (decide (w1 = w)) as [->|Hne].
  - rewrite lookup_alter_eq, EW1. simpl. eexists. split; [done|]. by repeat split.
  - rewrite lookup_alter_ne by done. exists W1. split; [done|].
    split; [apply same_options_refl|done].
Qed.

Lemma alive_addDep w d s : alive s (Watcher_addDep w d s).
Proof.
  unfold Watcher_addDep. destruct (Watcher_heap s !! w) as [W|] eqn:EW;
    [|apply alive_refl].
  destruct (decide _); [apply alive_refl|].
  intros w0 W0 EW0.
  assert (exists W', <[w:=W_set_collect W (deps W) (newDeps W ++ [d]) (depIds W)
                          ({[d]} ∪ newDepIds W)]> (Watcher_heap s) !! w0 = Some W'
                     /\ same_options W0 W' /\ (active W0 = false -> active W' = false))
    as (W' & H1 & H2 & H3).
  { destruct (decide (w0 = w)) as [->|Hne].
    - rewrite lookup_insert_eq. eexists. split; [done|].
      rewrite EW in EW0. injection EW0 as <-. by repeat split.
    - rewrite lookup_insert_ne by done. exists W0. split; [done|].
      split; [apply same_options_refl|done]. }
  exists W'. split; [|done]. by destruct (decide _).
Qed.

Lemma alive_depend d s : alive s (Dep_depend d s).
Proof.
  unfold Dep_depend. simpl. destruct (Dep_target s); [|by apply alive_same].
  eapply alive_trans; [|apply alive_addDep]. by apply alive_same.
Qed.

Lemma respects_R_alive : respects R_alive.
Proof.
  pose proof respects_R_inv as HI.
  split; unfold R_alive.
  - intros s Hs. split; [done|apply alive_refl].
  - intros s1 s2 s3 H12 H23 H1. destruct (H12 H1) as [H2 A12].
    destruct (H23 H2) as [H3 A23]. split; [done|by eapply alive_trans].
  - intros s s' Hg Hs. split; [by eapply Inv_same_graph|].
    apply alive_same. by destruct Hg as (_ & _ & _ & _ & _ & -> & _).
  - intros s s2 H Hs. split; [by apply (r_untracked _ HI s s2 (fun i => proj1 (H i)))|].
    destruct H as [_ A]; [revert Hs; by apply Inv_same|].
    eapply alive_trans; [|eapply alive_trans; [apply A|]]; by apply alive_same.
  - intros w s s2 Hw H Hs.
    split; [by apply (r_get _ HI w s s2 Hw (fun i => proj1 (H i)))|].
    destruct H as [_ A]; [revert Hs; by apply Inv_same|].
    eapply alive_trans; [|eapply alive_trans; [apply A|]]; [by apply alive_same|].
    eapply alive_trans; [|apply alive_cleanupDeps]. by apply alive_same.
  - intros d s Hs. split; [revert Hs; by apply Inv_same|by apply alive_same].
  - intros w s Hs. split; [revert Hs; by apply Inv_same|by apply alive_same].
  - intros d s Hs. split; [by apply Inv_depend|apply alive_depend].
  - intros w s Hs. split; [by apply Inv_teardown|apply alive_teardown].
  - intros s Hs. split; [by apply Inv_new_Dep|by apply alive_same].
  - intros w v s Hs. split; [by apply Inv_alter|]. by apply alive_alter.
  - intros w b s Hs. split; [by apply Inv_alter|]. by apply alive_alter.
  - intros vm_ W b s HW Hs. split; [by apply Inv_constructed|].
    intros w0 W0 EW0. simpl. rewrite lookup_insert_ne.
    + exists W0. split; [done|]. split; [apply same_options_refl|done].
    + intros <-. assert (S (Watcher_uid s) <= Watcher_uid s); [|lia].
      apply (inv_fresh _ Hs). by rewrite EW0.
Qed.

(** X1. Starting from a well-formed subscription graph, no run of a script
    (property reads and assignments, [set], [observe], [defineReactive], and
    the construction, evaluation, [run] and [teardown] of Watchers) takes a
    Watcher away, changes what its constructor set once ([vm], [expression],
    [cb], [deep], [user], [lazy], [sync], [getter]) or makes an inactive
    Watcher active again. *)
Theorem watchers_keep_their_options E traverse fuel p s r s' w W :
  Inv s ->
  k_exec (knot_at E traverse fuel) p s = Some (r, s') ->
  Watcher_heap s !! w = Some W ->
  exists W',
    Watcher_heap s' !! w = Some W'
    /\ same_options W W'
    /\ (active W = false -> active W' = false).
Proof.
  intros HI Hp EW.
  destruct (stable_knot R_alive respects_R_alive E traverse fuel) as (Hx & _).
  destruct (Hx p s r s' Hp HI) as [_ Ha]. by apply Ha.
Qed.

Lemma teardown_active w s W :
  Watcher_heap (teardown w s) !! w = Some W -> active W = false.
Proof.
  destruct (Watcher_heap s !! w) as [W0|] eqn:EW.
  - destruct (active W0) eqn:Ha.
    + assert (Hl : forall s1, Watcher_heap s1 = Watcher_heap s ->
                Watcher_heap
                  (upd_Watcher_heap (alter (W_set_active false) w)
                     (foldl (unsub_step w (fun _ => False)) s1 (reverse (deps W0))))
                  !! w = Some W -> active W = false).
      { intros s1 Hs1. simpl.
        destruct (same_ctx_unsub w (fun _ => False) (reverse (deps W0)) s1) as [_ ->].
        rewrite Hs1, lookup_alter_eq, EW. simpl. by intros [= <-]. }
      destruct (Vm_heap s !! vm W0) as [V|] eqn:EV.
      * rewrite (teardown_eq _ _ _ _ EW Ha EV). apply Hl.
        by destruct (_isBeingDestroyed V).
      * rewrite (teardown_eq_novm _ _ _ EW Ha EV). by apply Hl.
    + unfold teardown. rewrite EW, Ha, EW. by intros [= <-].
  - unfold teardown. by rewrite EW, EW.
Qed.

(** X2. After [teardown], [run] does nothing: the Watcher is not evaluated and
    its callback is not called, whatever state it is in. *)
Theorem run_after_teardown_is_noop traverse rec w s :
  Watcher_run traverse rec w (teardown w s) = Some (Val tt, teardown w s).
Proof.
  unfold Watcher_run, bind at 1, gets at 1.
  destruct (Watcher_heap (teardown w s) !! w) as [W|] eqn:EW; [|done].
  by rewrite (teardown_active _ _ _ EW).
Qed.

(** X3. [run] on an active Watcher evaluates it; an error of the evaluation
    leaves [run] as it is. When the new value is [===] to the stored one, is
    not an object and the Watcher is not deep, [run] ends there, the callback
    is not called. Otherwise the new value is stored and then the callback is
    called with the new and the old value (stated for a Watcher that is not a
    user Watcher, whose callback is called directly). *)
Theorem run_fires_on_change traverse rec w W s :
  Watcher_heap s !! w = Some W -> active W = true ->
  (forall e s1, Watcher_get traverse rec w s = Some (Exn e, s1) ->
     Watcher_run traverse rec w s = Some (Exn e, s1))
  /\ (forall v s1, Watcher_get traverse rec w s = Some (Val v, s1) ->
      let old := default VUndef (value <$> Watcher_heap s1 !! w) in
      (strict_eq v old = true -> isObject v = false -> deep W = false ->
         Watcher_run traverse rec w s = Some (Val tt, s1))
      /\ (strict_eq v old = false \/ isObject v = true \/ deep W = true ->
          user W = false ->
          Watcher_run traverse rec w s
          = (call rec (cb W v old) ;;; ret tt)
              (upd_Watcher_heap (alter (W_set_value v) w) s1))).
Proof.
  intros EW Ha.
  assert (Hrun : Watcher_run traverse rec w s =
            (v <~ Watcher_get traverse rec w ;;
             old <~ gets (fun s => default VUndef (value <$> Watcher_heap s !! w)) ;;
             if negb (strict_eq v old) || isObject v || deep W then
               modify (upd_Watcher_heap (alter (W_set_value v) w)) ;;;
               if user W then
                 catch (call rec (cb W v old) ;;; ret tt)
                   (fun e => modify (handleError e (vm W) (callback_label W)))
               else call rec (cb W v old) ;;; ret tt
             else ret tt) s).
  { unfold Watcher_run, bind at 1, gets at 1. by rewrite EW, Ha. }
  split.
  - intros e s1 Hg. rewrite Hrun. unfold bind at 1. by rewrite Hg.
  - intros v s1 Hg old. split.
    + intros H1 H2 H3. rewrite Hrun. unfold bind at 1. rewrite Hg.
      unfold bind at 1, gets at 1. fold old. by rewrite H1, H2, H3.
    + intros Hch Hu. rewrite Hrun. unfold bind at 1. rewrite Hg.
      unfold bind at 1, gets at 1. fold old.
      assert (negb (strict_eq v old) || isObject v || deep W = true) as ->.
      { destruct Hch as [->|[->| ->]]; [done| |]; by rewrite ?orb_true_r. }
      rewrite Hu. by unfold bind at 1, modify at 1.
Qed.

(** X4. A computed property is cached. Outside any evaluation ([Dep.target] is
    empty), a read through [computedGetter] that returns leaves the Watcher
    clean with the value it returned, and reading again returns the same value
    without touching the state: the getter does not run a second time. A read
    of a clean Watcher changes nothing at all. *)
Theorem computed_is_cached E traverse fuel w W s v s' :
  Inv s -> consistent s -> Dep_target s = None ->
  Watcher_heap s !! w = Some W ->
  computedGetter traverse (knot_at E traverse fuel) w s = Some (Val v, s') ->
  (dirty W = false -> v = value W /\ s' = s)
  /\ (exists W', Watcher_heap s' !! w = Some W' /\ dirty W' = false /\ value W' = v)
  /\ computedGetter traverse (knot_at E traverse fuel) w s' = Some (Val v, s').
Proof.
  intros HI Hc Ht EW H.
  set (rec := knot_at E traverse fuel) in *.
  assert (Hclean : forall s0 W0, Dep_target s0 = None ->
            Watcher_heap s0 !! w = Some W0 -> dirty W0 = false ->
            computedGetter traverse rec w s0 = Some (Val (value W0), s0)).
  { intros s0 W0 Ht0 EW0 Hd0. unfold computedGetter, bind at 1, gets at 1.
    rewrite EW0, Hd0. simpl. unfold bind at 1, ret at 1.
    unfold bind at 1, gets at 1. rewrite Ht0. simpl.
    unfold bind at 1, ret at 1. unfold gets. by rewrite EW0. }
  destruct (dirty W) eqn:Hd.
  - unfold computedGetter, bind at 1, gets at 1 in H. rewrite EW, Hd in H.
    simpl in H. unfold bind at 1, Watcher_evaluate, bind at 1 in H.
    destruct (Watcher_get traverse rec w s) as [[[v0|e] sg]|] eqn:Eg; [|done|done].
    unfold modify at 1 in H.
    pose proof (stable_Watcher_get R_bal respects_R_bal traverse _
                  (stable_knot R_bal respects_R_bal E traverse fuel) w
                  s _ sg Eg Hc) as [_ Htg].
    destruct (stable_Watcher_get R_alive respects_R_alive traverse _
                (stable_knot R_alive respects_R_alive E traverse fuel) w
                s _ sg Eg HI) as [_ Hal].
    destruct (Hal w W EW) as (Wg & EWg & _ & _).
    unfold bind at 1, gets at 1 in H. simpl in H. rewrite Htg, Ht in H.
    simpl in H. unfold bind at 1, ret at 1, gets in H. simpl in H.
    rewrite lookup_alter_eq, EWg in H. simpl in H. injection H as <- <-.
    split; [done|]. split.
    + eexists. split; [simpl; by rewrite lookup_alter_eq, EWg|]. by split.
    + apply (Hclean _ (W_set_dirty false (W_set_value v0 Wg))); [|simpl|done].
      * simpl. by rewrite Htg.
      * by rewrite lookup_alter_eq, EWg.
  - rewrite (Hclean s W Ht EW Hd) in H. injection H as <- <-.
    split; [done|]. split; [by exists W|]. by apply Hclean.
Qed.

Lemma depend_step d t T s :
  Dep_target s = Some t -> Watcher_heap s !! t = Some T ->
  Dep_target (Dep_depend d s) = Some t
  /\ (exists T', Watcher_heap (Dep_depend d s) !! t = Some T'
        /\ deps T' = deps T /\ depIds T' = depIds T
        /\ (forall d0, d0 ∈ newDepIds T' <-> d0 ∈ newDepIds T \/ d0 = d))
  /\ (forall d0 x, x ∈ subs (the_Dep s d0) -> x ∈ subs (the_Dep (Dep_depend d s) d0))
  /\ (forall d0, is_Some (Dep_heap s !! d0) -> is_Some (Dep_heap (Dep_depend d s) !! d0))
  /\ (d ∉ depIds T -> d ∉ newDepIds T -> is_Some (Dep_heap s !! d) ->
      t ∈ subs (the_Dep (Dep_depend d s) d)).
Proof.
  intros Ht ET. unfold Dep_depend. simpl. rewrite Ht.
  set (s0 := log (EDepend d (Some t)) s).
  assert (ET0 : Watcher_heap s0 !! t = Some T) by done.
  split; [by destruct (same_ctx_addDep t d s0) as (_ & -> & _)|].
  split; [by apply addDep_lookup|].
  unfold Watcher_addDep. rewrite ET0.
  destruct (decide (d ∈ newDepIds T)) as [Hin|Hnin].
  { split; [done|]. split; [done|]. by intros _ Hn. }
  destruct (decide (d ∈ depIds T)) as [Hin'|Hnin'].
  { split; [done|]. split; [done|]. by intros Hn. }
  unfold Dep_addSub, the_Dep. simpl. split; [|split].
  - intros d0 x. destruct (decide (d0 = d)) as [->|Hne].
    + rewrite lookup_alter_eq. destruct (Dep_heap s !! d); simpl; [|done].
      intros Hx. apply elem_of_app. by left.
    + by rewrite lookup_alter_ne.
  - intros d0. destruct (decide (d0 = d)) as [->|Hne].
    + rewrite lookup_alter_eq. intros [D ->]. by eexists.
    + by rewrite lookup_alter_ne.
  - intros _ _ [D HD]. rewrite lookup_alter_eq, HD. simpl.
    apply elem_of_app. right. apply elem_of_cons. by left.
Qed.

Lemma depend_fold l t T s :
  Dep_target s = Some t -> Watcher_heap s !! t = Some T ->
  let s' := foldl (fun s0 d => Dep_depend d s0) s l in
  Dep_target s' = Some t
  /\ (exists T', Watcher_heap s' !! t = Some T'
        /\ deps T' = deps T /\ depIds T' = depIds T
        /\ (forall d0, d0 ∈ newDepIds T' <-> d0 ∈ newDepIds T \/ d0 ∈ l))
  /\ (forall d0 x, x ∈ subs (the_Dep s d0) -> x ∈ subs (the_Dep s' d0))
  /\ (forall d0, is_Some (Dep_heap s !! d0) -> is_Some (Dep_heap s' !! d0))
  /\ (forall d, d ∈ l -> d ∉ depIds T -> d ∉ newDepIds T ->
      is_Some (Dep_heap s !! d) -> t ∈ subs (the_Dep s' d)).
Proof.
  revert T s. induction l as [|d l IH]; intros T s Ht ET; simpl.
  { split; [done|]. split; [|split; [done|split; [done|]]].
    - exists T. repeat split; try done; [by left|]. intros [?|Hx]; [done|].
      by apply elem_of_nil in Hx.
    - intros d Hd. by apply elem_of_nil in Hd. }
  destruct (depend_step d t T s Ht ET) as (Ht1 & (T1 & ET1 & Hd1 & Hi1 & Hn1) & Hs1 & Hh1 & Hnew).
  destruct (IH T1 _ Ht1 ET1) as (Ht2 & (T2 & ET2 & Hd2 & Hi2 & Hn2) & Hs2 & Hh2 & Hall).
  split; [done|]. split; [|split; [|split]].
  - exists T2. split; [done|]. split; [congruence|]. split; [congruence|].
    intros d0. rewrite Hn2, Hn1, elem_of_cons. tauto.
  - intros d0 x Hx. by apply Hs2, Hs1.
  - intros d0 Hd0. by apply Hh2, Hh1.
  - intros d0 Hd0 Hni Hnn Hex.
    destruct (decide (d0 = d)) as [->|Hne]; [by apply Hs2, Hnew|].
    apply elem_of_cons in Hd0 as [?|Hd0]; [done|].
    apply Hall; [done|by rewrite Hi1| |by apply Hh1].
    rewrite Hn1. intros [?|?]; [done|done].
Qed.

(** X5. [Watcher.depend] hands every Dep of the Watcher's [deps] to the
    Watcher that is being evaluated: afterwards the new-Dep ids of the target
    are the ones it had and the ids in [deps], its [deps] are untouched, it is
    a subscriber of each of these Deps that exists and that it had not
    recorded before, and no Dep has lost a subscriber. *)
Theorem depend_registers_target w W t T s :
  Watcher_heap s !! w = Some W ->
  Dep_target s = Some t -> Watcher_heap s !! t = Some T ->
  exists s' T',
    Watcher_depend w s = Some (Val tt, s')
    /\ Watcher_heap s' !! t = Some T'
    /\ deps T' = deps T /\ depIds T' = depIds T
    /\ (forall d, d ∈ newDepIds T' <-> d ∈ newDepIds T \/ d ∈ deps W)
    /\ (forall d, d ∈ deps W -> d ∉ depIds T -> d ∉ newDepIds T ->
        is_Some (Dep_heap s !! d) -> t ∈ subs (the_Dep s' d))
    /\ (forall d x, x ∈ subs (the_Dep s d) -> x ∈ subs (the_Dep s' d)).
Proof.
  intros EW Ht ET.
  destruct (depend_fold (reverse (deps W)) t T s Ht ET)
    as (_ & (T' & ET' & Hd & Hi & Hn) & Hs & _ & Hall).
  eexists. exists T'. split.
  { unfold Watcher_depend, bind at 1, gets at 1. rewrite EW. simpl.
    apply for_each_modify. }
  split; [done|]. split; [done|]. split; [done|]. split; [|split; [|done]].
  - intros d. rewrite Hn, elem_of_reverse. tauto.
  - intros d Hd0. apply Hall. by rewrite elem_of_reverse.
Qed.

Lemma R_dep_same s s' :
  Dep_uid s' = Dep_uid s ->
  (forall d, is_Some (Dep_heap s' !! d) <-> is_Some (Dep_heap s !! d)) ->
  R_dep s s'.
Proof.
  intros Hu Hd. split; [lia|]. intros d. rewrite Hd, Hu.
  split; [by left|]. intros [?|?]; [done|lia].
Qed.

Lemma R_dep_trans s1 s2 s3 : R_dep s1 s2 -> R_dep s2 s3 -> R_dep s1 s3.
Proof.
  intros [H1 H2] [H3 H4]. split; [lia|]. intros d. rewrite H4, H2.
  split; [intros [[?|?]|?]|intros [?|?]]; try tauto; try (right; lia).
  destruct (decide (d < Dep_uid s2)); [left; right; lia|right; lia].
Qed.

Lemma R_dep_unsub w K `{!forall d, Decision (K d)} l s :
  R_dep s (foldl (unsub_step w K) s l).
Proof.
  apply R_dep_same.
  - by destruct (same_ctx_unsub w K l s) as [(_ & _ & _ & _ & -> & _) _].
  - intros d. destruct (unsub_lookup w K l s d) as (n & -> & _).
    by rewrite fmap_is_Some.
Qed.

Lemma R_dep_cleanupDeps w s : R_dep s (cleanupDeps w s).
Proof.
  destruct (Watcher_heap s !! w) as [W|] eqn:EW.
  - rewrite (cleanupDeps_eq _ _ _ EW).
    eapply R_dep_trans; [apply (R_dep_unsub w (fun d => d ∈ newDepIds W))|].
    by apply R_dep_same.
  - unfold cleanupDeps. rewrite EW. by apply R_dep_same.
Qed.

Lemma R_dep_teardown w s : R_dep s (teardown w s).
Proof.
  destruct (teardown_cases w s) as [->|(W & s1 & _ & _ & Hg & ->)];
    [by apply R_dep_same|].
  eapply R_dep_trans; [|eapply R_dep_trans;
    [apply (R_dep_unsub w (fun _ => False))|by apply R_dep_same]].
  destruct Hg as [->|[f ->]]; by apply R_dep_same.
Qed.

Lemma R_dep_depend d s : R_dep s (Dep_depend d s).
Proof.
  unfold Dep_depend. simpl. destruct (Dep_target s) as [t|]; [|by apply R_dep_same].
  unfold Watcher_addDep. simpl.
  destruct (Watcher_heap s !! t) as [T|]; [|by apply R_dep_same].
  destruct (decide _); [by apply R_dep_same|].
  destruct (decide _); [by apply R_dep_same|].
  apply R_dep_same; [done|]. intros d0. simpl.
  destruct (decide (d0 = d)) as [->|Hne].
  - rewrite lookup_alter_eq. by rewrite fmap_is_Some.
  - by rewrite lookup_alter_ne.
Qed.

Lemma respects_R_dep : respects R_dep.
Proof.
  split.
  - intros s. by apply R_dep_same.
  - apply R_dep_trans.
  - intros s s' (H1 & H2 & _). apply R_dep_same; [done|]. by rewrite H2.
  - intros s s2 H. eapply R_dep_trans; [|eapply R_dep_trans; [apply H|]];
      by apply R_dep_same.
  - intros w s s2 _ H.
    eapply R_dep_trans; [|eapply R_dep_trans; [apply H|]]; [by apply R_dep_same|].
    eapply R_dep_trans; [|apply R_dep_cleanupDeps]. by apply R_dep_same.
  - intros d s. by apply R_dep_same.
  - intros w s. by apply R_dep_same.
  - apply R_dep_depend.
  - apply R_dep_teardown.
  - intros s. split; simpl; [lia|]. intros d.
    destruct (decide (d = Dep_uid s)) as [->|Hne].
    + rewrite lookup_insert_eq. split; [intros _; right; lia|by eexists].
    + rewrite lookup_insert_ne by done. split; [by left|].
      intros [?|?]; [done|lia].
  - intros w v s. by apply R_dep_same.
  - intros w b s. by apply R_dep_same.
  - intros vm_ W b s _. by apply R_dep_same.
Qed.

(** X7. The ids of Deps are handed out in order and never reused: when every
    Dep has an id below the counter, after any run of a script the counter is
    at least what it was, the Deps are the ones there were and one for each id
    handed out since, and the id the next [new Dep()] takes belongs to no Dep.
    *)
Theorem dep_ids_are_never_reused E traverse fuel p s r s' :
  dep_ids_below s ->
  k_exec (knot_at E traverse fuel) p s = Some (r, s') ->
  Dep_uid s <= Dep_uid s'
  /\ (forall d, is_Some (Dep_heap s' !! d)
                <-> is_Some (Dep_heap s !! d) \/ Dep_uid s <= d < Dep_uid s')
  /\ dep_ids_below s'
  /\ Dep_heap s' !! (new_Dep s').1 = None.
Proof.
  intros Hb Hp.
  destruct (stable_knot R_dep respects_R_dep E traverse fuel) as (Hx & _).
  destruct (Hx p s r s' Hp) as [H1 H2].
  assert (Hb' : dep_ids_below s').
  { intros d Hd. apply H2 in Hd as [Hd|Hd]; [|lia]. apply Hb in Hd. lia. }
  split; [done|]. split; [done|]. split; [done|].
  simpl. destruct (Dep_heap s' !! Dep_uid s') eqn:Ed; [|done].
  assert (Dep_uid s' < Dep_uid s'); [|lia]. apply Hb'. by rewrite Ed.
Qed.


Lemma Dep_depend_heaps d s :
  Obj_heap (Dep_depend d s) = Obj_heap s
  /\ Observer_heap (Dep_depend d s) = Observer_heap s
  /\ Closure_heap (Dep_depend d s) = Closure_heap s.
Proof.
  unfold Dep_depend. simpl. destruct (Dep_target s) as [t|]; [|done].
  destruct (same_ctx_addDep t d (log (EDepend d (Some t)) s))
    as (_ & _ & _ & _ & _ & _ & _ & _ & -> & -> & -> & _). done.
Qed.

(** X8. Reading a reactive data property (one without a pre-existing getter)
    outside any evaluation returns the stored value and changes nothing.
    During the evaluation of a Watcher the read registers the property's Dep
    and, when the closure holds a child Observer, the Dep of that Observer
    with the Watcher being evaluated, and returns the stored value (for a
    value that is not an array).  The child Observer is [childOb], what
    [observe(val)] returned when the property was defined or last assigned:
    a shallow property has none, and neither has a property whose value
    was given an Observer later. *)
Theorem getter_subscribes_the_target rec p C s :
  Closure_heap s !! p = Some C -> c_getter C = None ->
  (Dep_target s = None -> reactiveGetter rec p s = Some (Val (c_val C), s))
  /\ (forall t T, Dep_target s = Some t -> Watcher_heap s !! t = Some T ->
      is_array_val s (c_val C) = false ->
      let ds := c_dep C
                :: match c_childOb C ≫= (fun b => Observer_heap s !! b) with
                   | Some B => [ob_dep B]
                   | None => []
                   end in
      exists s' T',
        reactiveGetter rec p s = Some (Val (c_val C), s')
        /\ s' = foldl (fun s0 d => Dep_depend d s0) s ds
        /\ Watcher_heap s' !! t = Some T'
        /\ (forall d, d ∈ newDepIds T' <-> d ∈ newDepIds T \/ d ∈ ds)
        /\ (forall d, d ∈ ds -> d ∉ depIds T -> d ∉ newDepIds T ->
            is_Some (Dep_heap s !! d) -> t ∈ subs (the_Dep s' d))).
Proof.
  intros EC Hg. split.
  - intros Ht. unfold reactiveGetter, bind at 1, gets at 1. rewrite EC.
    unfold current_value. rewrite Hg. unfold bind at 1, ret at 1.
    unfold bind at 1, gets at 1. by rewrite Ht.
  - intros t T Ht ET Harr ds.
    destruct (depend_fold ds t T s Ht ET) as (_ & (T' & ET' & _ & _ & Hn) & _ & _ & Hall).
    eexists. exists T'. split; [|split; [reflexivity|split; [exact ET'|split; [exact Hn|exact Hall]]]].
    unfold reactiveGetter, bind at 1, gets at 1. rewrite EC.
    unfold current_value. rewrite Hg. unfold bind at 1, ret at 1.
    unfold bind at 1, gets at 1. rewrite Ht. simpl.
    unfold bind at 1. unfold bind at 1, modify at 1.
    destruct (Dep_depend_heaps (c_dep C) s) as (Ho & Hob & Hc).
    unfold bind at 1, gets at 1. rewrite Hc, EC. simpl.
    unfold ds. destruct (c_childOb C) as [b|]; simpl.
    + unfold bind at 1. unfold bind at 1, gets at 1. rewrite Hob.
      destruct (Observer_heap s !! b) as [B|]; simpl.
      * unfold bind at 1, gets at 1.
        assert (is_array_val (Dep_depend (ob_dep B) (Dep_depend (c_dep C) s)) (c_val C)
                = false) as ->.
        { unfold is_array_val in *. destruct (c_val C); try done.
          destruct (Dep_depend_heaps (ob_dep B) (Dep_depend (c_dep C) s)) as (-> & _).
          by rewrite Ho. }
        by destruct (c_val C).
      * unfold ret at 1. unfold bind at 1, gets at 1.
        assert (is_array_val (Dep_depend (c_dep C) s) (c_val C) = false) as ->.
        { unfold is_array_val in *. destruct (c_val C); try done. by rewrite Ho. }
        by destruct (c_val C).
    + done.
Qed.

Lemma walk_deferred_ctx traverse rec l s :
  (forall w, w ∈ l -> deferred s w) ->
  exists s',
    for_each (Watcher_update traverse rec) l s = Some (Val tt, s')
    /\ Dep_target s' = Dep_target s /\ targetStack s' = targetStack s
    /\ Dep_heap s' = Dep_heap s /\ Closure_heap s' = Closure_heap s
    /\ Obj_heap s' = Obj_heap s /\ Observer_heap s' = Observer_heap s
    /\ warnings s' = warnings s /\ errors s' = errors s.
Proof.
  revert s. induction l as [|x l IH]; intros s Hl; simpl.
  - exists s. by repeat split.
  - assert (Hstep : exists s1,
              Watcher_update traverse rec x s = Some (Val tt, s1)
              /\ (Dep_target s1 = Dep_target s /\ targetStack s1 = targetStack s
                  /\ Dep_heap s1 = Dep_heap s /\ Closure_heap s1 = Closure_heap s
                  /\ Obj_heap s1 = Obj_heap s /\ Observer_heap s1 = Observer_heap s
                  /\ warnings s1 = warnings s /\ errors s1 = errors s)
              /\ forall w, deferred s w -> deferred s1 w).
    { destruct (Watcher_heap s !! x) as [W|] eqn:EW.
      - rewrite (Watcher_update_eq _ _ _ _ _ EW).
        assert (Hlazy : forall w, deferred s w ->
                  deferred (upd_Watcher_heap (alter (W_set_dirty true) x)
                               (log (EUpdate x) s)) w).
        { intros w Hw W1. simpl. destruct (decide (w = x)) as [->|Hne].
          - rewrite lookup_alter_eq, EW. intros [= <-]. exact (Hw W EW).
          - rewrite lookup_alter_ne by done. apply Hw. }
        destruct (Hl x (list_elem_of_here _ _) W EW) as [-> | Hs].
        + eexists. split; [done|]. split; [by repeat split|done].
        + destruct (lazy W) eqn:El.
          * eexists. split; [done|]. split; [by repeat split|done].
          * rewrite Hs. eexists. split; [done|].
            unfold queueWatcher. destruct (decide _); by repeat split.
      - unfold Watcher_update, bind at 1, modify at 1, bind at 1, gets at 1.
        simpl. rewrite EW. eexists. split; [done|]. by repeat split. }
    destruct Hstep as (s1 & Hu & (A1 & A2 & A3 & A4 & A5 & A6 & A7 & A8) & Hdef).
    destruct (IH s1) as (s' & Hw & B1 & B2 & B3 & B4 & B5 & B6 & B7 & B8).
    { intros w Hw. apply Hdef, Hl. by apply list_elem_of_further. }
    exists s'. unfold bind at 1. rewrite Hu. split; [done|].
    repeat split; congruence.
Qed.

Lemma Dep_notify_deferred_ctx E traverse rec d s :
  (forall w, w ∈ subs (the_Dep s d) -> deferred s w) ->
  exists s',
    Dep_notify E traverse rec d s = Some (Val tt, s')
    /\ Dep_target s' = Dep_target s /\ targetStack s' = targetStack s
    /\ Dep_heap s' = Dep_heap s /\ Closure_heap s' = Closure_heap s
    /\ Obj_heap s' = Obj_heap s /\ Observer_heap s' = Observer_heap s
    /\ warnings s' = warnings s /\ errors s' = errors s.
Proof.
  intros Hd. unfold Dep_notify, bind at 1, modify at 1, bind at 1, gets at 1.
  change (notify_subs E (log (ENotify d) s) d) with (notify_subs E s d).
  destruct (walk_deferred_ctx traverse rec (notify_subs E s d) (log (ENotify d) s))
    as (s' & Hw & H).
  { intros w Hw. apply Hd. by rewrite <- (notify_subs_perm E s d). }
  exists s'. split; [done|]. exact H.
Qed.

(** X9. Write, then read. For a data property (no pre-existing getter or
    setter) without customSetter hook (or in a production build), assigning a
    value that is not an object (or any value, when the property is shallow)
    while every subscriber defers its work returns; afterwards the stored
    value is the same as the assigned one in the sense of the setter's test,
    it is the assigned value itself when that differed from the old one, the
    state is the old state when it did not, and outside any evaluation the
    getter returns the stored value and changes nothing. *)
Theorem write_then_read E traverse rec p C newVal s :
  Closure_heap s !! p = Some C ->
  c_getter C = None -> c_setter C = None ->
  (c_customSetter C = None \/ production E = true) ->
  (c_shallow C = true \/ isObject newVal = false) ->
  (forall w, w ∈ subs (the_Dep s (c_dep C)) -> deferred s w) ->
  exists s' C',
    reactiveSetter E traverse rec p newVal s = Some (Val tt, s')
    /\ Closure_heap s' !! p = Some C'
    /\ same_value newVal (c_val C') = true
    /\ (same_value newVal (c_val C) = true -> s' = s)
    /\ (same_value newVal (c_val C) = false -> c_val C' = newVal)
    /\ (Dep_target s = None ->
        reactiveGetter rec p s' = Some (Val (c_val C'), s')).
Proof.
  intros EC Hg Hs Hcs Hprim Hdef.
  rewrite (reactiveSetter_eq _ _ _ _ _ _ _ EC).
  unfold current_value. rewrite Hg. unfold bind at 1, ret at 1.
  assert (Hread : forall s1 C1, Closure_heap s1 !! p = Some C1 ->
            c_getter C1 = None -> Dep_target s1 = None ->
            reactiveGetter rec p s1 = Some (Val (c_val C1), s1)).
  { intros s1 C1 EC1 Hg1 Ht1.
    unfold reactiveGetter, bind at 1, gets at 1. rewrite EC1.
    unfold current_value. rewrite Hg1. unfold bind at 1, ret at 1.
    unfold bind at 1, gets at 1. by rewrite Ht1. }
  destruct (same_value newVal (c_val C)) eqn:Esame.
  - exists s, C. split; [done|]. split; [done|]. split; [done|]. split; [done|].
    split; [done|]. intros Ht. by apply Hread.
  - assert (Hhook : run_customSetter E rec C s = Some (Val tt, s)).
    { unfold run_customSetter. destruct Hcs as [->| ->]; [done|].
      by destruct (c_customSetter C). }
    unfold bind at 1. rewrite Hhook, Hs. simpl.
    unfold bind at 1. unfold bind at 1, modify at 1.
    set (s1 := upd_Closure_heap (alter (C_set_val newVal) p) s).
    assert (Hobs : (if c_shallow C then ret None else observe E rec newVal false) s1
                   = Some (Val None, s1)).
    { destruct Hprim as [->|Hp]; [done|]. destruct (c_shallow C); [done|].
      by destruct newVal. }
    unfold bind at 1. rewrite Hobs. unfold modify at 1.
    set (s2 := upd_Closure_heap (alter (C_set_childOb None) p) s1).
    destruct (Dep_notify_deferred_ctx E traverse rec (c_dep C) s2)
      as (s' & Hn & Ht & _ & _ & Hc & _); [exact Hdef|].
    assert (EC' : Closure_heap s' !! p = Some (C_set_childOb None (C_set_val newVal C))).
    { rewrite Hc. unfold s2, s1. simpl. by rewrite !lookup_alter_eq, EC. }
    exists s'. eexists. split; [exact Hn|]. split; [exact EC'|]. simpl.
    split; [|split; [done|split; [done|]]].
    + unfold same_value. destruct (strict_eq newVal newVal) eqn:Eq; [done|].
      by rewrite orb_false_l.
    + intros Ht0. apply (Hread s' _ EC'); [done|]. by rewrite Ht.
Qed.

(** ** Property lists *)



Lemma get_slot_put_slot ps k sl k' :
  get_slot (put_slot ps k sl) k' = if decide (k = k') then Some sl else get_slot ps k'.
Proof.
  induction ps as [|[k0 sl0] ps IH]; simpl.
  - destruct (decide (k = k')); [done|done].
  - destruct (decide (k0 = k)) as [->|Hne]; simpl.
    + destruct (decide (k = k')); [done|done].
    + destruct (decide (k0 = k')) as [->|Hne'].
      * by rewrite decide_False by done.
      * done.
Qed.


Lemma remove_slot_put_slot ps k sl :
  get_slot ps k = None -> remove_slot (put_slot ps k sl) k = ps.
Proof.
  induction ps as [|[k0 sl0] ps IH]; simpl.
  - intros _. by rewrite decide_True.
  - destruct (decide (k0 = k)) as [->|Hne]; [done|]. simpl.
    rewrite decide_False by done. intros H. by rewrite IH.
Qed.

Lemma Object_keys_remove_slot obj k :
  Object_keys (O_set_props (remove_slot (o_props obj) k) obj)
  ⊆ Object_keys obj.
Proof.
  unfold Object_keys. simpl. induction (o_props obj) as [|[k0 sl0] ps IH]; simpl; [done|].
  destruct (decide (k0 = k)) as [->|Hne].
  - rewrite filter_cons. destruct (decide _); simpl; [|done].
    intros x Hx. by right.
  - rewrite !filter_cons. destruct (decide _); simpl; [|done].
    intros x Hx. apply elem_of_cons in Hx as [->|Hx]; [by left|right; by apply IH].
Qed.

Lemma del_eq E traverse rec r obj name s :
  Obj_heap s !! r = Some obj ->
  isArray obj && isValidArrayIndex name = false ->
  del E traverse rec (VObj r) name s =
    (let ob := o_ob obj ≫= fun b => Observer_heap s !! b in
     if o_isVue obj || bool_decide (0 < default 0 (vmCount <$> ob)) then
       when (negb (production E)) (modify (warn warn_del_root))
     else if negb (hasOwn obj name) then ret tt
     else
       delete_prop r name ;;;
       match ob with
       | None => ret tt
       | Some B => Dep_notify E traverse rec (ob_dep B)
       end) s.
Proof.
  intros EO Harr. unfold del. rewrite andb_false_r. simpl.
  unfold bind at 1, ret at 1. unfold bind at 1, gets at 1. rewrite EO, Harr.
  by unfold bind at 1, gets at 1.
Qed.

(** X12. [del] on a Vue instance or on root data (an Observer with [vmCount >
    0]) deletes nothing: it returns after the warning, which a production
    build omits, and no Dep is notified. *)
Theorem del_on_root_is_refused E traverse rec r obj name s :
  Obj_heap s !! r = Some obj ->
  isArray obj && isValidArrayIndex name = false ->
  (o_isVue obj = true
   \/ exists b B, o_ob obj = Some b /\ Observer_heap s !! b = Some B
                  /\ 0 < vmCount B) ->
  exists s',
    del E traverse rec (VObj r) name s = Some (Val tt, s')
    /\ s' = (if production E then s else warn warn_del_root s)
    /\ Obj_heap s' !! r = Some obj
    /\ trace s' = trace s.
Proof.
  intros EO Harr Hroot. rewrite (del_eq _ _ _ _ _ _ _ EO Harr). simpl.
  assert (o_isVue obj
          || bool_decide (0 < default 0 (vmCount <$> (o_ob obj ≫= fun b => Observer_heap s !! b)))
          = true) as ->.
  { destruct Hroot as [->|(b & B & -> & EB & Hv)]; [done|].
    simpl. rewrite EB. simpl. rewrite bool_decide_eq_true_2 by done.
    by destruct (o_isVue obj). }
  exists (if production E then s else warn warn_del_root s).
  destruct (production E); simpl; by repeat split.
Qed.



Lemma has_key_ordinary obj name :
  ordinary_key name = true ->
  get_slot (o_props obj) name = None ->
  isArray obj && isValidArrayIndex name = false ->
  has_key obj name = false.
Proof.
  intros Hord Hslot Harr. unfold has_key. rewrite Hslot.
  assert (bool_decide (is_Some (@None slot)) = false) as ->
    by (apply bool_decide_eq_false_2; by intros [? ?]).
  destruct name as [n|n]; simpl in *.
  - apply andb_true_iff in Hord as [Hord Harrn].
    apply andb_true_iff in Hord as [Hres Hobj].
    apply negb_true_iff in Hres, Hobj, Harrn.
    rewrite Hobj, Harrn.
    assert (bool_decide (n = "__ob__") = false) as ->.
    { apply bool_decide_eq_false_2. intros ->. by vm_compute in Hres. }
    assert (bool_decide (n = "_isVue") = false) as ->.
    { apply bool_decide_eq_false_2. intros ->. by vm_compute in Hres. }
    assert (bool_decide (n ∈ Vue_prototype_keys) = false) as ->.
    { apply bool_decide_eq_false_2. unfold Vue_prototype_keys. intros Hin.
      repeat (apply elem_of_cons in Hin as [->|Hin]; [by vm_compute in Hres|]).
      by apply elem_of_nil in Hin. }
    by rewrite !andb_false_r.
  - rewrite andb_true_r in Harr. by rewrite Harr.
Qed.

(** X11. On a plain object that has no Observer and is not a Vue instance,
    [set] with an ordinary key (one that Vue does not keep for
    itself and that no prototype defines) that is not an own property stores
    a plain data property without notifying any Dep, a read of the key then
    gives the value, and [del] of the key gives back the state before [set].
    If the object is not extensible [set] throws instead (the assignment is
    in strict mode). *)
Theorem del_undoes_set E traverse rec r obj name val s :
  Obj_heap s !! r = Some obj ->
  o_class obj = CPlain ->
  ordinary_key name = true ->
  get_slot (o_props obj) name = None ->
  o_isVue obj = false -> o_ob obj = None ->
  (o_extensible obj = false ->
     set E traverse rec (VObj r) name val s = Some (Exn TypeError, s))
  /\ (o_extensible obj = true ->
      exists s1,
        set E traverse rec (VObj r) name val s = Some (Val val, s1)
        /\ trace s1 = trace s /\ Dep_heap s1 = Dep_heap s
        /\ read_prop rec r name s1 = Some (Val val, s1)
        /\ del E traverse rec (VObj r) name s1 = Some (Val tt, s)).
Proof.
  intros EO Hcl Hord Hslot Hvue Hob.
  assert (Harr : isArray obj = false)
    by (unfold isArray; rewrite Hcl; by apply bool_decide_eq_false_2).
  assert (Hkey : has_key obj name && negb (in_Object_prototype name) = false)
    by (rewrite has_key_ordinary; [done..|by rewrite Harr]).
  assert (Hset : set E traverse rec (VObj r) name val s
                 = (assign rec r name val ;;; ret val) s).
  { unfold set. rewrite andb_false_r. simpl. unfold bind at 1, ret at 1.
    unfold bind at 1, gets at 1. rewrite EO, Harr. simpl. rewrite Hkey.
    unfold bind at 1, gets at 1. by rewrite Hob, Hvue. }
  set (s1 := upd_Obj_heap
               (alter (fun obj' => O_set_props
                         (put_slot (o_props obj') name (Data val true true)) obj') r) s).
  assert (Hassign : assign rec r name val s
                    = if o_extensible obj then Some (Val tt, s1)
                      else Some (Exn TypeError, s)).
  { unfold assign, bind at 1, gets at 1. rewrite EO, Hslot, Harr.
    destruct name; by destruct (o_extensible obj). }
  split.
  - intros Hx. rewrite Hset. unfold bind at 1. by rewrite Hassign, Hx.
  - intros Hx.
    exists s1. split; [rewrite Hset; unfold bind at 1; by rewrite Hassign, Hx|].
    split; [done|]. split; [done|].
    assert (EO1 : Obj_heap s1 !! r
                  = Some (O_set_props (put_slot (o_props obj) name (Data val true true)) obj)).
    { unfold s1. simpl. by rewrite lookup_alter_eq, EO. }
    split.
    + unfold read_prop, bind at 1, gets at 1. rewrite EO1. simpl.
      rewrite get_slot_put_slot. by rewrite decide_True.
    + rewrite (del_eq _ _ _ _ _ _ _ EO1) by (unfold isArray in *; simpl; by rewrite Harr).
      simpl.
      rewrite Hob, Hvue. simpl.
      assert (hasOwn (O_set_props (put_slot (o_props obj) name (Data val true true)) obj)
                name = true) as ->.
      { unfold hasOwn. simpl. rewrite get_slot_put_slot, decide_True by done.
        by rewrite bool_decide_eq_true_2 by (by eexists). }
      simpl. unfold bind at 1, delete_prop, bind at 1, gets at 1. rewrite EO1. simpl.
      rewrite get_slot_put_slot, decide_True by done. simpl.
      unfold ret. do 2 f_equal.
      destruct s. unfold s1, upd_Obj_heap. simpl. f_equal.
      simpl in EO. rewrite alter_alter_eq.
      apply alter_id. intros x Hx'. rewrite EO in Hx'. injection Hx' as <-.
      simpl. rewrite remove_slot_put_slot by done. by destruct obj.
Qed.

(** ** Relations that every step keeps: the rules of the monad again, for a
    preorder *)

Section Preorder.
Context (R : state -> state -> Prop).
Context (Hrefl : forall s, R s s).
Context (Htrans : forall s1 s2 s3, R s1 s2 -> R s2 s3 -> R s1 s3).

Lemma pre_ret {A} (a : A) : stable R (ret a).
Proof using Hrefl. intros s r s' [= <- <-]. apply Hrefl. Qed.

Lemma pre_throw {A} (e : jsval) : stable R (@throw A e).
Proof using Hrefl. intros s r s' [= <- <-]. apply Hrefl. Qed.

Lemma pre_gets {A} (f : state -> A) : stable R (gets f).
Proof using Hrefl. intros s r s' [= <- <-]. apply Hrefl. Qed.

Lemma pre_modify (f : state -> state) :
  (forall s, R s (f s)) -> stable R (modify f).
Proof. intros Hf s r s' [= <- <-]. apply Hf. Qed.

Lemma pre_bind {A B} (m : M A) (f : A -> M B) :
  stable R m -> (forall a, stable R (f a)) -> stable R (bind m f).
Proof using Htrans.
  intros Hm Hf s r s'. unfold bind.
  destruct (m s) as [[[a|e] s1]|] eqn:Em; [|intros [= <- <-]|discriminate].
  - intros H. eapply Htrans; [eapply Hm, Em|eapply Hf, H].
  - eapply Hm, Em.
Qed.

Lemma pre_attempt {A} (m : M A) : stable R m -> stable R (attempt m).
Proof.
  intros Hm s r s'. unfold attempt.
  destruct (m s) as [[r1 s1]|] eqn:Em; [|discriminate].
  intros [= <- <-]. eapply Hm, Em.
Qed.

Lemma pre_resume {A} (r : res A) : stable R (resume r).
Proof using Hrefl. destruct r; [apply pre_ret|apply pre_throw]. Qed.

Lemma pre_catch {A} (m : M A) (h : jsval -> M A) :
  stable R m -> (forall e, stable R (h e)) -> stable R (catch m h).
Proof using Hrefl Htrans.
  intros Hm Hh. apply pre_bind; [by apply pre_attempt|].
  intros [a|e]; [apply pre_ret|apply Hh].
Qed.

Lemma pre_when (b : bool) (m : M unit) : stable R m -> stable R (when b m).
Proof using Hrefl. destruct b; [done|intros _; apply pre_ret]. Qed.

Lemma pre_for_each {A} (body : A -> M unit) (l : list A) :
  (forall x, stable R (body x)) -> stable R (for_each body l).
Proof using Hrefl Htrans.
  intros Hb. induction l as [|x l IH]; [apply pre_ret|].
  simpl. apply pre_bind; [apply Hb|intros _; apply IH].
Qed.
End Preorder.

(** ** The heaps of objects, Observers and closures only grow *)

Lemma slot_kept_refl sl : slot_kept sl sl.
Proof. by split. Qed.

Lemma obj_kept_refl obj : obj_kept obj obj.
Proof.
  repeat split; try done.
  - intros Hn [b Hb]. congruence.
  - intros k sl Hk. exists sl. split; [done|apply slot_kept_refl].
Qed.

Lemma obj_kept_trans o1 o2 o3 : obj_kept o1 o2 -> obj_kept o2 o3 -> obj_kept o1 o3.
Proof.
  intros (a1 & a2 & a3 & a4 & a5 & a6) (b1 & b2 & b3 & b4 & b5 & b6).
  split; [congruence|]. split; [congruence|]. split; [congruence|].
  split; [auto|]. split.
  - intros Hn H3. destruct (o_ob o2) as [b|] eqn:E2.
    + apply a5; [done|by eexists].
    + assert (observable o2 = true) as Ho by (by apply b5).
      unfold observable, isArray in *. by rewrite <- a1, <- a2, <- a3.
  - intros k sl Hk. destruct (a6 k sl Hk) as (sl2 & Hk2 & c1 & c2).
    destruct (b6 k sl2 Hk2) as (sl3 & Hk3 & d1 & d2).
    exists sl3. split; [done|]. split; auto.
Qed.

Lemma heap_kept_refl s : heap_kept s s.
Proof.
  split; [by split|]. split; [|split].
  - intros r obj Hr. exists obj. split; [done|apply obj_kept_refl].
  - intros b B Hb. exists B. by repeat split.
  - intros p C Hp. exists C. by repeat split.
Qed.

Lemma heap_kept_trans s1 s2 s3 : heap_kept s1 s2 -> heap_kept s2 s3 -> heap_kept s1 s3.
Proof.
  intros ([a1 a0] & a2 & a3 & a4) ([b1 b0] & b2 & b3 & b4).
  split; [split; [lia|congruence]|]. split; [|split].
  - intros r obj Hr. destruct (a2 r obj Hr) as (o2 & H2 & K2).
    destruct (b2 r o2 H2) as (o3 & H3 & K3).
    exists o3. split; [done|by eapply obj_kept_trans].
  - intros b B Hb. destruct (a3 b B Hb) as (B2 & H2 & x1 & x2 & x3).
    destruct (b3 b B2 H2) as (B3 & H3 & y1 & y2 & y3).
    exists B3. split; [done|]. split; [congruence|]. split; [congruence|lia].
  - intros p C Hp. destruct (a4 p C Hp) as (C2 & H2 & x1 & x2 & x3 & x4 & x5 & x6 & x7).
    destruct (b4 p C2 H2) as (C3 & H3 & y1 & y2 & y3 & y4 & y5 & y6 & y7).
    exists C3. split; [done|]. repeat split; congruence.
Qed.

Lemma R_heap_refl s : R_heap s s.
Proof. intros Hs. split; [done|apply heap_kept_refl]. Qed.

Lemma R_heap_trans s1 s2 s3 : R_heap s1 s2 -> R_heap s2 s3 -> R_heap s1 s3.
Proof.
  intros H12 H23 H1. destruct (H12 H1) as [H2 K12].
  destruct (H23 H2) as [H3 K23]. split; [done|by eapply heap_kept_trans].
Qed.

Lemma ObInv_same s s' : same_heaps s s' -> ObInv s -> ObInv s'.
Proof.
  intros ([H1 _] & H2 & H3 & H4) [Ha Hb Hc Hd].
  split; rewrite ?H1, ?H2, ?H3, ?H4; assumption.
Qed.

Lemma R_heap_same s s' : same_heaps s s' -> R_heap s s'.
Proof.
  intros Hs HI. split; [by eapply ObInv_same|].
  destruct Hs as ([H1 H0] & H2 & H3 & H4).
  split; [split; [lia|done]|]. rewrite H2, H3, H4. apply heap_kept_refl.
Qed.

Lemma same_heaps_ctx s s' : same_ctx s s' -> same_heaps s s'.
Proof.
  intros (_ & _ & _ & _ & _ & _ & _ & _ & H1 & H2 & H3 & H4 & H5). by repeat split.
Qed.

Lemma same_heaps_depend d s : same_heaps s (Dep_depend d s).
Proof.
  destruct (Dep_depend_heaps d s) as (H1 & H2 & H3). repeat split; try done.
  - unfold Dep_depend. simpl. destruct (Dep_target s) as [t|]; [|done].
    by destruct (same_ctx_addDep t d (log (EDepend d (Some t)) s))
      as (_ & _ & _ & _ & _ & _ & _ & _ & _ & _ & _ & -> & _).
  - unfold Dep_depend. simpl. destruct (Dep_target s) as [t|]; [|done].
    by destruct (same_ctx_addDep t d (log (EDepend d (Some t)) s))
      as (_ & _ & _ & _ & _ & _ & _ & _ & _ & _ & _ & _ & ->).
Qed.

(** Writes to one object that keep what [obj_kept] asks. *)
Lemma R_heap_alter_obj f r s :
  (forall obj, Obj_heap s !! r = Some obj ->
     obj_kept obj (f obj) /\ o_ob (f obj) = o_ob obj) ->
  R_heap s (upd_Obj_heap (alter f r) s).
Proof.
  intros Hf HI. split.
  - destruct HI as [Ha Hb Hc Hd]. split; simpl; [| |done|done].
    + intros r0 obj' b. destruct (decide (r0 = r)) as [->|Hne].
      * rewrite lookup_alter_eq. destruct (Obj_heap s !! r) as [obj|] eqn:Er; [|done].
        simpl. intros [= <-]. destruct (Hf obj eq_refl) as [_ ->]. by apply Ha.
      * rewrite lookup_alter_ne by done. apply Ha.
    + intros b B HB. destruct (Hb b B HB) as (obj & Ho & Hob).
      destruct (decide (ob_value B = r)) as [Heq|Hne].
      * rewrite Heq in *. rewrite lookup_alter_eq, Ho. simpl. eexists. split; [done|].
        by destruct (Hf obj Ho) as [_ ->].
      * rewrite lookup_alter_ne by done. by exists obj.
  - split; [by split|]. split; [|split].
    + intros r0 obj Hr. simpl. destruct (decide (r0 = r)) as [->|Hne].
      * rewrite lookup_alter_eq, Hr. simpl. eexists. split; [done|]. by apply Hf.
      * rewrite lookup_alter_ne by done. exists obj. split; [done|apply obj_kept_refl].
    + intros b B Hb. exists B. by repeat split.
    + intros p C Hp. exists C. by repeat split.
Qed.

Lemma obj_kept_put_slot obj name sl :
  (forall old, get_slot (o_props obj) name = Some old -> slot_kept old sl) ->
  obj_kept obj (O_set_props (put_slot (o_props obj) name sl) obj)
  /\ o_ob (O_set_props (put_slot (o_props obj) name sl) obj) = o_ob obj.
Proof.
  intros Hold. split; [|done]. repeat split; try done.
  - simpl. intros Hn [b Hb]. congruence.
  - simpl. intros k sl0 Hk. rewrite get_slot_put_slot.
    destruct (decide (name = k)) as [->|Hne].
    + exists sl. split; [done|]. by apply Hold.
    + exists sl0. split; [done|apply slot_kept_refl].
Qed.

Lemma obj_kept_set_items obj l :
  obj_kept obj (O_set_items l obj) /\ o_ob (O_set_items l obj) = o_ob obj.
Proof.
  split; [|done]. repeat split; try done.
  - simpl. intros Hn [b Hb]. congruence.
  - simpl. intros k sl Hk. exists sl. split; [done|apply slot_kept_refl].
Qed.

Lemma R_heap_alter_closure f p s :
  (forall C, closure_kept C (f C)) ->
  R_heap s (upd_Closure_heap (alter f p) s).
Proof.
  intros Hf HI. split.
  - destruct HI as [Ha Hb Hc Hd]. split; simpl; [done|done|done|].
    intros p0. destruct (decide (p0 = p)) as [->|Hne].
    + rewrite lookup_alter_eq, fmap_is_Some. apply Hd.
    + rewrite lookup_alter_ne by done. apply Hd.
  - split; [by split|]. split; [|split].
    + intros r obj Hr. exists obj. split; [done|apply obj_kept_refl].
    + intros b B Hb. exists B. by repeat split.
    + intros p0 C Hp. simpl. destruct (decide (p0 = p)) as [->|Hne].
      * rewrite lookup_alter_eq, Hp. simpl. eexists. split; [done|apply Hf].
      * rewrite lookup_alter_ne by done. exists C. by repeat split.
Qed.

Lemma R_heap_alter_observer f b s :
  (forall B, observer_kept B (f B)) ->
  R_heap s (upd_Observer_heap (alter f b) s).
Proof.
  intros Hf HI. split.
  - destruct HI as [Ha Hb Hc Hd]. split; simpl; [| | |done].
    + intros r obj b0 Hr Hob. destruct (Ha r obj b0 Hr Hob) as (B & HB & Hv).
      destruct (decide (b0 = b)) as [->|Hne].
      * rewrite lookup_alter_eq, HB. simpl. eexists. split; [done|].
        destruct (Hf B) as (-> & _). done.
      * rewrite lookup_alter_ne by done. by exists B.
    + intros b0 B'. destruct (decide (b0 = b)) as [->|Hne].
      * rewrite lookup_alter_eq. destruct (Observer_heap s !! b) as [B|] eqn:EB; [|done].
        simpl. intros [= <-]. destruct (Hf B) as (-> & _). by apply Hb.
      * rewrite lookup_alter_ne by done. apply Hb.
    + intros b0. destruct (decide (b0 = b)) as [->|Hne].
      * rewrite lookup_alter_eq, fmap_is_Some. apply Hc.
      * rewrite lookup_alter_ne by done. apply Hc.
  - split; [by split|]. split; [|split].
    + intros r obj Hr. exists obj. split; [done|apply obj_kept_refl].
    + intros b0 B Hb. simpl. destruct (decide (b0 = b)) as [->|Hne].
      * rewrite lookup_alter_eq, Hb. simpl. eexists. split; [done|apply Hf].
      * rewrite lookup_alter_ne by done. exists B. by repeat split.
    + intros p C Hp. exists C. by repeat split.
Qed.

Lemma R_heap_installed o name C s : R_heap s (installed o name C s).
Proof.
  intros HI.
  assert (Hfresh : Closure_heap s !! next_ref s = None).
  { destruct (Closure_heap s !! next_ref s) eqn:Ec; [|done].
    assert (next_ref s < next_ref s); [|lia]. apply (obi_fresh_cl _ HI). by rewrite Ec. }
  assert (H1 : R_heap s (upd_Closure_heap (insert (next_ref s) C) (upd_next_ref S s))).
  { intros _. split.
    - destruct HI as [Ha Hb Hc Hd]. split; simpl; [done|done| |].
      + intros b Hb0. apply Hc in Hb0. lia.
      + intros p. destruct (decide (p = next_ref s)) as [->|Hne]; [lia|].
        rewrite lookup_insert_ne by done. intros Hp. apply Hd in Hp. lia.
    - split; [split; [simpl; lia|done]|]. split; [|split].
      + intros r obj Hr. exists obj. split; [done|apply obj_kept_refl].
      + intros b B Hb. exists B. by repeat split.
      + intros p C0 Hp. simpl. rewrite lookup_insert_ne by congruence.
        exists C0. by repeat split. }
  revert HI. eapply R_heap_trans; [exact H1|].
  apply R_heap_alter_obj. intros obj _. apply obj_kept_put_slot.
  intros old _. split; [done|]. intros _. by eexists.
Qed.

Lemma R_heap_attached r d obj s :
  Obj_heap s !! r = Some obj -> o_ob obj = None -> observable obj = true ->
  R_heap s (attached r d s).
Proof.
  intros Hr Hob Hable HI.
  assert (Hfresh : Observer_heap s !! next_ref s = None).
  { destruct (Observer_heap s !! next_ref s) eqn:Ec; [|done].
    assert (next_ref s < next_ref s); [|lia]. apply (obi_fresh_ob _ HI). by rewrite Ec. }
  split.
  - destruct HI as [Ha Hb Hc Hd]. split; simpl.
    + intros r0 obj0 b. destruct (decide (r0 = r)) as [->|Hne].
      * rewrite lookup_alter_eq, Hr. simpl. intros [= <-] [= <-].
        rewrite lookup_insert_eq. by eexists.
      * rewrite lookup_alter_ne by done. intros Hr0 Hob0.
        destruct (Ha r0 obj0 b Hr0 Hob0) as (B & HB & Hv).
        exists B. split; [|done]. rewrite lookup_insert_ne; [done|].
        intros <-. by rewrite Hfresh in HB.
    + intros b B. destruct (decide (b = next_ref s)) as [->|Hne].
      * rewrite lookup_insert_eq. intros [= <-]. simpl.
        rewrite lookup_alter_eq, Hr. simpl. by eexists.
      * rewrite lookup_insert_ne by done. intros HB.
        destruct (Hb b B HB) as (obj0 & Ho & Hob0).
        destruct (decide (ob_value B = r)) as [Heq|Hne'].
        -- rewrite Heq in Ho. rewrite Hr in Ho. injection Ho as <-. congruence.
        -- rewrite lookup_alter_ne by done. by exists obj0.
    + intros b. destruct (decide (b = next_ref s)) as [->|Hne]; [lia|].
      rewrite lookup_insert_ne by done. intros Hb0. apply Hc in Hb0. lia.
    + intros p Hp. apply Hd in Hp. lia.
  - split; [split; [simpl; lia|done]|]. split; [|split].
    + intros r0 obj0 Hr0. simpl. destruct (decide (r0 = r)) as [->|Hne].
      * rewrite lookup_alter_eq, Hr0. simpl. eexists. split; [done|].
        rewrite Hr in Hr0. injection Hr0 as <-.
        repeat split; try done.
        -- simpl. by rewrite Hob.
        -- simpl. intros k sl Hk. exists sl. split; [done|apply slot_kept_refl].
      * rewrite lookup_alter_ne by done. exists obj0. split; [done|apply obj_kept_refl].
    + intros b B Hb. simpl. rewrite lookup_insert_ne by congruence.
      exists B. by repeat split.
    + intros p C Hp. exists C. by repeat split.
Qed.

Lemma guard_observable (so sr : bool) obj :
  so && negb sr && (isArray obj || bool_decide (o_class obj = CPlain))
  && o_extensible obj && negb (o_isVue obj) = true ->
  observable obj = true.
Proof. unfold observable. by destruct so, sr. Qed.

Lemma same_heaps_queueWatcher w s : same_heaps s (queueWatcher w s).
Proof. unfold queueWatcher. destruct (decide _); by repeat split. Qed.

Section Kept.
Context (E : env) (traverse : traverse_t) (rec : knot).
Context (Hrec : knot_stable R_heap rec).

Ltac hleaf :=
  first
    [ apply R_heap_same; solve [repeat split; reflexivity]
    | apply R_heap_same, same_heaps_depend
    | apply R_heap_same, same_heaps_ctx, same_ctx_cleanupDeps
    | apply R_heap_same, same_heaps_ctx, same_ctx_teardown
    | apply R_heap_same, same_heaps_queueWatcher
    | apply R_heap_alter_obj; intros ? _; apply obj_kept_set_items
    | apply R_heap_alter_closure; intros ?; by repeat split
    | apply R_heap_alter_observer; intros ?; repeat split; simpl; try done; lia ].

Ltac hstab :=
  repeat first
    [ match goal with
      | H : context [stable] |- stable _ _ => simple apply H
      end
    | simple apply (pre_ret R_heap R_heap_refl)
    | simple apply (pre_throw R_heap R_heap_refl)
    | simple apply (pre_gets R_heap R_heap_refl)
    | simple apply (pre_resume R_heap R_heap_refl)
    | simple apply (pre_bind R_heap R_heap_trans); [|intros ?]
    | simple apply (pre_catch R_heap R_heap_refl R_heap_trans); [|intros ?]
    | simple apply (pre_attempt R_heap)
    | simple apply (pre_when R_heap R_heap_refl)
    | simple apply (pre_for_each R_heap R_heap_refl R_heap_trans); intros ?
    | simple apply (pre_modify R_heap); intros ?; hleaf
    | progress cbv zeta
    | match goal with
      | |- stable _ (match ?x with _ => _ end) => destruct x eqn:?
      end ].

Lemma kept_call p : stable R_heap (call rec p).
Proof. apply Hrec. Qed.

Lemma kept_k_observe v b : stable R_heap (k_observe rec v b).
Proof. apply Hrec. Qed.

Lemma kept_k_dependArray r : stable R_heap (k_dependArray rec r).
Proof. apply Hrec. Qed.

Ltac hstab' :=
  pose proof kept_call; pose proof kept_k_observe; pose proof kept_k_dependArray;
  hstab.

Lemma kept_alloc_Dep : stable R_heap alloc_Dep.
Proof. intros s r s' [= <- <-]. apply R_heap_same. by repeat split. Qed.

Lemma kept_Watcher_get w : stable R_heap (Watcher_get traverse rec w).
Proof. unfold Watcher_get. hstab'. Qed.

Lemma kept_Watcher_run w : stable R_heap (Watcher_run traverse rec w).
Proof. unfold Watcher_run. pose proof kept_Watcher_get. hstab'. Qed.

Lemma kept_Watcher_update w : stable R_heap (Watcher_update traverse rec w).
Proof. unfold Watcher_update. pose proof kept_Watcher_run. hstab'. Qed.

Lemma kept_Dep_notify d : stable R_heap (Dep_notify E traverse rec d).
Proof. unfold Dep_notify. pose proof kept_Watcher_update. hstab'. Qed.

Lemma kept_Watcher_evaluate w : stable R_heap (Watcher_evaluate traverse rec w).
Proof. unfold Watcher_evaluate. pose proof kept_Watcher_get. hstab'. Qed.

Lemma kept_Watcher_depend w : stable R_heap (Watcher_depend w).
Proof. unfold Watcher_depend. hstab'. Qed.

Lemma kept_computedGetter w : stable R_heap (computedGetter traverse rec w).
Proof.
  unfold computedGetter.
  pose proof kept_Watcher_evaluate. pose proof kept_Watcher_depend. hstab'.
Qed.

Lemma kept_new_Watcher vm_ src g c o b :
  stable R_heap (new_Watcher E traverse rec vm_ src g c o b).
Proof.
  unfold new_Watcher. pose proof kept_Watcher_get.
  assert (forall W, stable R_heap (construct vm_ W b)).
  { intros W s r s' [= <- <-]. apply R_heap_same. by repeat split. }
  hstab'.
Qed.

Lemma kept_read_prop o name : stable R_heap (read_prop rec o name).
Proof. unfold read_prop. hstab'. Qed.

Lemma kept_assign o name v : stable R_heap (assign rec o name v).
Proof.
  intros s r s' H. unfold assign, bind at 1, gets at 1 in H.
  destruct (Obj_heap s !! o) as [obj|] eqn:EO;
    [|injection H as <- <-; apply R_heap_refl].
  assert (Hnew : get_slot (o_props obj) name = None ->
            R_heap s (upd_Obj_heap
                        (alter (fun obj' => O_set_props
                                  (put_slot (o_props obj') name (Data v true true)) obj')
                           o) s)).
  { intros Hn. apply R_heap_alter_obj. intros obj0 E0. rewrite EO in E0.
    injection E0 as <-. apply obj_kept_put_slot. intros old Ho. congruence. }
  destruct (get_slot (o_props obj) name) as [[v0 e0 c0|g [st|] e0 c0]|] eqn:Es.
  - injection H as <- <-. apply R_heap_alter_obj. intros obj0 E0. rewrite EO in E0.
    injection E0 as <-. apply obj_kept_put_slot. intros old Ho.
    rewrite Es in Ho. injection Ho as <-. split; [done|]. by intros [p ?].
  - assert (Hs : stable R_heap (call rec (st v) ;;; ret tt)) by hstab'.
    eapply Hs, H.
  - injection H as <- <-. apply R_heap_refl.
  - destruct name as [n|n].
    + destruct (o_extensible obj); injection H as <- <-; [by apply Hnew|apply R_heap_refl].
    + destruct (isArray obj).
      * injection H as <- <-. apply R_heap_alter_obj. intros ? _.
        apply obj_kept_set_items.
      * destruct (o_extensible obj); injection H as <- <-;
          [by apply Hnew|apply R_heap_refl].
Qed.

Lemma kept_depend_on_ob v : stable R_heap (depend_on_ob v).
Proof. unfold depend_on_ob. hstab'. Qed.

Lemma kept_dependArray r : stable R_heap (dependArray rec r).
Proof. unfold dependArray. pose proof kept_depend_on_ob. hstab'. Qed.

Lemma kept_current_value C : stable R_heap (current_value rec C).
Proof. unfold current_value. hstab'. Qed.

Lemma kept_run_customSetter C : stable R_heap (run_customSetter E rec C).
Proof. unfold run_customSetter. hstab'. Qed.

Lemma kept_reactiveGetter p : stable R_heap (reactiveGetter rec p).
Proof.
  unfold reactiveGetter. pose proof kept_dependArray.
  pose proof kept_current_value. hstab'.
Qed.

Lemma kept_install o name C :
  stable R_heap
    (p <~ gets next_ref ;;
     modify (upd_next_ref S) ;;;
     modify (upd_Closure_heap (insert p C)) ;;;
     modify (upd_Obj_heap
               (alter (fun obj' => O_set_props
                         (put_slot (o_props obj') name
                            (Accessor (Some (ReactiveGetter p Ret))
                               (Some (fun v => ReactiveSetter p v (Ret VUndef)))
                               true true)) obj') o))).
Proof. intros s r s' [= <- <-]. apply (R_heap_installed o name C s). Qed.

Lemma kept_defineReactive o name v cs sh :
  stable R_heap (defineReactive rec o name v cs sh).
Proof.
  unfold defineReactive. pose proof kept_read_prop. pose proof kept_alloc_Dep.
  pose proof kept_install. hstab'.
Qed.

Lemma new_Observer_eq r s :
  new_Observer rec r s =
    (O0 <~ gets (fun s => Obj_heap s !! r) ;;
     match O0 with
     | None => ret (next_ref s)
     | Some obj =>
         (if isArray obj
          then for_each (fun item => k_observe rec item false ;;; ret tt) (o_items obj)
          else for_each (fun k => defineReactive rec r k None None false)
                 (Object_keys obj)) ;;;
         ret (next_ref s)
     end) (attached r (Dep_uid s) (new_Dep s).2).
Proof.
  unfold new_Observer, bind at 1, alloc_Dep. unfold bind at 1, gets at 1.
  unfold bind at 1, modify at 1. unfold bind at 1, modify at 1.
  unfold bind at 1, modify at 1. done.
Qed.

Lemma kept_new_Observer r obj s res s' :
  Obj_heap s !! r = Some obj -> o_ob obj = None -> observable obj = true ->
  new_Observer rec r s = Some (res, s') -> R_heap s s'.
Proof.
  intros Hr Hob Hable H. rewrite new_Observer_eq in H.
  eapply R_heap_trans; [|eapply R_heap_trans].
  - apply (R_heap_same s (new_Dep s).2). by repeat split.
  - by apply (R_heap_attached r (Dep_uid s) obj).
  - revert H. generalize (next_ref s). intros b H.
    pose proof kept_defineReactive.
    assert (Hs : stable R_heap
              (O0 <~ gets (fun s => Obj_heap s !! r) ;;
               match O0 with
               | None => ret b
               | Some obj =>
                   (if isArray obj
                    then for_each (fun item => k_observe rec item false ;;; ret tt)
                           (o_items obj)
                    else for_each (fun k => defineReactive rec r k None None false)
                           (Object_keys obj)) ;;;
                   ret b
               end)) by hstab'.
    eapply Hs, H.
Qed.

Lemma kept_observe v b : stable R_heap (observe E rec v b).
Proof.
  intros s res s' H. unfold observe in H.
  destruct v as [| | | | |r]; try (injection H as <- <-; apply R_heap_refl).
  unfold bind at 1, gets at 1 in H.
  destruct (Obj_heap s !! r) as [obj|] eqn:Hr;
    [|injection H as <- <-; apply R_heap_refl].
  destruct (bool_decide (o_class obj = CVNode));
    [injection H as <- <-; apply R_heap_refl|].
  unfold bind at 1, gets at 1 in H. unfold bind at 1 in H.
  assert (Hcount : forall ob : option nat,
            stable R_heap
              (match ob with
               | Some b0 =>
                   when b
                     (modify (upd_Observer_heap
                                (alter (fun B => mkObserver (ob_value B) (ob_dep B)
                                                   (S (vmCount B))) b0)))
               | None => ret tt
               end ;;; ret ob)) by (intros ob; hstab').
  destruct (o_ob obj) as [b0|] eqn:Hob.
  - eapply (Hcount (Some b0)), H.
  - destruct (shouldObserve s && negb (serverRendering E)
              && (isArray obj || bool_decide (o_class obj = CPlain))
              && o_extensible obj && negb (o_isVue obj)) eqn:Hg.
    + unfold bind at 1 in H.
      destruct (new_Observer rec r s) as [[[b0|e] s1]|] eqn:Hn; [| |done].
      * eapply R_heap_trans.
        -- eapply (kept_new_Observer r obj); [done|done| |exact Hn].
           by eapply guard_observable.
        -- eapply (Hcount (Some b0)), H.
      * injection H as <- <-.
        eapply (kept_new_Observer r obj); [done|done| |exact Hn].
        by eapply guard_observable.
    + eapply (Hcount None), H.
Qed.

Lemma kept_reactiveSetter p v : stable R_heap (reactiveSetter E traverse rec p v).
Proof.
  unfold reactiveSetter.
  pose proof kept_observe. pose proof kept_Dep_notify.
  pose proof kept_current_value. pose proof kept_run_customSetter. hstab'.
Qed.

Lemma kept_array_splice r i v : stable R_heap (array_splice E traverse rec r i v).
Proof.
  unfold array_splice.
  pose proof kept_observe. pose proof kept_Dep_notify. hstab'.
Qed.

Lemma kept_set target name v : stable R_heap (set E traverse rec target name v).
Proof.
  unfold set.
  pose proof kept_array_splice. pose proof kept_assign.
  pose proof kept_defineReactive. pose proof kept_Dep_notify. hstab'.
Qed.

Lemma kept_exec p : stable R_heap (exec E traverse rec p).
Proof.
  pose proof kept_read_prop. pose proof kept_assign.
  pose proof kept_reactiveGetter. pose proof kept_reactiveSetter.
  pose proof kept_set. pose proof kept_observe.
  pose proof kept_defineReactive. pose proof kept_new_Watcher.
  pose proof kept_computedGetter. pose proof kept_Watcher_run.
  induction p; simpl; hstab'.
Qed.
End Kept.

Lemma kept_knot E traverse fuel : knot_stable R_heap (knot_at E traverse fuel).
Proof.
  induction fuel as [|fuel IH]; simpl.
  - split; [|split]; intros ? ? ? ?; discriminate.
  - split; [|split]; simpl.
    + intros p. by apply kept_exec.
    + intros v b. by apply kept_observe.
    + intros r. by apply kept_dependArray.
Qed.

(** X17. No run of a script (property reads and assignments, [set], [observe],
    [defineReactive] and Watcher calls) that names ordinary keys only, from a
    state that holds such scripts and keys only, takes an object, an Observer
    or the link between them away. An object keeps its class, its
    extensibility and whether it is a Vue instance, and keeps the Observer it
    has; an Observer keeps its [value] and its [dep], and its [vmCount] never
    goes down; and in every state such a run reaches from a well-formed one,
    [obj.__ob__.value] is [obj] and [ob.value.__ob__] is [ob].  (A script
    that assigns [o.__ob__] or [o._isVue] is not ordinary: the program lets
    it replace the link.) *)
Theorem observers_stay_attached E traverse fuel p s r s' :
  ObInv s -> ordinary_state s -> ordinary p ->
  k_exec (knot_at E traverse fuel) p s = Some (r, s') ->
  ObInv s'
  /\ (forall o obj, Obj_heap s !! o = Some obj ->
      exists obj', Obj_heap s' !! o = Some obj'
        /\ o_class obj' = o_class obj /\ o_extensible obj' = o_extensible obj
        /\ o_isVue obj' = o_isVue obj
        /\ (forall b, o_ob obj = Some b -> o_ob obj' = Some b))
  /\ (forall b B, Observer_heap s !! b = Some B ->
      exists B', Observer_heap s' !! b = Some B'
        /\ ob_value B' = ob_value B /\ ob_dep B' = ob_dep B
        /\ vmCount B <= vmCount B').
Proof.
  intros HI _ _ Hp. destruct (kept_knot E traverse fuel) as (Hx & _).
  destruct (Hx p s r s' Hp HI) as (HI' & _ & Ho & Hb & _).
  split; [done|]. split; [|done].
  intros o obj Eo. destruct (Ho o obj Eo) as (obj' & Eo' & a1 & a2 & a3 & a4 & _).
  by exists obj'.
Qed.

(** X18. What [observe] refuses it refuses for good: an object without
    Observer that is a VNode, is neither an array nor a plain object, is not
    extensible or is a Vue instance has no Observer after any run of a script
    that names ordinary keys only, from a well-formed state that holds such
    scripts and keys only.  (A script that assigns [vm._isVue = false] is not
    ordinary: after it the program observes the instance.) *)
Theorem unobservable_stays_unobserved E traverse fuel p s r s' o obj :
  ObInv s -> ordinary_state s -> ordinary p ->
  k_exec (knot_at E traverse fuel) p s = Some (r, s') ->
  Obj_heap s !! o = Some obj -> o_ob obj = None ->
  (o_class obj = CVNode \/ o_class obj = COther
   \/ o_extensible obj = false \/ o_isVue obj = true) ->
  exists obj', Obj_heap s' !! o = Some obj' /\ o_ob obj' = None.
Proof.
  intros HI _ _ Hp Eo Hob Hun. destruct (kept_knot E traverse fuel) as (Hx & _).
  destruct (Hx p s r s' Hp HI) as (_ & _ & Ho & _).
  destruct (Ho o obj Eo) as (obj' & Eo' & _ & _ & _ & _ & Hable & _).
  exists obj'. split; [done|].
  destruct (o_ob obj') as [b|] eqn:Eb; [|done].
  assert (Ha : observable obj = true) by (apply Hable; [done|by eexists]).
  unfold observable, isArray in Ha.
  destruct Hun as [Hc|[Hc|[Hc|Hc]]]; rewrite Hc in Ha.
  - by rewrite !bool_decide_eq_false_2 in Ha by done.
  - by rewrite !bool_decide_eq_false_2 in Ha by done.
  - by rewrite andb_false_r in Ha.
  - by rewrite andb_false_r in Ha.
Qed.



Lemma defineReactive_eq rec o name val cs sh s obj :
  Obj_heap s !! o = Some obj ->
  defineReactive rec o name val cs sh s =
    let property := get_slot (o_props obj) name in
    if bool_decide (slot_configurable <$> property = Some false)
    then Some (Val tt, (new_Dep s).2)
    else
      (val' <~ match val with
               | Some v => ret v
               | None =>
                   if negb (bool_decide (is_Some (property ≫= slot_get)))
                      || bool_decide (is_Some (property ≫= slot_set))
                   then read_prop rec o name
                   else ret VUndef
               end ;;
       childOb <~ (if sh then ret None else k_observe rec val' false) ;;
       O1 <~ gets (fun s => Obj_heap s !! o) ;;
       if negb (bool_decide (is_Some (O1 ≫= fun obj' => get_slot (o_props obj') name)))
          && negb (default true (o_extensible <$> O1))
       then throw TypeError
       else
         p <~ gets next_ref ;;
         modify (upd_next_ref S) ;;;
         modify (upd_Closure_heap
                   (insert p (mkClosure o name (Dep_uid s) val' childOb
                                (property ≫= slot_get) (property ≫= slot_set) cs sh))) ;;;
         modify (upd_Obj_heap
                   (alter (fun obj' => O_set_props
                             (put_slot (o_props obj') name
                                (Accessor (Some (ReactiveGetter p Ret))
                                   (Some (fun v => ReactiveSetter p v (Ret VUndef)))
                                   true true)) obj') o))) (new_Dep s).2.
Proof.
  intros EO. unfold defineReactive, bind at 1, alloc_Dep.
  unfold bind at 1, gets at 1. simpl. rewrite EO. simpl.
  by destruct (bool_decide _).
Qed.










Lemma depend_on_ob_eq e s :
  depend_on_ob e s
  = Some (Val tt, match ob_dep_of s e with Some d => Dep_depend d s | None => s end).
Proof.
  unfold depend_on_ob, ob_dep_of. destruct e as [| | | | |r]; try done.
  unfold bind at 1, gets at 1.
  destruct (Obj_heap s !! r ≫= o_ob) as [b|]; simpl; [|done].
  unfold bind at 1, gets at 1. by destruct (Observer_heap s !! b).
Qed.

Lemma foldl_depend_heaps l s :
  Obj_heap (foldl (fun s0 d => Dep_depend d s0) s l) = Obj_heap s
  /\ Observer_heap (foldl (fun s0 d => Dep_depend d s0) s l) = Observer_heap s.
Proof.
  revert s. induction l as [|d l IH]; intros s; simpl; [done|].
  destruct (IH (Dep_depend d s)) as [-> ->].
  by destruct (Dep_depend_heaps d s) as (-> & -> & _).
Qed.

Lemma dependArray_flat rec items s0 s :
  Obj_heap s0 = Obj_heap s -> Observer_heap s0 = Observer_heap s ->
  (forall e, e ∈ items -> is_array_val s e = false) ->
  for_each
    (fun e =>
       depend_on_ob e ;;;
       a <~ gets (fun s => is_array_val s e) ;;
       match e with
       | VObj r' => when a (k_dependArray rec r')
       | _ => ret tt
       end) items s0
  = Some (Val tt, foldl (fun s1 d => Dep_depend d s1) s0 (omap (ob_dep_of s) items)).
Proof.
  revert s0. induction items as [|e items IH]; intros s0 Ho Hob Hflat; [done|].
  simpl. unfold bind at 1. unfold bind at 1. rewrite depend_on_ob_eq.
  assert (Hd : ob_dep_of s0 e = ob_dep_of s e).
  { unfold ob_dep_of. destruct e; try done. by rewrite Ho, Hob. }
  rewrite Hd.
  set (s1 := match ob_dep_of s e with Some d => Dep_depend d s0 | None => s0 end).
  assert (H1 : Obj_heap s1 = Obj_heap s /\ Observer_heap s1 = Observer_heap s).
  { unfold s1. destruct (ob_dep_of s e) as [d|]; [|done].
    destruct (Dep_depend_heaps d s0) as (-> & -> & _). done. }
  destruct H1 as [Ho1 Hob1].
  unfold bind at 1, gets at 1.
  assert (is_array_val s1 e = false) as ->.
  { rewrite <- (Hflat e) by (by left). unfold is_array_val. destruct e; try done.
    by rewrite Ho1. }
  assert (match e with VObj r' => when false (k_dependArray rec r') | _ => ret tt end s1
          = Some (Val tt, s1)) as -> by (by destruct e).
  rewrite (IH s1 Ho1 Hob1) by (intros e' He'; apply Hflat; by right).
  unfold s1. by destruct (ob_dep_of s e).
Qed.

(** X23. [dependArray] on an array whose elements are not arrays calls
    [depend] on the Dep of the Observer of each element that has one, in
    order; the Watcher being evaluated, if there is one, ends up with these
    Deps among its new-Dep ids and as a subscriber of those it had not
    recorded. *)
Theorem dependArray_registers_elements rec r obj s :
  Obj_heap s !! r = Some obj ->
  (forall e, e ∈ o_items obj -> is_array_val s e = false) ->
  let ds := omap (ob_dep_of s) (o_items obj) in
  exists s',
    dependArray rec r s = Some (Val tt, s')
    /\ s' = foldl (fun s1 d => Dep_depend d s1) s ds
    /\ forall t T, Dep_target s = Some t -> Watcher_heap s !! t = Some T ->
         exists T', Watcher_heap s' !! t = Some T'
           /\ (forall d, d ∈ newDepIds T' <-> d ∈ newDepIds T \/ d ∈ ds)
           /\ (forall d, d ∈ ds -> d ∉ depIds T -> d ∉ newDepIds T ->
               is_Some (Dep_heap s !! d) -> t ∈ subs (the_Dep s' d)).
Proof.
  intros EO Hflat ds. eexists. split; [|split; [reflexivity|]].
  - unfold dependArray, bind at 1, gets at 1. rewrite EO. simpl.
    by apply dependArray_flat.
  - intros t T Ht ET.
    destruct (depend_fold ds t T s Ht ET) as (_ & (T' & ET' & _ & _ & Hn) & _ & _ & Hall).
    exists T'. split; [exact ET'|]. split; [exact Hn|exact Hall].
Qed.

(** X16. [defineReactive] on a property that is not configurable returns
    without defining anything: the object, the closures and the Observers are
    as before; only the id taken by the Dep it had already created is gone. *)
Theorem defineReactive_skips_what_is_not_configurable rec o name val cs sh s obj sl :
  Obj_heap s !! o = Some obj ->
  get_slot (o_props obj) name = Some sl ->
  slot_configurable sl = false ->
  exists s',
    defineReactive rec o name val cs sh s = Some (Val tt, s')
    /\ Obj_heap s' = Obj_heap s /\ Closure_heap s' = Closure_heap s
    /\ Observer_heap s' = Observer_heap s /\ trace s' = trace s
    /\ Dep_uid s' = S (Dep_uid s).
Proof.
  intros EO Hs Hc. exists (new_Dep s).2. split; [|done].
  rewrite (defineReactive_eq _ _ _ _ _ _ _ _ EO). cbv zeta. rewrite Hs. simpl.
  by rewrite Hc, bool_decide_eq_true_2.
Qed.

(** X15. [set] and [del] on what is not an object. After the warning of a
    non-production build, which ends with the text of the target, [set] throws (the test [key in target] does), [del]
    throws on [undefined] and [null] (the read of [__ob__] does), returns on
    numbers and booleans, and on a string throws exactly when the key is an
    own property of the string. *)
Theorem set_and_del_on_what_is_not_an_object E traverse rec target name val s :
  isObject target = false ->
  let warned msg := if production E then s else warn msg s in
  set E traverse rec target name val s
  = Some (Exn TypeError, warned (warn_set_primitive target))
  /\ (isUndef target = true ->
      del E traverse rec target name s
      = Some (Exn TypeError, warned (warn_del_primitive target)))
  /\ ((exists x, target = VNum x) \/ (exists x, target = VBool x) ->
      del E traverse rec target name s
      = Some (Val tt, warned (warn_del_primitive target)))
  /\ (forall str, target = VStr str ->
      del E traverse rec target name s
      = Some (if hasOwn_string str name then Exn TypeError else Val tt,
              warned (warn_del_primitive target))).
Proof.
  intros Hobj warned. unfold warned, set, del.
  destruct target as [| |x|x|x|r]; try done; destruct (production E);
    (split; [reflexivity|]); (split; [intros Hu; first [reflexivity|discriminate Hu]|]);
    (split; [intros [[? Hx]|[? Hx]]; first [discriminate Hx|reflexivity]|]);
    intros str Hstr; try discriminate Hstr.
  - injection Hstr as <-. simpl. unfold bind at 1, ret at 1.
    by destruct (hasOwn_string _ _).
  - injection Hstr as <-. simpl. unfold bind at 1, modify at 1.
    by destruct (hasOwn_string _ _).
Qed.

Lemma getData_eq rec data vm_ s :
  getData rec data vm_ s =
    match call rec data (pushTarget None s) with
    | None => None
    | Some (Val v, s1) => Some (Val v, popTarget s1)
    | Some (Exn e, s1) =>
        let s2 := handleError e vm_ "data()" s1 in
        Some (Val (VObj (next_ref s2)),
              popTarget (upd_Obj_heap (insert (next_ref s2) (plain []))
                           (upd_next_ref S s2)))
    end.
Proof.
  unfold getData, bind at 1, modify at 1. unfold bind at 1, attempt at 1.
  unfold catch, bind at 1, attempt at 1.
  destruct (call rec data (pushTarget None s)) as [[[v|e] s1]|]; [done| |done].
  done.
Qed.

(** X24. [getData] never throws and leaves the evaluation context as it found
    it. An error of the [data] function is reported under the label [data()]
    and a fresh empty object is returned in its place. A read of a reactive
    property inside [data] is not tracked: it leaves Deps and Watchers
    untouched even during the evaluation of a Watcher. *)
Theorem getData_is_untracked_and_total E traverse fuel data vm_ s :
  (forall r s',
     getData (knot_at E traverse fuel) data vm_ s = Some (r, s') ->
     (exists v, r = Val v)
     /\ (consistent s ->
         targetStack s' = targetStack s /\ Dep_target s' = Dep_target s))
  /\ (forall e s1,
        call (knot_at E traverse fuel) data (pushTarget None s) = Some (Exn e, s1) ->
        exists s',
          getData (knot_at E traverse fuel) data vm_ s
          = Some (Val (VObj (next_ref s1)), s')
          /\ errors s' = errors s1 ++ [(e, "data()")]
          /\ Obj_heap s' = <[next_ref s1 := plain []]> (Obj_heap s1))
  /\ (forall p C,
        Closure_heap s !! p = Some C -> c_getter C = None ->
        exists s',
          getData (knot_at E traverse (S fuel)) (ReactiveGetter p Ret) vm_ s
          = Some (Val (c_val C), s')
          /\ Dep_heap s' = Dep_heap s /\ Watcher_heap s' = Watcher_heap s
          /\ trace s' = trace s).
Proof.
  split; [|split].
  - intros r s' H. rewrite getData_eq in H.
    destruct (call _ data (pushTarget None s)) as [[[v|e] s1]|] eqn:Ec; [| |done].
    + injection H as <- <-. split; [by eexists|].
      destruct (stable_knot R_bal respects_R_bal E traverse fuel) as (Hx & _).
      apply (R_bal_bracket None s s s1); [done|done|done|]. eapply Hx, Ec.
    + injection H as <- <-. split; [by eexists|].
      destruct (stable_knot R_bal respects_R_bal E traverse fuel) as (Hx & _).
      apply (R_bal_bracket None s s s1); [done|done|done|]. eapply Hx, Ec.
  - intros e s1 Hc. rewrite getData_eq, Hc. eexists. split; [done|]. by split.
  - intros p C EC Hg. rewrite getData_eq.
    assert (call (knot_at E traverse (S fuel)) (ReactiveGetter p Ret) (pushTarget None s)
            = Some (Val (c_val C), pushTarget None s)) as ->.
    { unfold call. simpl. unfold bind at 1.
      assert (reactiveGetter (knot_at E traverse fuel) p (pushTarget None s)
              = Some (Val (c_val C), pushTarget None s)) as ->; [|done].
      unfold reactiveGetter, bind at 1, gets at 1. simpl. rewrite EC.
      unfold current_value. rewrite Hg. unfold bind at 1, ret at 1.
      by unfold bind at 1, gets at 1. }
    eexists. split; [done|]. by split.
Qed.

Lemma user_get_returns traverse rec w W s r s' :
  Watcher_heap s !! w = Some W -> user W = true ->
  Watcher_get traverse rec w s = Some (r, s') ->
  exists v, r = Val v.
Proof.
  intros EW Hu H. rewrite (Watcher_get_eq _ _ _ _ _ EW) in H.
  destruct (get_try rec W _) as [[r1 s2]|] eqn:Eg; [|done].
  injection H as <- _.
  unfold get_try, catch, bind at 1, attempt at 1 in Eg.
  destruct (call rec (getter W) _) as [[[v|e] s1]|]; [| |done].
  - injection Eg as <- _. by eexists.
  - rewrite Hu in Eg. injection Eg as <- _. by eexists.
Qed.

Lemma new_Watcher_eq E traverse rec vm_ src g c o b s :
  new_Watcher E traverse rec vm_ src g c (Some o) b s =
    let id := S (Watcher_uid s) in
    let s0 := constructed id vm_
                (mkWatcher vm_ (if production E then EmptyString else src) c
                   (opt_deep o) (opt_user o) (opt_lazy o) (opt_sync o)
                   (opt_lazy o) true [] [] ∅ ∅ g VUndef) b s in
    if opt_lazy o then Some (Val id, s0)
    else match Watcher_get traverse rec id s0 with
         | None => None
         | Some (Val v, s1) =>
             Some (Val id, upd_Watcher_heap (alter (W_set_value v) id) s1)
         | Some (Exn e, s1) => Some (Exn e, s1)
         end.
Proof.
  unfold new_Watcher, bind at 1, construct. simpl.
  destruct (opt_lazy o); [done|].
  unfold bind at 1, bind at 1.
  by destruct (Watcher_get _ _ _ _) as [[[v|e] s1]|].
Qed.

(** X25. [$watch] with a callback that is a function never throws. It makes a
    Watcher with the next id, which no Watcher had, whose [user] flag is set
    whatever the options say, so that errors of the getter are reported and
    not thrown; the component, the getter, the callback and the [lazy] option
    are the ones given. *)
Theorem watch_is_a_user_watcher E traverse fuel vm_ src g c options imm s r s' :
  Inv s ->
  vm_watch E traverse (knot_at E traverse fuel) vm_ src g c options imm s
  = Some (r, s') ->
  r = Val (S (Watcher_uid s))
  /\ Watcher_heap s !! S (Watcher_uid s) = None
  /\ exists W,
       Watcher_heap s' !! S (Watcher_uid s) = Some W
       /\ user W = true /\ vm W = vm_ /\ getter W = g /\ cb W = c
       /\ lazy W = opt_lazy (default (mkOptions false false false false) options).
Proof.
  intros HI H. set (rec := knot_at E traverse fuel) in *.
  set (o := default (mkOptions false false false false) options) in *.
  set (id := S (Watcher_uid s)).
  assert (Hfresh : Watcher_heap s !! id = None).
  { destruct (Watcher_heap s !! id) eqn:EW; [|done].
    assert (id <= Watcher_uid s); [|unfold id in *; lia].
    apply (inv_fresh _ HI). by rewrite EW. }
  unfold vm_watch in H. fold o in H. unfold bind at 1 in H.
  rewrite new_Watcher_eq in H. simpl in H. fold id in H.
  set (W0 := mkWatcher vm_ (if production E then EmptyString else src) c
               (opt_deep o) true (opt_lazy o) (opt_sync o) (opt_lazy o) true
               [] [] ∅ ∅ g VUndef) in *.
  set (s0 := constructed id vm_ W0 false s) in *.
  assert (HI0 : Inv s0) by (apply Inv_constructed; [by repeat split|done]).
  assert (EW0 : Watcher_heap s0 !! id = Some W0)
    by (unfold s0; simpl; by rewrite lookup_insert_eq).
  pose proof (stable_knot R_alive respects_R_alive E traverse fuel) as Hk.
  assert (Hnew : exists s1, (if opt_lazy o then Some (Val id, s0)
                 else match Watcher_get traverse rec id s0 with
                      | None => None
                      | Some (Val v, s1) =>
                          Some (Val id, upd_Watcher_heap (alter (W_set_value v) id) s1)
                      | Some (Exn e, s1) => Some (Exn e, s1)
                      end) = Some (Val id, s1) /\ Inv s1 /\ alive s0 s1).
  { destruct (opt_lazy o).
    - exists s0. split; [done|]. split; [done|apply alive_refl].
    - destruct (Watcher_get traverse rec id s0) as [[r1 s1]|] eqn:Eg; [|done].
      destruct (user_get_returns _ _ _ _ _ _ _ EW0 eq_refl Eg) as [v ->].
      destruct (stable_Watcher_get R_alive respects_R_alive traverse _ Hk id
                  s0 _ s1 Eg HI0) as [HI1 Hal].
      eexists. split; [done|]. split; [by apply Inv_alter|].
      eapply alive_trans; [exact Hal|]. by apply alive_alter. }
  destruct Hnew as (s1 & Hnew & HI1 & Hal1). rewrite Hnew in H.
  assert (Hfin : exists s2, r = Val id /\ alive s1 s2 /\ s' = s2).
  { destruct imm; simpl in H.
    - unfold bind at 1 in H.
      unfold bind at 1, gets at 1 in H. unfold bind at 1, gets at 1 in H.
      unfold catch, bind at 1, attempt at 1 in H.
      unfold bind at 1 in H.
      destruct Hk as (Hx & _).
      destruct (call rec (c (default VUndef (value <$> Watcher_heap s1 !! id)) VUndef) s1)
        as [[[v|e] s2]|] eqn:Ec; simpl in H; [| |done].
      + injection H as <- <-. exists s2. split; [done|]. split; [|done].
        by destruct (Hx _ _ _ _ Ec HI1).
      + injection H as <- <-. eexists. split; [done|]. split; [|done].
        destruct (Hx _ _ _ _ Ec HI1) as [_ Ha].
        eapply alive_trans; [exact Ha|by apply alive_same].
    - injection H as <- <-. exists s1. split; [done|]. split; [apply alive_refl|done]. }
  destruct Hfin as (s2 & -> & Hal2 & ->).
  split; [done|]. split; [done|].
  destruct (Hal1 id W0 EW0) as (W1 & EW1 & Ho1 & _).
  destruct (Hal2 id W1 EW1) as (W2 & EW2 & Ho2 & _).
  destruct (same_options_trans _ _ _ Ho1 Ho2) as (a1 & a2 & a3 & a4 & a5 & a6 & a7 & a8).
  exists W2. split; [done|]. by rewrite a5, a1, a8, a3, a6.
Qed.

(** X26. [$watch] with [immediate] calls the callback once, with the Watcher's
    value as its only argument, right after the Watcher is constructed; an
    error the callback throws is reported under the label [callback for
    immediate watcher] with the expression, and [$watch] returns all the same.
    Without [immediate] the callback is not called. *)
Theorem watch_immediate_calls_back E traverse rec vm_ src g c options w s1 s :
  let o := default (mkOptions false false false false) options in
  new_Watcher E traverse rec vm_ src g c
    (Some (mkOptions (opt_deep o) true (opt_lazy o) (opt_sync o))) false s
  = Some (Val w, s1) ->
  let v := default VUndef (value <$> Watcher_heap s1 !! w) in
  let x := default EmptyString (expression <$> Watcher_heap s1 !! w) in
  vm_watch E traverse rec vm_ src g c options false s = Some (Val w, s1)
  /\ (forall u s2, call rec (c v VUndef) s1 = Some (Val u, s2) ->
      vm_watch E traverse rec vm_ src g c options true s = Some (Val w, s2))
  /\ (forall e s2, call rec (c v VUndef) s1 = Some (Exn e, s2) ->
      vm_watch E traverse rec vm_ src g c options true s
      = Some (Val w, handleError e vm_ (immediate_label x) s2)
      /\ errors (handleError e vm_ (immediate_label x) s2)
         = errors s2 ++ [(e, immediate_label x)]).
Proof.
  intros o Hnew v x.
  assert (Hw : forall imm, vm_watch E traverse rec vm_ src g c options imm s
            = (when imm
                 (v <~ gets (fun s => default VUndef (value <$> Watcher_heap s !! w)) ;;
                  x <~ gets (fun s => default EmptyString
                                        (expression <$> Watcher_heap s !! w)) ;;
                  catch (call rec (c v VUndef) ;;; ret tt)
                    (fun e => modify (handleError e vm_ (immediate_label x)))) ;;;
               ret w) s1).
  { intros imm. unfold vm_watch. fold o. unfold bind at 1. by rewrite Hnew. }
  split; [by rewrite Hw|]. split.
  - intros u s2 Hc. rewrite Hw. simpl. unfold bind at 1.
    unfold bind at 1, gets at 1. unfold bind at 1, gets at 1.
    unfold catch, bind at 1, attempt at 1. unfold bind at 1.
    fold v. by rewrite Hc.
  - intros e s2 Hc. split; [|done]. rewrite Hw. simpl. unfold bind at 1.
    unfold bind at 1, gets at 1. unfold bind at 1, gets at 1.
    unfold catch, bind at 1, attempt at 1. unfold bind at 1.
    fold v. by rewrite Hc.
Qed.

(** ** proxy *)

Lemma bind_ret_r {A} (m : M A) s : (v <~ m ;; ret v) s = m s.
Proof. unfold bind. by destruct (m s) as [[[a|e] s1]|]. Qed.

(** X27. [proxy(target, sourceKey, key)] makes [target[key]] stand for
    [target[sourceKey][key]]. When [target[sourceKey]] is a data property that
    holds an object, [key] is not [sourceKey], and [key] can be defined on the
    target (it is configurable, or new on an extensible target), [proxy]
    returns and changes no other object, and afterwards a read of
    [target[key]] is a read of [key] on the source object and an assignment to
    [target[key]] is an assignment to [key] on the source object. *)
Theorem proxy_forwards E traverse fuel target sourceKey name tobj src e0 c0 s :
  Obj_heap s !! target = Some tobj ->
  get_slot (o_props tobj) sourceKey = Some (Data (VObj src) e0 c0) ->
  sourceKey <> name ->
  match get_slot (o_props tobj) name with
  | Some sl => slot_configurable sl = true
  | None => o_extensible tobj = true
  end ->
  exists s1,
    proxy target sourceKey name s = Some (Val tt, s1)
    /\ (forall r, r <> target -> Obj_heap s1 !! r = Obj_heap s !! r)
    /\ (forall rec, read_prop rec target sourceKey s1 = Some (Val (VObj src), s1))
    /\ read_prop (knot_at E traverse (S fuel)) target name s1
       = read_prop (knot_at E traverse fuel) src name s1
    /\ (forall v, assign (knot_at E traverse (S fuel)) target name v s1
                  = assign (knot_at E traverse fuel) src name v s1).
Proof.
  intros EO Hsk Hne Hdef.
  set (acc := Accessor (Some (proxyGetter target sourceKey name))
                (Some (proxySetter target sourceKey name)) true true).
  set (s1 := upd_Obj_heap
               (alter (fun obj' => O_set_props (put_slot (o_props obj') name acc) obj')
                  target) s).
  assert (Hp : proxy target sourceKey name s = Some (Val tt, s1)).
  { unfold proxy, Object_defineProperty, bind at 1, gets at 1. rewrite EO.
    destruct (get_slot (o_props tobj) name) as [sl|] eqn:Es; by rewrite Hdef. }
  assert (EO1 : Obj_heap s1 !! target
                = Some (O_set_props (put_slot (o_props tobj) name acc) tobj)).
  { unfold s1. simpl. by rewrite lookup_alter_eq, EO. }
  assert (Hrd : forall rec, read_prop rec target sourceKey s1 = Some (Val (VObj src), s1)).
  { intros rec. unfold read_prop, bind at 1, gets at 1. rewrite EO1. simpl.
    rewrite get_slot_put_slot, decide_False by done. by rewrite Hsk. }
  exists s1. split; [done|]. split; [|split; [done|split]].
  - intros r Hr. unfold s1. simpl. by rewrite lookup_alter_ne.
  - unfold read_prop at 1, bind at 1, gets at 1. rewrite EO1. simpl.
    rewrite get_slot_put_slot, decide_True by done. simpl.
    unfold call. simpl. unfold bind at 1. rewrite Hrd. simpl.
    apply bind_ret_r.
  - intros v. unfold assign at 1, bind at 1, gets at 1. rewrite EO1. simpl.
    rewrite get_slot_put_slot, decide_True by done. simpl.
    unfold call. simpl. unfold bind at 1, bind at 1. rewrite Hrd. simpl.
    unfold bind at 1.
    by destruct (assign (knot_at E traverse fuel) src name v s1) as [[[[]|?] ?]|].
Qed.

(** ** More scenarios *)

Lemma ObInv_with_objects os :
  Forall (fun o => o_ob o = None) os -> ObInv (with_objects os).
Proof.
  intros Hos. split; simpl.
  - intros r obj b Hr Hb.
    apply elem_of_list_to_map_2, elem_of_lookup_imap in Hr as (i & x & Hix & Hx).
    injection Hix as -> ->.
    rewrite Forall_lookup in Hos. by rewrite (Hos _ _ Hx) in Hb.
  - intros b B H. by rewrite lookup_empty in H.
  - intros b [B H]. by rewrite lookup_empty in H.
  - intros p [C H]. by rewrite lookup_empty in H.
Qed.

Lemma ObInv_after E fuel p s : ObInv s -> ObInv (after E fuel p s).
Proof.
  intros HI. unfold after.
  destruct (k_exec _ p s) as [[r s']|] eqn:Ep; [|done].
  destruct (kept_knot E no_traverse fuel) as (Hx & _).
  by destruct (Hx p s r s' Ep HI).
Qed.

Lemma dep_ids_below_with_objects os : dep_ids_below (with_objects os).
Proof. intros d [D H]. simpl in H. by rewrite lookup_empty in H. Qed.

(** X1 on a Watcher that has been torn down: a later write to a property
    it used to read leaves it as it is, inactive. *)
Lemma watchers_keep_their_options_witness :
  exists W W',
    Watcher_heap torn_down !! 1 = Some W
    /\ Watcher_heap
         (after dev 8 (SetProp 0 (KStr "flag") (VBool true) (Ret VUndef)) torn_down) !! 1
       = Some W'
    /\ same_options W W'
    /\ active W' = false.
Proof.
  assert (HW : exists W, Watcher_heap torn_down !! 1 = Some W /\ active W = false).
  { eexists. split; [vm_compute; reflexivity|reflexivity]. }
  destruct HW as (W & EW & Hact).
  destruct (watchers_keep_their_options dev no_traverse 8
              (SetProp 0 (KStr "flag") (VBool true) (Ret VUndef)) torn_down
              (Val VUndef)
              (after dev 8 (SetProp 0 (KStr "flag") (VBool true) (Ret VUndef)) torn_down)
              1 W) as (W' & EW' & Hsame & Hin).
  - apply Inv_after, Inv_after, Inv_with_objects.
  - by vm_compute.
  - exact EW.
  - exists W, W'. split; [exact EW|]. split; [exact EW'|].
    split; [exact Hsame|exact (Hin Hact)].
Defined.

(** X3 on the conditional-branch scenario: the flag was flipped, so [run]
    evaluates to ["B"], stores it and calls the callback with ["B"] and the
    old value ["A"]. *)
Lemma run_fires_on_change_witness :
  exists W,
    Watcher_heap branch_flipped !! 1 = Some W
    /\ Watcher_run no_traverse (knot_at dev no_traverse 6) 1 branch_flipped
       = (call (knot_at dev no_traverse 6) (cb W (VStr "B") (VStr "A")) ;;; ret tt)
           (upd_Watcher_heap (alter (W_set_value (VStr "B")) 1) branch_rerun).
Proof.
  assert (HW : exists W, Watcher_heap branch_flipped !! 1 = Some W
                 /\ active W = true /\ user W = false).
  { eexists. split; [vm_compute; reflexivity|]. split; reflexivity. }
  destruct HW as (W & EW & Hact & Huser).
  destruct (run_fires_on_change no_traverse (knot_at dev no_traverse 6) 1 W
              branch_flipped EW Hact) as (_ & Hval).
  assert (Hget : Watcher_get no_traverse (knot_at dev no_traverse 6) 1 branch_flipped
                 = Some (Val (VStr "B"), branch_rerun)) by (vm_compute; reflexivity).
  specialize (Hval _ _ Hget). cbv zeta in Hval. destruct Hval as (_ & Hfire).
  assert (Hold : default VUndef (value <$> Watcher_heap branch_rerun !! 1) = VStr "A")
    by (vm_compute; reflexivity).
  rewrite Hold in Hfire.
  exists W. split; [exact EW|]. apply Hfire; [|exact Huser].
  left. reflexivity.
Defined.

(** X4 on a computed property of [a] that has not been read: the first read
    evaluates the getter to ["x"], the second returns ["x"] from the cache. *)
Lemma computed_is_cached_witness :
  exists s',
    computedGetter no_traverse (knot_at dev no_traverse 6) 1 computed_pre
    = Some (Val (VStr "x"), s')
    /\ (exists W', Watcher_heap s' !! 1 = Some W'
          /\ dirty W' = false /\ value W' = VStr "x")
    /\ computedGetter no_traverse (knot_at dev no_traverse 6) 1 s'
       = Some (Val (VStr "x"), s').
Proof.
  assert (HW : exists W, Watcher_heap computed_pre !! 1 = Some W)
    by (eexists; vm_compute; reflexivity).
  destruct HW as (W & EW).
  assert (Hc : exists s',
             computedGetter no_traverse (knot_at dev no_traverse 6) 1 computed_pre
             = Some (Val (VStr "x"), s')) by (eexists; vm_compute; reflexivity).
  destruct Hc as (s' & Hc).
  destruct (computed_is_cached dev no_traverse 6 1 W computed_pre (VStr "x") s')
    as (_ & Hclean & Hagain).
  - apply Inv_after, Inv_with_objects.
  - vm_compute. reflexivity.
  - vm_compute. reflexivity.
  - exact EW.
  - exact Hc.
  - exists s'. split; [exact Hc|]. split; [exact Hclean|exact Hagain].
Defined.

(** X5: Watcher [2], which has no Dep, is being evaluated and reads the
    computed property of Watcher [1], which has read [a] (Dep [1]);
    [depend] makes Watcher [2] a subscriber of Dep [1]. *)
Lemma depend_registers_target_witness :
  exists s' T',
    Watcher_depend 1 depend_pre = Some (Val tt, s')
    /\ Watcher_heap s' !! 2 = Some T'
    /\ (1 ∈ newDepIds T')
    /\ (2 ∈ subs (the_Dep s' 1)).
Proof.
  assert (HW : exists W T, Watcher_heap depend_pre !! 1 = Some W
                 /\ Watcher_heap depend_pre !! 2 = Some T
                 /\ deps W = [1] /\ depIds T = ∅ /\ newDepIds T = ∅).
  { eexists. eexists. split; [vm_compute; reflexivity|].
    split; [vm_compute; reflexivity|]. split; [reflexivity|]. split; reflexivity. }
  destruct HW as (W & T & EW & ET & Hdeps & Hids & Hnew).
  destruct (depend_registers_target 1 W 2 T depend_pre EW) as
    (s' & T' & Hd & ET' & _ & _ & Hin & Hsub & _).
  - reflexivity.
  - exact ET.
  - exists s', T'. split; [exact Hd|]. split; [exact ET'|]. split.
    + apply Hin. right. rewrite Hdeps. apply elem_of_cons. by left.
    + apply Hsub.
      * rewrite Hdeps. apply elem_of_cons. by left.
      * rewrite Hids. apply not_elem_of_empty.
      * rewrite Hnew. apply not_elem_of_empty.
      * eexists. vm_compute. reflexivity.
Defined.

(** X7 on [observe] of the data [{a}], which takes the ids [0] and [1]. *)
Lemma dep_ids_are_never_reused_witness :
  Dep_uid (with_objects [plain [field "a" (VStr "x")]]) <= Dep_uid observed_pre
  /\ (forall d, is_Some (Dep_heap observed_pre !! d)
        <-> is_Some (Dep_heap (with_objects [plain [field "a" (VStr "x")]]) !! d)
            \/ Dep_uid (with_objects [plain [field "a" (VStr "x")]]) <= d
               < Dep_uid observed_pre)
  /\ dep_ids_below observed_pre
  /\ Dep_heap observed_pre !! (new_Dep observed_pre).1 = None.
Proof.
  apply (dep_ids_are_never_reused dev no_traverse 6
           (Observe (VObj 0) false (Ret VUndef))
           (with_objects [plain [field "a" (VStr "x")]]) (Val VUndef) observed_pre).
  - apply dep_ids_below_with_objects.
  - vm_compute. reflexivity.
Defined.

(** X8 on the conditional-branch scenario: the Watcher is being evaluated
    and reads [b] (closure [4], Dep [3]), which it has not read before. *)
Lemma getter_subscribes_the_target_witness :
  exists s' T',
    reactiveGetter (knot_at dev no_traverse 6) 4 (pushTarget (Some 1) branch_flipped)
    = Some (Val (VStr "B"), s')
    /\ Watcher_heap s' !! 1 = Some T'
    /\ (3 ∈ newDepIds T')
    /\ (1 ∈ subs (the_Dep s' 3)).
Proof.
  assert (HC : exists C T,
             Closure_heap (pushTarget (Some 1) branch_flipped) !! 4 = Some C
             /\ Watcher_heap (pushTarget (Some 1) branch_flipped) !! 1 = Some T
             /\ c_getter C = None /\ c_val C = VStr "B" /\ c_dep C = 3
             /\ c_childOb C = None
             /\ (3 ∉ depIds T) /\ (3 ∉ newDepIds T)).
  { eexists. eexists. split; [vm_compute; reflexivity|].
    split; [vm_compute; reflexivity|]. split; [reflexivity|]. split; [reflexivity|].
    split; [reflexivity|]. split; [reflexivity|].
    split; apply (bool_decide_unpack _); vm_compute; reflexivity. }
  assert (Ht : Dep_target (pushTarget (Some 1) branch_flipped) = Some 1)
    by reflexivity.
  assert (Hdep : is_Some (Dep_heap (pushTarget (Some 1) branch_flipped) !! 3))
    by (eexists; vm_compute; reflexivity).
  set (s := pushTarget (Some 1) branch_flipped) in *. clearbody s.
  destruct HC as (C & T & EC & ET & Hg & Hv & Hd & Hch & Hn1 & Hn2).
  destruct (getter_subscribes_the_target (knot_at dev no_traverse 6) 4 C s EC Hg)
    as (_ & Htrack).
  specialize (Htrack 1 T Ht ET). rewrite Hv, Hd, Hch in Htrack.
  destruct (Htrack eq_refl) as (s' & T' & Hget & _ & ET' & Hin & Hsub).
  exists s', T'. split; [exact Hget|]. split; [exact ET'|]. split.
  - apply Hin. right. apply elem_of_cons. by left.
  - apply Hsub; [apply elem_of_cons; by left|exact Hn1|exact Hn2|exact Hdep].
Defined.

(** X9 on the reactive property [x]: after the assignment of ["v"] the
    getter returns ["v"]. *)
Lemma write_then_read_witness :
  exists s' C',
    reactiveSetter dev no_traverse (knot_at dev no_traverse 6) 2 (VStr "v") deep_pre
    = Some (Val tt, s')
    /\ Closure_heap s' !! 2 = Some C'
    /\ c_val C' = VStr "v"
    /\ reactiveGetter (knot_at dev no_traverse 6) 2 s' = Some (Val (VStr "v"), s').
Proof.
  assert (HC : exists C, Closure_heap deep_pre !! 2 = Some C
                 /\ c_getter C = None /\ c_setter C = None
                 /\ c_customSetter C = None /\ c_val C = VUndef /\ c_dep C = 0).
  { eexists. split; [vm_compute; reflexivity|]. split; [reflexivity|].
    split; [reflexivity|]. split; reflexivity || (split; reflexivity). }
  destruct HC as (C & EC & Hg & Hs & Hcs & Hv & Hd).
  destruct (write_then_read dev no_traverse (knot_at dev no_traverse 6) 2 C
              (VStr "v") deep_pre EC Hg Hs (or_introl Hcs) (or_intror eq_refl))
    as (s' & C' & Hset & EC' & _ & _ & Hnew & Hread).
  - rewrite Hd. intros w Hw.
    assert (Hsubs : subs (the_Dep deep_pre 0) = []) by (vm_compute; reflexivity).
    rewrite Hsubs in Hw. by apply elem_of_nil in Hw.
  - assert (Hv' : c_val C' = VStr "v") by (apply Hnew; rewrite Hv; reflexivity).
    rewrite Hv' in Hread.
    exists s', C'. split; [exact Hset|]. split; [exact EC'|]. split; [exact Hv'|].
    apply Hread. vm_compute. reflexivity.
Defined.


(** X11 on the data [{a}] without Observer: [set] of [c], a read of [c] and
    [del] of [c], which gives back the first state. *)
Lemma del_undoes_set_witness :
  exists s1,
    set dev no_traverse (knot_at dev no_traverse 6) (VObj 0) (KStr "c") (VStr "C")
      (with_objects [plain [field "a" (VStr "x")]]) = Some (Val (VStr "C"), s1)
    /\ read_prop (knot_at dev no_traverse 6) 0 (KStr "c") s1 = Some (Val (VStr "C"), s1)
    /\ del dev no_traverse (knot_at dev no_traverse 6) (VObj 0) (KStr "c") s1
       = Some (Val tt, with_objects [plain [field "a" (VStr "x")]]).
Proof.
  destruct (del_undoes_set dev no_traverse (knot_at dev no_traverse 6) 0
              (plain [field "a" (VStr "x")]) (KStr "c") (VStr "C")
              (with_objects [plain [field "a" (VStr "x")]]))
    as (_ & Hext).
  - vm_compute. reflexivity.
  - reflexivity.
  - vm_compute. reflexivity.
  - vm_compute. reflexivity.
  - reflexivity.
  - reflexivity.
  - destruct (Hext eq_refl) as (s1 & Hset & _ & _ & Hread & Hdel).
    exists s1. split; [exact Hset|]. split; [exact Hread|exact Hdel].
Defined.

(** X12 on the root data [{a}]: [del] of [a] warns and leaves the object as
    it is. *)
Lemma del_on_root_is_refused_witness :
  exists s',
    del dev no_traverse (knot_at dev no_traverse 6) (VObj 0) (KStr "a") root_pre
    = Some (Val tt, s')
    /\ s' = warn warn_del_root root_pre
    /\ Obj_heap s' !! 0 = Obj_heap root_pre !! 0
    /\ trace s' = trace root_pre.
Proof.
  assert (HO : exists obj, Obj_heap root_pre !! 0 = Some obj
                 /\ isArray obj && isValidArrayIndex (KStr "a") = false
                 /\ exists b B, o_ob obj = Some b
                      /\ Observer_heap root_pre !! b = Some B /\ 0 < vmCount B).
  { eexists. split; [vm_compute; reflexivity|]. split; [reflexivity|].
    exists 1. eexists. split; [reflexivity|]. split; [vm_compute; reflexivity|].
    simpl. lia. }
  destruct HO as (obj & EO & Harr & Hroot).
  destruct (del_on_root_is_refused dev no_traverse (knot_at dev no_traverse 6)
              0 obj (KStr "a") root_pre EO Harr (or_intror Hroot))
    as (s' & Hdel & Hs' & EO' & Ht).
  exists s'. split; [exact Hdel|]. split; [exact Hs'|].
  split; [by rewrite EO', EO|exact Ht].
Defined.



(** X15 on the string [ab]: [set] throws, [del] of the index [1] throws and
    [del] of the index [2] returns; on the number [1.5], [del] returns.  The
    warnings end with the text of the target. *)
Lemma set_and_del_on_what_is_not_an_object_witness :
  set dev no_traverse (knot_at dev no_traverse 6) (VStr "ab") (KIdx 1) VUndef init
  = Some (Exn TypeError, warn (warn_set_primitive (VStr "ab")) init)
  /\ del dev no_traverse (knot_at dev no_traverse 6) (VStr "ab") (KIdx 1) init
     = Some (Exn TypeError, warn (warn_del_primitive (VStr "ab")) init)
  /\ del dev no_traverse (knot_at dev no_traverse 6) (VStr "ab") (KIdx 2) init
     = Some (Val tt, warn (warn_del_primitive (VStr "ab")) init)
  /\ del dev no_traverse (knot_at dev no_traverse 6)
       (VNum (S754_finite false 3 (-1))) (KStr "a") init
     = Some (Val tt, warn (warn_del_primitive (VNum (S754_finite false 3 (-1)))) init)
  /\ warn_set_primitive (VStr "ab")
     = "Cannot set reactive property on undefined, null, or primitive value: ab"
  /\ warn_del_primitive (VNum (S754_finite false 3 (-1)))
     = "Cannot delete reactive property on undefined, null, or primitive value: 1.5".
Proof.
  destruct (set_and_del_on_what_is_not_an_object dev no_traverse
              (knot_at dev no_traverse 6) (VStr "ab") (KIdx 1) VUndef init eq_refl)
    as (Hset & _ & _ & Hdel1).
  destruct (set_and_del_on_what_is_not_an_object dev no_traverse
              (knot_at dev no_traverse 6) (VStr "ab") (KIdx 2) VUndef init eq_refl)
    as (_ & _ & _ & Hdel2).
  destruct (set_and_del_on_what_is_not_an_object dev no_traverse
              (knot_at dev no_traverse 6) (VNum (S754_finite false 3 (-1)))
              (KStr "a") VUndef init eq_refl)
    as (_ & _ & Hdel3 & _).
  split; [exact Hset|]. split; [exact (Hdel1 _ eq_refl)|].
  split; [exact (Hdel2 _ eq_refl)|].
  split; [apply Hdel3; left; by eexists|].
  split; vm_compute; reflexivity.
Defined.

(** X16 on an object whose property [k] is not configurable. *)
Lemma defineReactive_skips_what_is_not_configurable_witness :
  exists s',
    defineReactive (knot_at dev no_traverse 6) 0 (KStr "k") None None false
      (with_objects [plain [(KStr "k", Data (VStr "v") true false)]])
    = Some (Val tt, s')
    /\ Obj_heap s' = Obj_heap (with_objects [plain [(KStr "k", Data (VStr "v") true false)]])
    /\ Closure_heap s' = ∅
    /\ Dep_uid s' = 1.
Proof.
  destruct (defineReactive_skips_what_is_not_configurable (knot_at dev no_traverse 6)
              0 (KStr "k") None None false
              (with_objects [plain [(KStr "k", Data (VStr "v") true false)]])
              (plain [(KStr "k", Data (VStr "v") true false)])
              (Data (VStr "v") true false))
    as (s' & Hd & Hobj & Hcl & _ & _ & Huid).
  - vm_compute. reflexivity.
  - vm_compute. reflexivity.
  - reflexivity.
  - exists s'. split; [exact Hd|]. split; [exact Hobj|]. split; [exact Hcl|exact Huid].
Defined.

Lemma ordinary_state_with_objects os :
  Forall (fun obj =>
            Forall (fun ks => ordinary_key ks.1 = true /\ ordinary_slot ks.2)
              (o_props obj)) os ->
  ordinary_state (with_objects os).
Proof.
  intros Hos. split; [|split]; simpl.
  - intros o obj k sl Ho Hin.
    apply elem_of_list_to_map_2, elem_of_lookup_imap in Ho as (i & x & Hix & Hx).
    injection Hix as -> ->.
    rewrite Forall_lookup in Hos. specialize (Hos _ _ Hx).
    rewrite Forall_forall in Hos. apply (Hos (k, sl) Hin).
  - intros w W H. by rewrite lookup_empty in H.
  - intros q C H. by rewrite lookup_empty in H.
Qed.

Lemma ordinary_state_root_pre : ordinary_state root_pre.
Proof.
  assert (Ho : Obj_heap root_pre
               = {[0 := mkObj CPlain true false (Some 1)
                          [(KStr "a",
                            Accessor (Some (ReactiveGetter 2 Ret))
                              (Some (fun v => ReactiveSetter 2 v (Ret VUndef)))
                              true true)] []]})
    by (vm_compute; reflexivity).
  assert (Hw : Watcher_heap root_pre = ∅) by (vm_compute; reflexivity).
  assert (Hc : Closure_heap root_pre
               = {[2 := mkClosure 0 (KStr "a") 1 (VStr "x") None None None None false]})
    by (vm_compute; reflexivity).
  split; [|split].
  - intros o obj k sl Eo Hin. rewrite Ho in Eo.
    apply lookup_singleton_Some in Eo as [<- <-]. simpl in Hin.
    apply elem_of_cons in Hin as [Hin|Hin]; [|by apply elem_of_nil in Hin].
    injection Hin as -> ->. split; [vm_compute; reflexivity|].
    simpl. split; intros v; exact I.
  - intros w W EW. rewrite Hw in EW. by rewrite lookup_empty in EW.
  - intros q C EC. rewrite Hc in EC.
    apply lookup_singleton_Some in EC as [<- <-]. simpl. by split; [|split].
Qed.

(** X17 on the root data [{a}]: an assignment to [a] and a second
    [observe(data, true)] keep the object and its Observer and raise
    [vmCount]. *)
Lemma observers_stay_attached_witness :
  ObInv (after dev 6
           (SetProp 0 (KStr "a") (VStr "y") (Observe (VObj 0) true (Ret VUndef)))
           root_pre)
  /\ (exists obj',
        Obj_heap (after dev 6
                    (SetProp 0 (KStr "a") (VStr "y")
                       (Observe (VObj 0) true (Ret VUndef))) root_pre) !! 0
        = Some obj'
        /\ o_class obj' = CPlain /\ o_ob obj' = Some 1)
  /\ (exists B',
        Observer_heap (after dev 6
                         (SetProp 0 (KStr "a") (VStr "y")
                            (Observe (VObj 0) true (Ret VUndef))) root_pre) !! 1
        = Some B'
        /\ ob_value B' = 0 /\ ob_dep B' = 0 /\ 1 <= vmCount B').
Proof.
  assert (HO : exists obj B, Obj_heap root_pre !! 0 = Some obj
                 /\ Observer_heap root_pre !! 1 = Some B
                 /\ o_class obj = CPlain /\ o_ob obj = Some 1
                 /\ ob_value B = 0 /\ ob_dep B = 0 /\ vmCount B = 1).
  { eexists. eexists. split; [vm_compute; reflexivity|].
    split; [vm_compute; reflexivity|]. split; [reflexivity|]. split; [reflexivity|].
    split; [reflexivity|]. split; reflexivity. }
  destruct HO as (obj & B & EO & EB & Hcl & Hob & Hv & Hd & Hvm).
  destruct (observers_stay_attached dev no_traverse 6
              (SetProp 0 (KStr "a") (VStr "y") (Observe (VObj 0) true (Ret VUndef)))
              root_pre (Val VUndef)
              (after dev 6
                 (SetProp 0 (KStr "a") (VStr "y")
                    (Observe (VObj 0) true (Ret VUndef))) root_pre))
    as (HI & Hobjs & Hobs).
  - apply ObInv_after, ObInv_with_objects. by repeat constructor.
  - apply ordinary_state_root_pre.
  - simpl. split; [vm_compute; reflexivity|exact I].
  - vm_compute. reflexivity.
  - split; [exact HI|]. split.
    + destruct (Hobjs 0 obj EO) as (obj' & EO' & Hcl' & _ & _ & Hob').
      exists obj'. split; [exact EO'|]. split; [by rewrite Hcl'|by apply Hob'].
    + destruct (Hobs 1 B EB) as (B' & EB' & Hv' & Hd' & Hvm').
      exists B'. split; [exact EB'|]. rewrite Hv', Hd'. split; [exact Hv|].
      split; [exact Hd|]. by rewrite <- Hvm.
Defined.

(** X18 on a VNode, after an assignment to its [tag] and [observe], on a
    frozen object, and on a Vue instance after an assignment to its [msg]:
    [observe] leaves them without Observer. *)
Lemma unobservable_stays_unobserved_witness :
  (exists obj',
     Obj_heap (after dev 6
                 (SetProp 0 (KStr "tag") (VStr "div")
                    (Observe (VObj 0) false (Ret VUndef)))
                 (with_objects [mkObj CVNode true false None [] []])) !! 0
     = Some obj' /\ o_ob obj' = None)
  /\ (exists obj',
        Obj_heap (after dev 6 (Observe (VObj 0) false (Ret VUndef))
                    (with_objects [mkObj CPlain false false None [] []])) !! 0
        = Some obj' /\ o_ob obj' = None)
  /\ (exists obj',
        Obj_heap (after dev 6
                    (SetProp 0 (KStr "msg") (VStr "yo")
                       (Observe (VObj 0) false (Ret VUndef)))
                    (with_objects
                       [mkObj CPlain true true None [field "msg" (VStr "hi")] []]))
          !! 0
        = Some obj' /\ o_ob obj' = None).
Proof.
  split; [|split]; cycle 2.
  { apply (unobservable_stays_unobserved dev no_traverse 6
             (SetProp 0 (KStr "msg") (VStr "yo")
                (Observe (VObj 0) false (Ret VUndef)))
             (with_objects
                [mkObj CPlain true true None [field "msg" (VStr "hi")] []])
             (Val VUndef)
             (after dev 6
                (SetProp 0 (KStr "msg") (VStr "yo")
                   (Observe (VObj 0) false (Ret VUndef)))
                (with_objects
                   [mkObj CPlain true true None [field "msg" (VStr "hi")] []]))
             0 (mkObj CPlain true true None [field "msg" (VStr "hi")] [])).
    - apply ObInv_with_objects. by repeat constructor.
    - apply ordinary_state_with_objects.
      apply Forall_cons. split; [|apply Forall_nil_2].
      apply Forall_cons. split; [|apply Forall_nil_2].
      split; [vm_compute; reflexivity|exact I].
    - simpl. split; [vm_compute; reflexivity|exact I].
    - vm_compute. reflexivity.
    - vm_compute. reflexivity.
    - reflexivity.
    - right. right. right. reflexivity. }
  - apply (unobservable_stays_unobserved dev no_traverse 6
             (SetProp 0 (KStr "tag") (VStr "div")
                (Observe (VObj 0) false (Ret VUndef)))
             (with_objects [mkObj CVNode true false None [] []]) (Val VUndef)
             (after dev 6
                (SetProp 0 (KStr "tag") (VStr "div")
                   (Observe (VObj 0) false (Ret VUndef)))
                (with_objects [mkObj CVNode true false None [] []]))
             0 (mkObj CVNode true false None [] [])).
    + apply ObInv_with_objects. by repeat constructor.
    + apply ordinary_state_with_objects. by repeat constructor.
    + simpl. split; [vm_compute; reflexivity|exact I].
    + vm_compute. reflexivity.
    + vm_compute. reflexivity.
    + reflexivity.
    + left. reflexivity.
  - apply (unobservable_stays_unobserved dev no_traverse 6
             (Observe (VObj 0) false (Ret VUndef))
             (with_objects [mkObj CPlain false false None [] []]) (Val VUndef)
             (after dev 6 (Observe (VObj 0) false (Ret VUndef))
                (with_objects [mkObj CPlain false false None [] []]))
             0 (mkObj CPlain false false None [] [])).
    + apply ObInv_with_objects. by repeat constructor.
    + apply ordinary_state_with_objects. by repeat constructor.
    + exact I.
    + vm_compute. reflexivity.
    + vm_compute. reflexivity.
    + reflexivity.
    + right. right. left. reflexivity.
Defined.





(** X23 on the array [[{}, "s"]] during the evaluation of Watcher [1]: the
    Dep [1] of the Observer of the element is registered with the Watcher. *)
Lemma dependArray_registers_elements_witness :
  exists s' T',
    dependArray (knot_at dev no_traverse 6) 0 array_pre = Some (Val tt, s')
    /\ Watcher_heap s' !! 1 = Some T'
    /\ (1 ∈ newDepIds T')
    /\ (1 ∈ subs (the_Dep s' 1)).
Proof.
  assert (HO : exists obj T, Obj_heap array_pre !! 0 = Some obj
                 /\ Watcher_heap array_pre !! 1 = Some T
                 /\ o_items obj = [VObj 1; VStr "s"]
                 /\ omap (ob_dep_of array_pre) (o_items obj) = [1]
                 /\ is_array_val array_pre (VObj 1) = false
                 /\ depIds T = ∅ /\ newDepIds T = ∅).
  { eexists. eexists. split; [vm_compute; reflexivity|].
    split; [vm_compute; reflexivity|]. split; [reflexivity|].
    split; [vm_compute; reflexivity|]. split; [vm_compute; reflexivity|].
    split; reflexivity. }
  assert (Ht : Dep_target array_pre = Some 1) by reflexivity.
  assert (Hdep : is_Some (Dep_heap array_pre !! 1))
    by (eexists; vm_compute; reflexivity).
  set (s := array_pre) in *. clearbody s.
  destruct HO as (obj & T & EO & ET & Hitems & Hds & Harr & Hids & Hnew).
  destruct (dependArray_registers_elements (knot_at dev no_traverse 6) 0 obj s EO)
    as (s' & Hd & _ & Hreg).
  - rewrite Hitems. intros e He.
    apply elem_of_cons in He as [->|He]; [exact Harr|].
    apply elem_of_cons in He as [->|He]; [reflexivity|].
    by apply elem_of_nil in He.
  - destruct (Hreg 1 T Ht ET) as (T' & ET' & Hin & Hsub).
    rewrite Hds in Hin, Hsub.
    exists s', T'. split; [exact Hd|]. split; [exact ET'|]. split.
    + apply Hin. right. apply elem_of_cons. by left.
    + apply Hsub; [apply elem_of_cons; by left| | |exact Hdep].
      * rewrite Hids. apply not_elem_of_empty.
      * rewrite Hnew. apply not_elem_of_empty.
Defined.

(** X25 on [vm.$watch] of [a] with the option [deep] and without [user]:
    the Watcher [1] it makes is a user Watcher. *)
Lemma watch_is_a_user_watcher_witness :
  exists s' W,
    vm_watch dev no_traverse (knot_at dev no_traverse 6) 0 "a" read_a noop_cb
      (Some (mkOptions true false false false)) false observed_pre
    = Some (Val 1, s')
    /\ Watcher_heap observed_pre !! 1 = None
    /\ Watcher_heap s' !! 1 = Some W
    /\ user W = true /\ lazy W = false.
Proof.
  assert (Hw : exists s',
             vm_watch dev no_traverse (knot_at dev no_traverse 6) 0 "a" read_a noop_cb
               (Some (mkOptions true false false false)) false observed_pre
             = Some (Val 1, s')) by (eexists; vm_compute; reflexivity).
  destruct Hw as (s' & Hw).
  destruct (watch_is_a_user_watcher dev no_traverse 6 0 "a" read_a noop_cb
              (Some (mkOptions true false false false)) false observed_pre
              (Val 1) s')
    as (_ & Hfresh & W & EW & Huser & _ & _ & _ & Hlazy).
  - apply Inv_after, Inv_with_objects.
  - exact Hw.
  - assert (Hu : Watcher_uid observed_pre = 0) by (vm_compute; reflexivity).
    rewrite Hu in Hfresh, EW.
    exists s', W. split; [exact Hw|]. split; [exact Hfresh|]. split; [exact EW|].
    split; [exact Huser|exact Hlazy].
Defined.

(** X26 on [vm.$watch] of [a] with [immediate] and a callback that throws:
    the error is reported and [$watch] returns the Watcher. *)
Lemma watch_immediate_calls_back_witness :
  exists s',
    vm_watch dev no_traverse (knot_at dev no_traverse 6) 0 "a" read_a throwing_cb
      None true observed_pre = Some (Val 1, s')
    /\ errors s' = [(VStr "bang", immediate_label "a")].
Proof.
  assert (Hn : exists s1 s2,
             new_Watcher dev no_traverse (knot_at dev no_traverse 6) 0 "a" read_a
               throwing_cb (Some (mkOptions false true false false)) false observed_pre
             = Some (Val 1, s1)
             /\ default VUndef (value <$> Watcher_heap s1 !! 1) = VStr "x"
             /\ default EmptyString (expression <$> Watcher_heap s1 !! 1) = "a"
             /\ call (knot_at dev no_traverse 6) (throwing_cb (VStr "x") VUndef) s1
                = Some (Exn (VStr "bang"), s2)
             /\ errors s2 = []).
  { eexists. eexists. split; [vm_compute; reflexivity|].
    split; [vm_compute; reflexivity|]. split; [vm_compute; reflexivity|].
    split; [vm_compute; reflexivity|]. vm_compute. reflexivity. }
  destruct Hn as (s1 & s2 & Hn & Hv & Hx & Hcall & Herr).
  set (s := observed_pre) in *. clearbody s.
  destruct (watch_immediate_calls_back dev no_traverse (knot_at dev no_traverse 6)
              0 "a" read_a throwing_cb None 1 s1 s Hn) as (_ & _ & Hthrow).
  rewrite Hv, Hx in Hthrow.
  destruct (Hthrow _ _ Hcall) as (Hw & He).
  eexists. split; [exact Hw|]. rewrite He, Herr. reflexivity.
Defined.

(** X27 on a component whose [_data] is [{msg}]: after
    [proxy(vm, "_data", "msg")] a read of [vm.msg] gives [_data.msg] and an
    assignment to [vm.msg] lands in [_data]. *)
Lemma proxy_forwards_witness :
  exists s1 s2,
    proxy 0 (KStr "_data") (KStr "msg") (with_objects proxy_objects) = Some (Val tt, s1)
    /\ read_prop (knot_at dev no_traverse 6) 0 (KStr "msg") s1
       = Some (Val (VStr "hi"), s1)
    /\ assign (knot_at dev no_traverse 6) 0 (KStr "msg") (VStr "yo") s1
       = Some (Val tt, s2)
    /\ read_prop (knot_at dev no_traverse 6) 1 (KStr "msg") s2
       = Some (Val (VStr "yo"), s2).
Proof.
  assert (Hs1 : exists s1 s2,
             proxy 0 (KStr "_data") (KStr "msg") (with_objects proxy_objects)
             = Some (Val tt, s1)
             /\ read_prop (knot_at dev no_traverse 5) 1 (KStr "msg") s1
                = Some (Val (VStr "hi"), s1)
             /\ assign (knot_at dev no_traverse 5) 1 (KStr "msg") (VStr "yo") s1
                = Some (Val tt, s2)
             /\ read_prop (knot_at dev no_traverse 6) 1 (KStr "msg") s2
                = Some (Val (VStr "yo"), s2)).
  { eexists. eexists. split; [vm_compute; reflexivity|].
    split; [vm_compute; reflexivity|]. split; [vm_compute; reflexivity|].
    vm_compute. reflexivity. }
  destruct Hs1 as (s1 & s2 & Hp & Hr1 & Ha1 & Hr2).
  assert (H1 : Obj_heap (with_objects proxy_objects) !! 0
               = Some (mkObj COther true true None [field "_data" (VObj 1)] []))
    by (vm_compute; reflexivity).
  assert (H2 : get_slot
                 (o_props (mkObj COther true true None [field "_data" (VObj 1)] []))
                 (KStr "_data") = Some (Data (VObj 1) true true))
    by (vm_compute; reflexivity).
  assert (H3 : KStr "_data" <> KStr "msg") by discriminate.
  assert (H4 : match get_slot
                       (o_props (mkObj COther true true None [field "_data" (VObj 1)] []))
                       (KStr "msg") with
               | Some sl => slot_configurable sl = true
               | None =>
                   o_extensible (mkObj COther true true None [field "_data" (VObj 1)] [])
                   = true
               end) by (vm_compute; reflexivity).
  destruct (proxy_forwards dev no_traverse 5 0 (KStr "_data") (KStr "msg") _ 1 true true
              _ H1 H2 H3 H4) as (s1' & Hp' & _ & _ & Hread & Hassign).
  rewrite Hp in Hp'. injection Hp' as <-.
  exists s1, s2. split; [exact Hp|].
  split; [exact (eq_trans Hread Hr1)|].
  split; [exact (eq_trans (Hassign _) Ha1)|exact Hr2].
Defined.
